(** * WRO Future Engineers randomization app: a shallow embedding of
      [aplicacion.py] and the properties of its layout generators.

    The development follows the source file top to bottom:
    - [Geometry]: field constants and the four per-section painters
      [on_north], [on_south], [on_west], [on_east];
    - the domain enumerations and the obstacle catalog;
    - a state/error monad carrying the module globals and the random source;
    - the open-round generator [draw_layout];
    - the obstacle-round generator [randomize_and_draw_layout_for_obstacle].
    Theorems come after all definitions. *)

From Stdlib Require Import ZArith List Bool Lia PeanoNat ListSet Permutation.
Import ListNotations.

Local Open Scope Z_scope.

(** ** Geometry *)

Module Geometry.

(** Field constants (pixels). *)
Definition width : Z := 3000.
Definition height : Z := width.
Definition first_line : Z := 400.
Definition second_line : Z := first_line + 200.
Definition inner_border : Z := second_line + 400.
Definition left_position : Z := inner_border.
Definition middle_position : Z := width / 2.
Definition right_position : Z := width - inner_border.
Definition border : Z := 10.
Definition obstacle_size : Z := 100.

(** A BGR colour triple. *)
Definition bgr : Type := (Z * Z * Z)%type.

(** The image is a NumPy array of [height + 2*border] rows and
    [width + 2*border] columns; it is modelled by its pixel function.  Only
    indices inside the array are meaningful. *)
Definition image : Type := Z -> Z -> bgr.

Definition image_rows : Z := height + border * 2.
Definition image_cols : Z := width + border * 2.

(** Python's normalisation of one bound of a unit-step slice over an axis
    of length [n]: a negative bound counts from the end, and the result is
    clamped to [0, n]. *)
Definition slice_bound (n a : Z) : Z :=
  if a <? 0 then Z.max (a + n) 0 else Z.min a n.

Definition in_slice (n a b i : Z) : bool :=
  (slice_bound n a <=? i) && (i <? slice_bound n b).

(** [img[a:b, c:d] = col] *)
Definition slice_assign (img : image) (a b c d : Z) (col : bgr) : image :=
  fun i j =>
    if in_slice image_rows a b i && in_slice image_cols c d j
    then col else img i j.

Definition on_north (img : image) (h1 w1 h2 w2 : Z) (c : bgr) : image :=
  slice_assign img
    (Z.min h1 h2 + border) (Z.max h1 h2 + border)
    (Z.min w1 w2 + border) (Z.max w1 w2 + border)
    c.

Definition on_south (img : image) (h1 w1 h2 w2 : Z) (c : bgr) : image :=
  slice_assign img
    (height - Z.max h1 h2 + border) (height - Z.min h1 h2 + border)
    (width - Z.max w1 w2 + border) (width - Z.min w1 w2 + border)
    c.

Definition on_west (img : image) (h1 w1 h2 w2 : Z) (c : bgr) : image :=
  slice_assign img
    (height - Z.max w1 w2 + border) (height - Z.min w1 w2 + border)
    (Z.min h1 h2 + border) (Z.max h1 h2 + border)
    c.

Definition on_east (img : image) (h1 w1 h2 w2 : Z) (c : bgr) : image :=
  slice_assign img
    (Z.min w1 w2 + border) (Z.max w1 w2 + border)
    (width - Z.max h1 h2 + border) (width - Z.min h1 h2 + border)
    c.

(** *** Vocabulary for stating what a painter does *)

(** An axis-aligned pixel rectangle: rows [row_lo, row_hi), columns
    [col_lo, col_hi). *)
Record Rect : Type := mkRect
  { row_lo : Z; row_hi : Z; col_lo : Z; col_hi : Z }.

Definition inside (R : Rect) (i j : Z) : bool :=
  (row_lo R <=? i) && (i <? row_hi R) && (col_lo R <=? j) && (j <? col_hi R).

Definition fill (R : Rect) (c : bgr) (img : image) : image :=
  fun i j => if inside R i j then c else img i j.

Definition rect_rows (R : Rect) : Z := row_hi R - row_lo R.
Definition rect_cols (R : Rect) : Z := col_hi R - col_lo R.

(** The canonical rectangle spanned by the corners (h1, w1) and (h2, w2). *)
Definition canonical (h1 w1 h2 w2 : Z) : Rect :=
  mkRect (Z.min h1 h2) (Z.max h1 h2) (Z.min w1 w2) (Z.max w1 w2).

Definition translate (d : Z) (R : Rect) : Rect :=
  mkRect (row_lo R + d) (row_hi R + d) (col_lo R + d) (col_hi R + d).

(** Point reflection of a rectangle through the centre of the image
    (mirroring in both axes). *)
Definition mirror (R : Rect) : Rect :=
  mkRect (image_rows - row_hi R) (image_rows - row_lo R)
         (image_cols - col_hi R) (image_cols - col_lo R).

(** Rectangles painted on the West and East sections. *)
Definition west_rect (h1 w1 h2 w2 : Z) : Rect :=
  mkRect (height - Z.max w1 w2 + border) (height - Z.min w1 w2 + border)
         (Z.min h1 h2 + border) (Z.max h1 h2 + border).

Definition east_rect (h1 w1 h2 w2 : Z) : Rect :=
  mkRect (Z.min w1 w2 + border) (Z.max w1 w2 + border)
         (width - Z.max h1 h2 + border) (width - Z.min h1 h2 + border).

(** Both corners lie on the playing field. *)
Definition on_field (h1 w1 h2 w2 : Z) : Prop :=
  (0 <= h1 <= height /\ 0 <= h2 <= height) /\
  (0 <= w1 <= width /\ 0 <= w2 <= width).

End Geometry.

Import Geometry.

(** ** Domain enumerations *)

(** [Section] is a Python [Enum] whose "members" are the four painter
    functions; a value of the type is one of them and calling it paints on
    the corresponding side. *)
Inductive Section : Type := NORTH | SOUTH | WEST | EAST.

Definition Section_call (s : Section)
  : image -> Z -> Z -> Z -> Z -> bgr -> image :=
  match s with
  | NORTH => on_north
  | SOUTH => on_south
  | WEST => on_west
  | EAST => on_east
  end.

Inductive Direction : Type := CW | CCW.

Inductive Intersection : Type :=
  | TopLeft | TopMiddle | TopRight
  | T4 | X2 | T3
  | T2 | X1 | T1
  | BottomLeft | BottomMiddle | BottomRight.

Definition Intersection_value (p : Intersection) : Z * Z :=
  match p with
  | TopLeft => (0, left_position)
  | TopMiddle => (0, middle_position)
  | TopRight => (0, right_position)
  | T4 => (first_line, left_position)
  | X2 => (first_line, middle_position)
  | T3 => (first_line, right_position)
  | T2 => (second_line, left_position)
  | X1 => (second_line, middle_position)
  | T1 => (second_line, right_position)
  | BottomLeft => (inner_border, left_position)
  | BottomMiddle => (inner_border, middle_position)
  | BottomRight => (inner_border, right_position)
  end.

Inductive Color : Type := RED | GREEN | UNDEFINED.

Definition Color_value (c : Color) : bgr :=
  match c with
  | RED => (55, 39, 238)
  | GREEN => (44, 214, 68)
  | UNDEFINED => (0, 0, 0)
  end.

Inductive StartZone : Type := Z1 | Z2 | Z3 | Z4 | Z5 | Z6.

Definition StartZone_value (z : StartZone) : Intersection * Intersection :=
  match z with
  | Z1 => (X1, BottomRight)
  | Z2 => (T2, BottomMiddle)
  | Z3 => (X2, T1)
  | Z4 => (T4, X1)
  | Z5 => (TopMiddle, T3)
  | Z6 => (TopLeft, X2)
  end.

(** [list(StartZone)]: the members in definition order. *)
Definition list_StartZone : list StartZone := [Z1; Z2; Z3; Z4; Z5; Z6].

Definition Section_eq_dec (a b : Section) : {a = b} + {a <> b}.
Proof. decide equality. Defined.

Definition Direction_eq_dec (a b : Direction) : {a = b} + {a <> b}.
Proof. decide equality. Defined.

Definition Intersection_eq_dec (a b : Intersection) : {a = b} + {a <> b}.
Proof. decide equality. Defined.

Definition Color_eq_dec (a b : Color) : {a = b} + {a <> b}.
Proof. decide equality. Defined.

Definition StartZone_eq_dec (a b : StartZone) : {a = b} + {a <> b}.
Proof. decide equality. Defined.

(** ** Obstacles *)

Record Obstacle : Type := mkObstacle
  { position : Intersection; color : Color }.

Definition Obstacle_set_color (o : Obstacle) (c : Color) : Obstacle :=
  mkObstacle (position o) c.

Definition is_red (o : Obstacle) : bool :=
  if Color_eq_dec (color o) RED then true else false.

Definition is_green (o : Obstacle) : bool :=
  if Color_eq_dec (color o) GREEN then true else false.

Definition Obstacle_x (o : Obstacle) : Z := fst (Intersection_value (position o)).
Definition Obstacle_y (o : Obstacle) : Z := snd (Intersection_value (position o)).

Definition Obstacle_draw (o : Obstacle) (img : image) (section : Section) : image :=
  Section_call section img
    (Obstacle_x o - obstacle_size / 2) (Obstacle_y o - obstacle_size / 2)
    (Obstacle_x o + obstacle_size / 2) (Obstacle_y o + obstacle_size / 2)
    (Color_value (color o)).

Definition start_section_color : bgr := (192, 192, 192).

(** [VehiclePosition(start_zone).draw(img, section)] *)
Definition VehiclePosition_draw (start_zone : StartZone) (img : image)
    (section : Section) : image :=
  Section_call section img
    (fst (Intersection_value (fst (StartZone_value start_zone))))
    (snd (Intersection_value (fst (StartZone_value start_zone))))
    (fst (Intersection_value (snd (StartZone_value start_zone))))
    (snd (Intersection_value (snd (StartZone_value start_zone))))
    start_section_color.

Definition draw_obstacles_set (img : image) (section : Section)
    (obstacles_set : list Obstacle) : image :=
  fold_left (fun im o => Obstacle_draw o im section) obstacles_set img.

(** ** Inner walls *)

Record InnerWall : Type := mkInnerWall
  { _north : bool; _west : bool; _south : bool; _east : bool;
    fixed_center : bool }.

Definition Section_in (s : Section) (sides : list Section) : bool :=
  if in_dec Section_eq_dec s sides then true else false.

(** [InnerWall(sides)]; [InnerWall()] is [new_InnerWall []]. *)
Definition new_InnerWall (sides : list Section) : InnerWall :=
  mkInnerWall (Section_in NORTH sides) (Section_in WEST sides)
              (Section_in SOUTH sides) (Section_in EAST sides) true.

Definition on_side (iw : InnerWall) (side : Section) : bool :=
  match side with
  | NORTH => _north iw
  | WEST => _west iw
  | SOUTH => _south iw
  | EAST => _east iw
  end.

(** ** Python containers used by the generators *)

(** A [dict] keeps its keys in insertion order: an association list in
    which a key occurs at most once. *)
Section Dict.
Context {K V : Type} (K_eq_dec : forall a b : K, {a = b} + {a <> b}).

Fixpoint dict_get (k : K) (d : list (K * V)) : option V :=
  match d with
  | [] => None
  | (k', v) :: rest => if K_eq_dec k k' then Some v else dict_get k rest
  end.

(** [d[k] = v] *)
Fixpoint dict_set (k : K) (v : V) (d : list (K * V)) : list (K * V) :=
  match d with
  | [] => [(k, v)]
  | (k', v') :: rest =>
      if K_eq_dec k k' then (k, v) :: rest
      else (k', v') :: dict_set k v rest
  end.

(** [del d[k]] *)
Fixpoint dict_del (k : K) (d : list (K * V)) : list (K * V) :=
  match d with
  | [] => []
  | (k', v') :: rest =>
      if K_eq_dec k k' then rest else (k', v') :: dict_del k rest
  end.

Definition dict_keys (d : list (K * V)) : list K := map fst d.
End Dict.

(** ** The obstacle catalog and the other module globals *)

Definition forbidden_intersections_in_start_zone
  : list (Direction * list (StartZone * list Intersection)) :=
  [ (CW,  [ (Z3, [T1; T3]); (Z4, [X1; X2]) ]);
    (CCW, [ (Z3, [X1; X2]); (Z4, [T2; T4]) ]) ].

Definition forbidden_intersections_in_parking_section : list Intersection :=
  [T3; T4; X2].

Definition obstacles_sets : list (list Obstacle) :=
  [ [mkObstacle T1 GREEN];                         (* 0 *)
    [mkObstacle T1 RED];                           (* 1 *)
    [mkObstacle X1 GREEN];                         (* 2 *)
    [mkObstacle X1 RED];                           (* 3 *)
    [mkObstacle T2 GREEN];                         (* 4 *)
    [mkObstacle T2 RED];                           (* 5 *)
    [mkObstacle T3 GREEN];                         (* 6 *)
    [mkObstacle T3 RED];                           (* 7 *)
    [mkObstacle X2 GREEN];                         (* 8 *)
    [mkObstacle X2 RED];                           (* 9 *)
    [mkObstacle T4 GREEN];                         (* 10 *)
    [mkObstacle T4 RED];                           (* 11 *)
    [mkObstacle T3 GREEN; mkObstacle T2 GREEN];    (* 12 *)
    [mkObstacle T3 GREEN; mkObstacle T2 RED];      (* 13 *)
    [mkObstacle T3 RED; mkObstacle T2 GREEN];      (* 14 *)
    [mkObstacle T3 RED; mkObstacle T2 RED];        (* 15 *)
    [mkObstacle T1 GREEN; mkObstacle T4 GREEN];    (* 16 *)
    [mkObstacle T1 GREEN; mkObstacle T4 RED];      (* 17 *)
    [mkObstacle T1 RED; mkObstacle T4 GREEN];      (* 18 *)
    [mkObstacle T1 RED; mkObstacle T4 RED];        (* 19 *)
    [mkObstacle T1 GREEN; mkObstacle T2 GREEN];    (* 20 *)
    [mkObstacle T1 GREEN; mkObstacle T2 RED];      (* 21 *)
    [mkObstacle T1 RED; mkObstacle T2 GREEN];      (* 22 *)
    [mkObstacle T1 GREEN; mkObstacle T2 RED];      (* 23 *)
    [mkObstacle T1 RED; mkObstacle T2 GREEN];      (* 24 *)
    [mkObstacle T1 RED; mkObstacle T2 RED];        (* 25 *)
    [mkObstacle T3 GREEN; mkObstacle T4 GREEN];    (* 26 *)
    [mkObstacle T3 GREEN; mkObstacle T4 RED];      (* 27 *)
    [mkObstacle T3 RED; mkObstacle T4 GREEN];      (* 28 *)
    [mkObstacle T3 GREEN; mkObstacle T4 RED];      (* 29 *)
    [mkObstacle T3 RED; mkObstacle T4 GREEN];      (* 30 *)
    [mkObstacle T3 RED; mkObstacle T4 RED] ].      (* 31 *)

Definition mandatory_obstacles_sets : list (Color * Z) :=
  [ (GREEN, 8); (RED, 9) ].

Definition required_obstacles_sets : list Z := [21; 22; 27; 28].

(** The mutable module globals the obstacle-round generator reads.  Each
    catalog entry is a Python list of [Obstacle] objects whose colour can be
    reassigned through [Obstacle.set_color]. *)
Record Globals : Type := mkGlobals
  { g_obstacles_sets : list (list Obstacle);
    g_mandatory_obstacles_sets : list (Color * Z);
    g_required_obstacles_sets : list Z }.

Definition module_globals : Globals :=
  mkGlobals obstacles_sets mandatory_obstacles_sets required_obstacles_sets.

(** ** The monad: module globals, random source, exceptions *)

(** The random source is a tape of naturals; each primitive of Python's
    [random] module consumes entries of it.  Every outcome the library can
    produce is produced by some tape, so a statement over all tapes covers
    all runs. *)
Record World : Type := mkWorld
  { globals : Globals; tape : list nat }.

Inductive exn : Type := ValueError | IndexError | KeyError | RuntimeError.

(** [Starved]: the tape ran out before the computation finished. *)
Inductive outcome (A : Type) : Type :=
  | Ret (a : A)
  | Raise (e : exn)
  | Starved.
Arguments Ret {A} a.
Arguments Raise {A} e.
Arguments Starved {A}.

Definition M (A : Type) : Type := World -> outcome A * World.

Definition ret {A} (a : A) : M A := fun w => (Ret a, w).

Definition raise {A} (e : exn) : M A := fun w => (Raise e, w).

Definition bind {A B} (m : M A) (f : A -> M B) : M B :=
  fun w =>
    match m w with
    | (Ret a, w') => f a w'
    | (Raise e, w') => (Raise e, w')
    | (Starved, w') => (Starved, w')
    end.

Notation "x <- m ;; k" := (bind m (fun x => k))
  (at level 61, m at next level, right associativity).

(** Reading a module global. *)
Definition read {A} (f : Globals -> A) : M A :=
  fun w => (Ret (f (globals w)), w).

(** [obstacles_sets[i][k].set_color(c)]: the one operation of the source
    that writes into the catalog. *)
Fixpoint list_update {A} (n : nat) (f : A -> A) (l : list A) : list A :=
  match l, n with
  | [], _ => []
  | x :: rest, O => f x :: rest
  | x :: rest, S n' => x :: list_update n' f rest
  end.

Definition catalog_set_color (i k : nat) (c : Color) : M unit :=
  fun w =>
    (Ret tt,
     mkWorld
       (mkGlobals
          (list_update i (list_update k (fun o => Obstacle_set_color o c))
             (g_obstacles_sets (globals w)))
          (g_mandatory_obstacles_sets (globals w))
          (g_required_obstacles_sets (globals w)))
       (tape w)).

Definition next_random : M nat :=
  fun w =>
    match tape w with
    | [] => (Starved, w)
    | n :: rest => (Ret n, mkWorld (globals w) rest)
    end.

(** [l[i]] on a Python list: a negative index counts from the end. *)
Definition list_index {A} (l : list A) (i : Z) : option A :=
  let n := Z.of_nat (length l) in
  let j := if i <? 0 then i + n else i in
  if (j <? 0) || (n <=? j) then None else nth_error l (Z.to_nat j).

Definition list_getitem {A} (l : list A) (i : Z) : M A :=
  match list_index l i with
  | Some x => ret x
  | None => raise IndexError
  end.

(** [d[k]] on a dict. *)
Definition dict_getitem {K V} (K_eq_dec : forall a b : K, {a = b} + {a <> b})
    (k : K) (d : list (K * V)) : M V :=
  match dict_get K_eq_dec k d with
  | Some v => ret v
  | None => raise KeyError
  end.

(** [random.randint(a, b)] *)
Definition randint (a b : Z) : M Z :=
  if b <? a then raise ValueError
  else n <- next_random ;; ret (a + Z.of_nat n mod (b - a + 1)).

(** [random.choice(seq)] *)
Definition choice {A} (seq : list A) : M A :=
  match seq with
  | [] => raise IndexError
  | _ :: _ =>
      n <- next_random ;;
      match nth_error seq (n mod length seq)%nat with
      | Some x => ret x
      | None => raise IndexError
      end
  end.

(** [random.sample(population, k)]: selection without replacement from a
    pool; the selected slot is refilled with the last element of the pool,
    which then shrinks by one. *)
Fixpoint list_assign {A} (n : nat) (y : A) (l : list A) : list A :=
  match l, n with
  | [], _ => []
  | _ :: rest, O => y :: rest
  | x :: rest, S n' => x :: list_assign n' y rest
  end.

Definition pool_take {A} (j : nat) (pool : list A) : option (A * list A) :=
  match nth_error pool j, nth_error pool (length pool - 1)%nat with
  | Some x, Some y => Some (x, firstn (length pool - 1)%nat (list_assign j y pool))
  | _, _ => None
  end.

Fixpoint sample_pool {A} (pool : list A) (k : nat) : M (list A) :=
  match k with
  | O => ret []
  | S k' =>
      match pool with
      | [] => raise ValueError
      | _ :: _ =>
          n <- next_random ;;
          match pool_take (n mod length pool)%nat pool with
          | Some (x, pool') =>
              rest <- sample_pool pool' k' ;;
              ret (x :: rest)
          | None => raise IndexError
          end
      end
  end.

Definition sample {A} (population : list A) (k : Z) : M (list A) :=
  if (k <? 0) || (Z.of_nat (length population) <? k) then raise ValueError
  else sample_pool population (Z.to_nat k).

(** [for x in l: s = body(s, x)] *)
Fixpoint for_each {A S} (l : list A) (body : S -> A -> M S) (s : S) : M S :=
  match l with
  | [] => ret s
  | x :: rest => s' <- body s x ;; for_each rest body s'
  end.

(** [while cond(s): s = body(s)].  Every loop of the source draws from the
    random source in its body, so the length of the tape bounds the number
    of rounds. *)
Fixpoint while_fuel {S} (fuel : nat) (cond : S -> bool) (body : S -> M S)
    (s : S) : M S :=
  if cond s then
    match fuel with
    | O => fun w => (Starved, w)
    | Datatypes.S fuel' => s' <- body s ;; while_fuel fuel' cond body s'
    end
  else ret s.

Definition while_ {S} (cond : S -> bool) (body : S -> M S) (s : S) : M S :=
  fun w => while_fuel (length (tape w)) cond body s w.

(** [list.pop()] *)
Definition list_pop {A} (l : list A) : M (A * list A) :=
  match rev l with
  | [] => raise IndexError
  | x :: r => ret (x, rev r)
  end.

(** A Python [set] as a duplicate-free list; [set(l)] *)
Definition py_set {A} (A_eq_dec : forall a b : A, {a = b} + {a <> b})
    (l : list A) : list A :=
  fold_left (fun s x => set_add A_eq_dec x s) l [].

(** ** Open round *)

Definition sections : list Section := [NORTH; WEST; SOUTH; EAST].

(** What [draw_layout] paints: the start zone on the start section and the
    inner walls [inner_walls], together with the locals that led there. *)
Record OpenLayout : Type := mkOpenLayout
  { inner_walls_config : list Section;
    starting_section : Section;
    allowed_zones : list StartZone;
    starting_zone : StartZone;
    inner_walls : InnerWall }.

Definition draw_layout (direction : Direction) (fixed : bool) : M OpenLayout :=
  k <- randint 0 4 ;;
  inner_walls_config <- sample sections k ;;
  let inner_walls := new_InnerWall inner_walls_config in
  starting_section <- choice sections ;;
  let allowed_zones :=
    if on_side inner_walls starting_section
    then [Z6; Z5; Z4; Z3]
    else list_StartZone in
  starting_zone <- choice allowed_zones ;;
  let inner_walls := if fixed then new_InnerWall [] else inner_walls in
  ret (mkOpenLayout inner_walls_config starting_section allowed_zones
         starting_zone inner_walls).

Definition randomize_and_draw_layout_for_open (direction : Direction)
  : M OpenLayout := draw_layout direction false.

Definition randomize_and_draw_layout_fixed (direction : Direction)
  : M OpenLayout := draw_layout direction true.

(** ** Obstacle round *)

(** The accumulators of the tally loop. *)
Record Tally : Type := mkTally
  { forbidden_start_zones : list (Z * list StartZone);
    obstacles_set_conflicting_with_parking_section : list Z;
    obstacles_amount : Z;
    green_amount : Z;
    red_amount : Z }.

Definition with_zones (t : Tally) (d : list (Z * list StartZone)) : Tally :=
  mkTally d (obstacles_set_conflicting_with_parking_section t)
    (obstacles_amount t) (green_amount t) (red_amount t).

Definition with_conflicting (t : Tally) (s : list Z) : Tally :=
  mkTally (forbidden_start_zones t) s
    (obstacles_amount t) (green_amount t) (red_amount t).

Definition with_amount (t : Tally) (n : Z) : Tally :=
  mkTally (forbidden_start_zones t)
    (obstacles_set_conflicting_with_parking_section t)
    n (green_amount t) (red_amount t).

Definition with_green (t : Tally) (n : Z) : Tally :=
  mkTally (forbidden_start_zones t)
    (obstacles_set_conflicting_with_parking_section t)
    (obstacles_amount t) n (red_amount t).

Definition with_red (t : Tally) (n : Z) : Tally :=
  mkTally (forbidden_start_zones t)
    (obstacles_set_conflicting_with_parking_section t)
    (obstacles_amount t) (green_amount t) n.

Definition empty_tally : Tally := mkTally [] [] 0 0 0.

Definition Intersection_in (p : Intersection) (l : list Intersection) : bool :=
  if in_dec Intersection_eq_dec p l then true else false.

(** The colour test of one obstacle (the [if]/[elif]/[else] chain). *)
Definition tally_color (t : Tally) (one_obstacle : Obstacle) : M Tally :=
  if is_green one_obstacle then ret (with_green t (green_amount t + 1))
  else if is_red one_obstacle then ret (with_red t (red_amount t + 1))
  else raise ValueError.

(** The body of [for one_obstacle in one_obstacles_set]. *)
Definition tally_obstacle
    (forbidden_intersections : list (StartZone * list Intersection))
    (obstacles_set_index : Z) (t : Tally) (one_obstacle : Obstacle) : M Tally :=
  t <- tally_color t one_obstacle ;;
  t <- for_each (dict_keys forbidden_intersections)
         (fun t zone =>
            ahead <- dict_getitem StartZone_eq_dec zone forbidden_intersections ;;
            if Intersection_in (position one_obstacle) ahead then
              zones <- dict_getitem Z.eq_dec obstacles_set_index
                         (forbidden_start_zones t) ;;
              ret (with_zones t
                     (dict_set Z.eq_dec obstacles_set_index
                        (set_add StartZone_eq_dec zone zones)
                        (forbidden_start_zones t)))
            else ret t)
         t ;;
  for_each forbidden_intersections_in_parking_section
    (fun t intersection =>
       if Intersection_eq_dec (position one_obstacle) intersection then
         ret (with_conflicting t
                (set_add Z.eq_dec obstacles_set_index
                   (obstacles_set_conflicting_with_parking_section t)))
       else ret t)
    t.

(** The body of [for obstacles_set_index in chosen_obstacles_sets_indices]. *)
Definition tally_set
    (forbidden_intersections : list (StartZone * list Intersection))
    (t : Tally) (obstacles_set_index : Z) : M Tally :=
  catalog <- read g_obstacles_sets ;;
  one_obstacles_set <- list_getitem catalog obstacles_set_index ;;
  let t := with_amount t
             (obstacles_amount t + Z.of_nat (length one_obstacles_set)) in
  let t := with_zones t
             (dict_set Z.eq_dec obstacles_set_index []
                (forbidden_start_zones t)) in
  for_each one_obstacles_set
    (tally_obstacle forbidden_intersections obstacles_set_index) t.

(** The loop that deletes from [forbidden_start_zones] while iterating over
    it.  Deleting a key changes the size of the dict, and the dict iterator
    checks the size before it yields or stops: the statement after a
    deletion is the raising of [RuntimeError] ("dictionary changed size
    during iteration"). *)
Definition drop_blocked_sets (forbidden_start_zones : list (Z * list StartZone))
  : M (list (Z * list StartZone)) :=
  for_each (dict_keys forbidden_start_zones)
    (fun d obstacles_set_index =>
       zones <- dict_getitem Z.eq_dec obstacles_set_index d ;;
       if (length zones =? 2)%nat then
         let d := dict_del Z.eq_dec obstacles_set_index d in
         raise RuntimeError
       else ret d)
    forbidden_start_zones.

(** Values of the locals at the end of one round of the rejection loop. *)
Record Attempt : Type := mkAttempt
  { chosen_obstacles_sets_indices : list Z;
    tally : Tally;
    obstacles_set_suitable_for_parking_section : list Z;
    satisfied : bool }.

(** One round of [while not satisfied]. *)
Definition attempt
    (forbidden_intersections : list (StartZone * list Intersection))
  : M Attempt :=
  mandatory_set_color <- choice [GREEN; RED] ;;
  mandatory <- read g_mandatory_obstacles_sets ;;
  mandatory_obstacles_set <- dict_getitem Color_eq_dec mandatory_set_color mandatory ;;
  required <- read g_required_obstacles_sets ;;
  required_obstacles_set <- choice required ;;
  os1 <- while_
           (fun os1 => (os1 =? required_obstacles_set)
                       || (os1 =? mandatory_obstacles_set))
           (fun _ =>
              catalog <- read g_obstacles_sets ;;
              randint 0 (Z.of_nat (length catalog) - 1))
           mandatory_obstacles_set ;;
  os2 <- while_
           (fun os2 => (os2 =? required_obstacles_set)
                       || (os2 =? mandatory_obstacles_set)
                       || (os2 =? os1))
           (fun _ =>
              catalog <- read g_obstacles_sets ;;
              randint 0 (Z.of_nat (length catalog) - 1))
           mandatory_obstacles_set ;;
  let chosen_obstacles_sets_indices :=
    [mandatory_obstacles_set; required_obstacles_set; os1; os2] in
  t <- for_each chosen_obstacles_sets_indices
         (tally_set forbidden_intersections) empty_tally ;;
  zones <- drop_blocked_sets (forbidden_start_zones t) ;;
  let t := with_zones t zones in
  let obstacles_set_suitable_for_parking_section :=
    set_diff Z.eq_dec (py_set Z.eq_dec chosen_obstacles_sets_indices)
      (obstacles_set_conflicting_with_parking_section t) in
  let satisfied :=
    (Z.abs (green_amount t - red_amount t) <=? 1)
    && (obstacles_amount t >? 4)
    && (Z.of_nat (length (forbidden_start_zones t)) >? 0)
    && (Z.of_nat (length obstacles_set_suitable_for_parking_section) >? 0) in
  ret (mkAttempt chosen_obstacles_sets_indices t
         obstacles_set_suitable_for_parking_section satisfied).

(** The rejection loop: before the first round [satisfied] is [False] and
    the other locals are unbound. *)
Definition not_satisfied (s : option Attempt) : bool :=
  match s with
  | None => true
  | Some a => negb (satisfied a)
  end.

Definition rejection_round
    (forbidden_intersections : list (StartZone * list Intersection))
    (previous : option Attempt) : M (option Attempt) :=
  a <- attempt forbidden_intersections ;; ret (Some a).

Definition rejection_loop
    (forbidden_intersections : list (StartZone * list Intersection))
  : M (option Attempt) :=
  while_ not_satisfied (rejection_round forbidden_intersections) None.

Record Scheme : Type := mkScheme
  { start_section : Section;
    start_zone : StartZone;
    obstacles : list (Z * Section);
    parking_section : Section }.

(** The scheme handed to [draw_scheme_for_final], with the locals it was
    computed from. *)
Record Solved : Type := mkSolved
  { accepted : Attempt;
    sections_for_obstacles_sets : list (Z * Section);
    obstacles_set_in_start_section : Z;
    obstacles_set_in_parking_section : Z;
    scheme : Scheme }.

(** Everything after the rejection loop up to the construction of
    [scheme]. *)
Definition assign_sections (a : Attempt) : M Solved :=
  shuffled_sections <- sample sections 4 ;;
  assigned <- for_each (chosen_obstacles_sets_indices a)
                (fun st obstacles_set_index =>
                   popped <- list_pop (snd st) ;;
                   ret (dict_set Z.eq_dec obstacles_set_index (fst popped) (fst st),
                        snd popped))
                ([], shuffled_sections) ;;
  let sections_for_obstacles_sets := fst assigned in
  obstacles_set_in_start_section <-
    choice (dict_keys (forbidden_start_zones (tally a))) ;;
  start_section <- dict_getitem Z.eq_dec obstacles_set_in_start_section
                     sections_for_obstacles_sets ;;
  obstacles_set_in_parking_section <-
    choice (obstacles_set_suitable_for_parking_section a) ;;
  parking_section <- dict_getitem Z.eq_dec obstacles_set_in_parking_section
                       sections_for_obstacles_sets ;;
  forbidden <- dict_getitem Z.eq_dec obstacles_set_in_start_section
                 (forbidden_start_zones (tally a)) ;;
  start_zone <- choice (set_diff StartZone_eq_dec
                          (py_set StartZone_eq_dec [Z3; Z4]) forbidden) ;;
  ret (mkSolved a sections_for_obstacles_sets obstacles_set_in_start_section
         obstacles_set_in_parking_section
         (mkScheme start_section start_zone sections_for_obstacles_sets
            parking_section)).

Definition randomize_and_draw_layout_for_obstacle (direction : Direction)
  : M Solved :=
  forbidden_intersections <-
    dict_getitem Direction_eq_dec direction forbidden_intersections_in_start_zone ;;
  final <- rejection_loop forbidden_intersections ;;
  match final with
  | Some a => assign_sections a
  | None => fun w => (Starved, w)
  end.

(** The scheme is rendered on a copy of the field template: start zone,
    parking barriers aside, then each chosen set on its section. *)
Definition draw_chosen_sets (img : image) (obstacles : list (Z * Section))
  : M image :=
  for_each (dict_keys obstacles)
    (fun img obstacles_set_index =>
       section <- dict_getitem Z.eq_dec obstacles_set_index obstacles ;;
       catalog <- read g_obstacles_sets ;;
       one_obstacles_set <- list_getitem catalog obstacles_set_index ;;
       ret (draw_obstacles_set img section one_obstacles_set))
    img.

(** Initial state of a run on the module as loaded. *)
Definition run {A} (m : M A) (rnd : list nat) : outcome A * World :=
  m (mkWorld module_globals rnd).

(** ** Rendering *)

Definition parking_lot_color : bgr := (255, 0, 255).
Definition parking_barrier_thickness : Z := 20.
Definition parking_barrier_length : Z := 200.
Definition distance_between_parking_barriers : Z := 300.

(** [InnerWall.draw]: the four wall segments, north, west, south, east, each
    a slice assignment of black in absolute image coordinates. *)
Definition InnerWall_draw (iw : InnerWall) (img : image) : image :=
  let h_n := if _north iw then second_line else inner_border in
  let w_w := if _west iw then second_line else inner_border in
  let h_s := if _south iw then height - second_line else height - inner_border in
  let w_e := if _east iw then width - second_line else width - inner_border in
  let img := slice_assign img
               (h_n - border / 2 + border) (h_n + border / 2 + border)
               (w_w - border / 2 + border) (w_e + border / 2 + border)
               (0, 0, 0) in
  let img := slice_assign img
               (h_n - border / 2 + border) (h_s + border / 2 + border)
               (w_w - border / 2 + border) (w_w + border / 2 + border)
               (0, 0, 0) in
  let img := slice_assign img
               (h_s - border / 2 + border) (h_s + border / 2 + border)
               (w_w - border / 2 + border) (w_e + border / 2 + border)
               (0, 0, 0) in
  slice_assign img
    (h_n - border / 2 + border) (h_s + border / 2 + border)
    (w_e - border / 2 + border) (w_e + border / 2 + border)
    (0, 0, 0).

(** [draw_parking_lot_barriers]: corners are (x, y) pairs, passed to the
    section painter as (y, x). *)
Definition draw_parking_lot_barriers (img : image) (section : Section) : image :=
  let first_barrier_top_left := (left_position, 0) in
  let first_barrier_bottom_right :=
    (left_position + parking_barrier_thickness, parking_barrier_length) in
  let second_barrier_top_left :=
    (left_position + parking_barrier_thickness
     + distance_between_parking_barriers, 0) in
  let second_barrier_bottom_right :=
    (left_position + parking_barrier_thickness
     + distance_between_parking_barriers + parking_barrier_thickness,
     parking_barrier_length) in
  let img := Section_call section img
               (snd first_barrier_top_left) (fst first_barrier_top_left)
               (snd first_barrier_bottom_right) (fst first_barrier_bottom_right)
               parking_lot_color in
  Section_call section img
    (snd second_barrier_top_left) (fst second_barrier_top_left)
    (snd second_barrier_bottom_right) (fst second_barrier_bottom_right)
    parking_lot_color.

(** [draw_scheme_for_final], on a copy of [template]. *)
Definition draw_scheme_for_final (template : image) (scheme : Scheme) : M image :=
  let image := template in
  let image := VehiclePosition_draw (start_zone scheme) image
                 (start_section scheme) in
  let image := draw_parking_lot_barriers image (parking_section scheme) in
  draw_chosen_sets image (obstacles scheme).

(** The image of the obstacle round as it stands before the direction arrow
    is drawn: the scheme, then the default inner walls. *)
Definition render_obstacle_round (template : image) (s : Solved) : M image :=
  image <- draw_scheme_for_final template (scheme s) ;;
  ret (InnerWall_draw (new_InnerWall []) image).

(** The image of the open round before the direction arrow is drawn. *)
Definition render_open_round (template : image) (lay : OpenLayout) : image :=
  InnerWall_draw (inner_walls lay)
    (VehiclePosition_draw (starting_zone lay) template (starting_section lay)).

(** * Vocabulary of the properties *)

(** ** Outcomes of monadic code *)

(** [wp m w Phi]: the outcome of [m] started in [w], with the world it
    leaves, satisfies [Phi]. *)
Definition wp {A} (m : M A) (w : World) (Phi : outcome A -> World -> Prop) : Prop :=
  Phi (fst (m w)) (snd (m w)).

(** The continuation of a [bind]: run [f] on a result, pass anything else
    through. *)
Definition after {A B} (f : A -> M B) (Phi : outcome B -> World -> Prop)
  : outcome A -> World -> Prop :=
  fun o w =>
    match o with
    | Ret a => wp (f a) w Phi
    | Raise e => Phi (Raise e) w
    | Starved => Phi Starved w
    end.

(** The postcondition of a loop body: a result re-establishes the
    invariant, anything else leaves the loop. *)
Definition step_post {S} (I : S -> World -> Prop)
    (Phi : outcome S -> World -> Prop) : outcome S -> World -> Prop :=
  fun o w =>
    match o with
    | Ret s => I s w
    | Raise e => Phi (Raise e) w
    | Starved => Phi Starved w
    end.

(** A computation never puts anything back on the tape. *)
Definition keeps_tape {A} (m : M A) : Prop :=
  forall w, (length (tape (snd (m w))) <= length (tape w))%nat.

(** ** The competition rules, in the words of the specification *)

(** Intersection [p] lies directly ahead of a vehicle launched from [zone],
    according to the table [fi] of the driving direction. *)
Definition ahead_of (fi : list (StartZone * list Intersection))
    (zone : StartZone) (p : Intersection) : bool :=
  match dict_get StartZone_eq_dec zone fi with
  | Some l => Intersection_in p l
  | None => false
  end.

(** Some obstacle of the list makes [zone] unusable as start zone. *)
Definition forbids (fi : list (StartZone * list Intersection))
    (zone : StartZone) (os : list Obstacle) : bool :=
  existsb (fun o => ahead_of fi zone (position o)) os.

Definition has_usable_start_zone (fi : list (StartZone * list Intersection))
    (os : list Obstacle) : bool :=
  negb (forbids fi Z3 os) || negb (forbids fi Z4 os).

(** Some obstacle of the list stands on an intersection that must stay free
    in the parking section. *)
Definition conflicts_with_parking (os : list Obstacle) : bool :=
  existsb (fun o => Intersection_in (position o)
                      forbidden_intersections_in_parking_section) os.

Definition has_color (c : Color) (o : Obstacle) : bool :=
  if Color_eq_dec (color o) c then true else false.

Definition count_color (c : Color) (os : list Obstacle) : Z :=
  Z.of_nat (length (filter (has_color c) os)).

Definition count_obstacles (os : list Obstacle) : Z := Z.of_nat (length os).

Definition defined_color (o : Obstacle) : Prop :=
  color o = GREEN \/ color o = RED.

(** [sets] are the catalog entries at [indices], in order. *)
Definition sets_at (catalog : list (list Obstacle)) (indices : list Z)
    (sets : list (list Obstacle)) : Prop :=
  Forall2 (fun i s => list_index catalog i = Some s) indices sets.

(** [zones] is, as a set, the zones of the table that the obstacles [os]
    forbid. *)
Definition zones_of (fi : list (StartZone * list Intersection))
    (os : list Obstacle) (zones : list StartZone) : Prop :=
  NoDup zones /\
  forall z, In z zones <-> In z (dict_keys fi) /\ forbids fi z os = true.

(** What the tally loop has accumulated once it has visited the catalog
    entries at [indices]. *)
Record Tallied (catalog : list (list Obstacle))
    (fi : list (StartZone * list Intersection)) (indices : list Z)
    (t : Tally) : Prop := mkTallied
  { tallied_keys : dict_keys (forbidden_start_zones t) = indices;
    tallied_zones :
      forall i zones, dict_get Z.eq_dec i (forbidden_start_zones t) = Some zones ->
        exists os, list_index catalog i = Some os /\ zones_of fi os zones;
    tallied_conflicting :
      forall i, In i (obstacles_set_conflicting_with_parking_section t) <->
        In i indices /\
        exists os, list_index catalog i = Some os /\ conflicts_with_parking os = true;
    tallied_counts :
      exists sets, sets_at catalog indices sets /\
        obstacles_amount t = count_obstacles (concat sets) /\
        green_amount t = count_color GREEN (concat sets) /\
        red_amount t = count_color RED (concat sets) /\
        Forall defined_color (concat sets) }.

(** The effect on the accumulators of tallying the obstacles [os] of the
    catalog entry at index [idx]. *)
Record Step (fi : list (StartZone * list Intersection)) (idx : Z)
    (os : list Obstacle) (t t' : Tally) : Prop := mkStep
  { step_amount : obstacles_amount t' = obstacles_amount t;
    step_green : green_amount t' = green_amount t + count_color GREEN os;
    step_red : red_amount t' = red_amount t + count_color RED os;
    step_defined : Forall defined_color os;
    step_keys :
      dict_keys (forbidden_start_zones t') = dict_keys (forbidden_start_zones t);
    step_other :
      forall i, i <> idx ->
        dict_get Z.eq_dec i (forbidden_start_zones t')
        = dict_get Z.eq_dec i (forbidden_start_zones t);
    step_zones :
      exists zs zs',
        dict_get Z.eq_dec idx (forbidden_start_zones t) = Some zs /\
        dict_get Z.eq_dec idx (forbidden_start_zones t') = Some zs' /\
        (NoDup zs -> NoDup zs') /\
        forall z, In z zs' <->
                  In z zs \/ (In z (dict_keys fi) /\ forbids fi z os = true);
    step_conflicting :
      forall i, In i (obstacles_set_conflicting_with_parking_section t') <->
        In i (obstacles_set_conflicting_with_parking_section t) \/
        (i = idx /\ conflicts_with_parking os = true) }.

(** A draw of the rejection loop: the mandatory index, an index of the
    required pool and two further catalog indices, pairwise distinct. *)
Definition valid_draw (chosen : list Z) : Prop :=
  exists m r o1 o2,
    chosen = [m; r; o1; o2] /\
    In m [8; 9] /\ In r required_obstacles_sets /\
    0 <= o1 <= 31 /\ 0 <= o2 <= 31 /\
    NoDup chosen.

(** The acceptance test as the source computes it from the accumulators. *)
Definition acceptance_test (t : Tally) (suitable : list Z) : bool :=
  (Z.abs (green_amount t - red_amount t) <=? 1)
  && (obstacles_amount t >? 4)
  && (Z.of_nat (length (forbidden_start_zones t)) >? 0)
  && (Z.of_nat (length suitable) >? 0).

(** What one round of the rejection loop leaves in its locals. *)
Record Round (fi : list (StartZone * list Intersection)) (a : Attempt)
  : Prop := mkRound
  { round_draw : valid_draw (chosen_obstacles_sets_indices a);
    round_tally :
      Tallied obstacles_sets fi (chosen_obstacles_sets_indices a) (tally a);
    round_suitable :
      forall i, In i (obstacles_set_suitable_for_parking_section a) <->
        In i (chosen_obstacles_sets_indices a) /\
        ~ In i (obstacles_set_conflicting_with_parking_section (tally a));
    round_satisfied :
      satisfied a
      = acceptance_test (tally a) (obstacles_set_suitable_for_parking_section a) }.

(** The table of a driving direction. *)
Definition forbidden_intersections (direction : Direction)
  : list (StartZone * list Intersection) :=
  match dict_get Direction_eq_dec direction forbidden_intersections_in_start_zone with
  | Some fi => fi
  | None => []
  end.

(** What the generator has fixed when it builds the scheme. *)
Record Layout (fi : list (StartZone * list Intersection)) (s : Solved)
  : Prop := mkLayout
  { layout_round : Round fi (accepted s);
    layout_satisfied : satisfied (accepted s) = true;
    layout_keys :
      dict_keys (sections_for_obstacles_sets s)
      = chosen_obstacles_sets_indices (accepted s);
    layout_sections :
      Permutation (map snd (sections_for_obstacles_sets s)) sections;
    layout_start_set :
      In (obstacles_set_in_start_section s)
         (dict_keys (forbidden_start_zones (tally (accepted s))));
    layout_start_section :
      dict_get Z.eq_dec (obstacles_set_in_start_section s)
        (sections_for_obstacles_sets s)
      = Some (start_section (scheme s));
    layout_parking_set :
      In (obstacles_set_in_parking_section s)
         (obstacles_set_suitable_for_parking_section (accepted s));
    layout_parking_section :
      dict_get Z.eq_dec (obstacles_set_in_parking_section s)
        (sections_for_obstacles_sets s)
      = Some (parking_section (scheme s));
    layout_start_zone :
      exists zones,
        dict_get Z.eq_dec (obstacles_set_in_start_section s)
          (forbidden_start_zones (tally (accepted s))) = Some zones /\
        In (start_zone (scheme s)) [Z3; Z4] /\
        ~ In (start_zone (scheme s)) zones;
    layout_obstacles : obstacles (scheme s) = sections_for_obstacles_sets s }.

(** The catalog entry at an index, and the obstacles of a draw. *)
Definition catalog_entry (i : Z) : list Obstacle :=
  match list_index obstacles_sets i with
  | Some os => os
  | None => []
  end.

Definition chosen_obstacles (chosen : list Z) : list Obstacle :=
  flat_map catalog_entry chosen.

(** The four rules a draw has to pass. *)
Definition color_balanced (chosen : list Z) : Prop :=
  Z.abs (count_color GREEN (chosen_obstacles chosen)
         - count_color RED (chosen_obstacles chosen)) <= 1.

Definition enough_obstacles (chosen : list Z) : Prop :=
  count_obstacles (chosen_obstacles chosen) > 4.

Definition some_start_zone (direction : Direction) (chosen : list Z) : Prop :=
  exists i, In i chosen /\
    has_usable_start_zone (forbidden_intersections direction) (catalog_entry i)
    = true.

Definition some_parking (chosen : list Z) : Prop :=
  exists i, In i chosen /\ conflicts_with_parking (catalog_entry i) = false.

Definition acceptable (direction : Direction) (chosen : list Z) : Prop :=
  color_balanced chosen /\ enough_obstacles chosen /\
  some_start_zone direction chosen /\ some_parking chosen.

(** The exception an outcome carries, if any. *)
Definition raised {A} (o : outcome A) : option exn :=
  match o with
  | Raise e => Some e
  | _ => None
  end.

(** A series of calls of the obstacle-round generator, one per element of
    [directions]. *)
Fixpoint generation_calls (directions : list Direction) : M unit :=
  match directions with
  | [] => ret tt
  | direction :: rest =>
      _ <- randomize_and_draw_layout_for_obstacle direction ;;
      generation_calls rest
  end.

(** ** Sample inputs *)

(** A random tape on which the obstacle round accepts its first draw:
    colour Green, required set 21, then re-draws 8, 21, 0 for [os1] and
    8, 1 for [os2]. *)
Definition sample_draw_tape : list nat := [0; 0; 8; 21; 0; 8; 1]%nat.

(** The same draw followed by the shuffle of the sections and the three
    final choices. *)
Definition sample_tape : list nat :=
  (sample_draw_tape ++ [1; 2; 3; 4; 5; 6; 7])%nat.

(** A tape whose first round draws the sets 8, 21, 12 and 16 (six green
    obstacles against one red) and is rejected, before the draw above. *)
Definition sample_retry_tape : list nat :=
  ([0; 0; 12; 16] ++ sample_tape)%nat.

(** The module after [obstacles_sets[8][0].set_color(Color.UNDEFINED)]. *)
Definition recolored_world : World :=
  snd (catalog_set_color 8 0 UNDEFINED (mkWorld module_globals [])).

(** ** Footprints on the image *)

(** The rectangle a section painter computes for a canonical rectangle. *)
Definition section_rect (s : Section) (h1 w1 h2 w2 : Z) : Rect :=
  match s with
  | NORTH => translate border (canonical h1 w1 h2 w2)
  | SOUTH => mirror (translate border (canonical h1 w1 h2 w2))
  | WEST => west_rect h1 w1 h2 w2
  | EAST => east_rect h1 w1 h2 w2
  end.

(** The part of the image a straight section occupies. *)
Definition quadrant (s : Section) : Rect :=
  section_rect s 0 left_position inner_border right_position.

(** Both corners lie in the canonical section. *)
Definition in_section (h1 w1 h2 w2 : Z) : Prop :=
  (0 <= h1 <= inner_border /\ 0 <= h2 <= inner_border) /\
  (left_position <= w1 <= right_position /\
   left_position <= w2 <= right_position).

Definition subrect (R Q : Rect) : Prop :=
  row_lo Q <= row_lo R /\ row_hi R <= row_hi Q /\
  col_lo Q <= col_lo R /\ col_hi R <= col_hi Q.

Definition disjoint (R Q : Rect) : Prop :=
  forall i j, inside R i j && inside Q i j = false.

(** The image turned by a quarter: the pixel (a, b) of [rot img] is the
    pixel (image_rows - 1 - b, a) of [img]. *)
Definition rot (img : image) : image :=
  fun a b => img (image_rows - 1 - b) a.

(** The rectangle of a start zone and the square of an obstacle on a
    section. *)
Definition zone_rect (s : Section) (z : StartZone) : Rect :=
  section_rect s
    (fst (Intersection_value (fst (StartZone_value z))))
    (snd (Intersection_value (fst (StartZone_value z))))
    (fst (Intersection_value (snd (StartZone_value z))))
    (snd (Intersection_value (snd (StartZone_value z)))).

Definition obstacle_rect (s : Section) (p : Intersection) : Rect :=
  section_rect s
    (fst (Intersection_value p) - obstacle_size / 2)
    (snd (Intersection_value p) - obstacle_size / 2)
    (fst (Intersection_value p) + obstacle_size / 2)
    (snd (Intersection_value p) + obstacle_size / 2).

Definition first_barrier_rect (s : Section) : Rect :=
  section_rect s 0 left_position parking_barrier_length
    (left_position + parking_barrier_thickness).

Definition second_barrier_rect (s : Section) : Rect :=
  section_rect s 0
    (left_position + parking_barrier_thickness
     + distance_between_parking_barriers)
    parking_barrier_length
    (left_position + parking_barrier_thickness
     + distance_between_parking_barriers + parking_barrier_thickness).

(** The six intersections of the two arcs, where the catalog puts
    obstacles. *)
Definition arc_intersections : list Intersection := [T1; T2; T3; T4; X1; X2].

(** The canonical point (h, w) that a section painter sends to the pixel
    (i, j). *)
Definition canonical_point (s : Section) (i j : Z) : Z * Z :=
  match s with
  | NORTH => (i - border, j - border)
  | SOUTH => (height + border - 1 - i, width + border - 1 - j)
  | WEST => (j - border, height + border - 1 - i)
  | EAST => (width + border - 1 - j, i - border)
  end.

(** A rectangle cut to the image. *)
Definition clip (R : Rect) : Rect :=
  mkRect (Z.min (row_lo R) image_rows) (Z.min (row_hi R) image_rows)
         (Z.min (col_lo R) image_cols) (Z.min (col_hi R) image_cols).

(** The playing field without the outer walls. *)
Definition field_rect : Rect :=
  mkRect border (height + border) border (width + border).

Definition top_row : list Intersection := [TopLeft; TopMiddle; TopRight].

(** The inner walls as a frame: the rectangle up to the outer edge of the
    four wall segments, and the rectangle they enclose. *)
Definition frame_outer (iw : InnerWall) : Rect :=
  mkRect
    ((if _north iw then second_line else inner_border) - border / 2 + border)
    ((if _south iw then height - second_line else height - inner_border)
     + border / 2 + border)
    ((if _west iw then second_line else inner_border) - border / 2 + border)
    ((if _east iw then width - second_line else width - inner_border)
     + border / 2 + border).

Definition frame_inner (iw : InnerWall) : Rect :=
  mkRect
    ((if _north iw then second_line else inner_border) + border / 2 + border)
    ((if _south iw then height - second_line else height - inner_border)
     - border / 2 + border)
    ((if _west iw then second_line else inner_border) + border / 2 + border)
    ((if _east iw then width - second_line else width - inner_border)
     - border / 2 + border).

(** A module whose catalog was cut to its first ten entries. *)
Definition truncated_world : World :=
  mkWorld
    (mkGlobals (firstn 10 obstacles_sets) mandatory_obstacles_sets
       required_obstacles_sets)
    [].

(** The obstacles of a placement with their sections, in drawing order,
    and the image after drawing them one by one. *)
Definition placed (d : list (Z * Section)) : list (Section * Obstacle) :=
  flat_map (fun e => map (pair (snd e)) (catalog_entry (fst e))) d.

Definition paint_all (img : image) (pl : list (Section * Obstacle)) : image :=
  fold_left (fun im so => Obstacle_draw (snd so) im (fst so)) pl img.

(** * Properties *)

(** ** Reasoning about monadic code *)

Lemma wp_elim {A} (m : M A) w Phi o w' :
  wp m w Phi -> m w = (o, w') -> Phi o w'.
Proof. unfold wp. intros H E. rewrite E in H. exact H. Qed.

Lemma wp_mono {A} (m : M A) w (Phi Psi : outcome A -> World -> Prop) :
  wp m w Phi -> (forall o w', Phi o w' -> Psi o w') -> wp m w Psi.
Proof. unfold wp. auto. Qed.

Lemma wp_ret {A} (a : A) w Phi : Phi (Ret a) w -> wp (ret a) w Phi.
Proof. auto. Qed.

Lemma wp_raise {A} e w (Phi : outcome A -> World -> Prop) :
  Phi (Raise e) w -> wp (raise e) w Phi.
Proof. auto. Qed.

Lemma wp_bind {A B} (m : M A) (f : A -> M B) w Phi :
  wp m w (after f Phi) -> wp (bind m f) w Phi.
Proof.
  unfold wp, after, bind. destruct (m w) as [[a | e |] w1]; simpl; auto.
Qed.

Lemma wp_read {A} (f : Globals -> A) w Phi :
  Phi (Ret (f (globals w))) w -> wp (read f) w Phi.
Proof. auto. Qed.

Lemma wp_next_random w Phi :
  (tape w = [] -> Phi Starved w) ->
  (forall n rest, tape w = n :: rest -> Phi (Ret n) (mkWorld (globals w) rest)) ->
  wp next_random w Phi.
Proof.
  unfold wp, next_random. intros H0 H1.
  destruct (tape w) as [| n rest]; simpl; auto.
Qed.

Lemma wp_list_getitem {A} (l : list A) i w Phi :
  (forall x, list_index l i = Some x -> Phi (Ret x) w) ->
  (list_index l i = None -> Phi (Raise IndexError) w) ->
  wp (list_getitem l i) w Phi.
Proof.
  unfold list_getitem. intros H1 H2.
  destruct (list_index l i); [apply wp_ret | apply wp_raise]; auto.
Qed.

Lemma wp_dict_getitem {K V} (dec : forall a b : K, {a = b} + {a <> b})
    k (d : list (K * V)) w Phi :
  (forall v, dict_get dec k d = Some v -> Phi (Ret v) w) ->
  (dict_get dec k d = None -> Phi (Raise KeyError) w) ->
  wp (dict_getitem dec k d) w Phi.
Proof.
  unfold dict_getitem. intros H1 H2.
  destruct (dict_get dec k d); [apply wp_ret | apply wp_raise]; auto.
Qed.

(** A loop over a list, with an invariant indexed by the part of the list
    already visited. *)
Lemma wp_for_each {A S} (I : list A -> S -> World -> Prop)
    (l : list A) (body : S -> A -> M S) (s0 : S) w Phi :
  I [] s0 w ->
  (forall pre x post s w1, l = pre ++ x :: post -> I pre s w1 ->
     wp (body s x) w1 (step_post (I (pre ++ [x])) Phi)) ->
  (forall s w1, I l s w1 -> Phi (Ret s) w1) ->
  wp (for_each l body s0) w Phi.
Proof.
  intros Hinit Hstep Hend.
  assert (G : forall rest pre s w1, l = pre ++ rest -> I pre s w1 ->
                wp (for_each rest body s) w1 Phi).
  { induction rest as [| x rest IH]; intros pre s w1 El Hi; simpl.
    - apply wp_ret, Hend. rewrite El, app_nil_r. exact Hi.
    - apply wp_bind.
      eapply wp_mono; [eapply Hstep; eauto |].
      intros [s' | e |] w2 Hs; simpl in *; auto.
      apply (IH (pre ++ [x])); auto.
      rewrite <- app_assoc. exact El. }
  apply (G l [] s0 w); auto.
Qed.

Lemma wp_while_fuel {S} (I : S -> World -> Prop) (cond : S -> bool)
    (body : S -> M S) Phi :
  (forall s w, I s w -> cond s = true -> wp (body s) w (step_post I Phi)) ->
  (forall s w, I s w -> cond s = false -> Phi (Ret s) w) ->
  (forall s w, I s w -> Phi Starved w) ->
  forall fuel s w, I s w -> wp (while_fuel fuel cond body s) w Phi.
Proof.
  intros Hstep Hend Hstarve.
  induction fuel as [| fuel IH]; intros s w Hi; simpl;
    destruct (cond s) eqn:Ec.
  - unfold wp; simpl. eauto.
  - apply wp_ret; auto.
  - apply wp_bind. eapply wp_mono; [apply Hstep; auto |].
    intros [s' | e |] w1 Hs; simpl in *; auto.
  - apply wp_ret; auto.
Qed.

Lemma wp_while {S} (I : S -> World -> Prop) (cond : S -> bool)
    (body : S -> M S) Phi s w :
  I s w ->
  (forall s w, I s w -> cond s = true -> wp (body s) w (step_post I Phi)) ->
  (forall s w, I s w -> cond s = false -> Phi (Ret s) w) ->
  (forall s w, I s w -> Phi Starved w) ->
  wp (while_ cond body s) w Phi.
Proof.
  intros Hi Hstep Hend Hstarve.
  unfold while_. change (wp (while_fuel (length (tape w)) cond body s) w Phi).
  eapply wp_while_fuel; eauto.
Qed.

(** ** Dictionaries *)

Section DictFacts.
Context {K V : Type} (dec : forall a b : K, {a = b} + {a <> b}).
Implicit Types (d : list (K * V)) (k : K) (v : V).

Lemma dict_get_set_same k v d : dict_get dec k (dict_set dec k v d) = Some v.
Proof.
  unfold dict_keys. induction d as [| [k' v'] d IH]; simpl.
  - destruct (dec k k); congruence.
  - destruct (dec k k') as [E | N]; simpl.
    + destruct (dec k k); congruence.
    + destruct (dec k k'); congruence.
Qed.

Lemma dict_get_set_other k k' v d :
  k' <> k -> dict_get dec k' (dict_set dec k v d) = dict_get dec k' d.
Proof.
  unfold dict_keys. intros N. induction d as [| [k0 v0] d IH]; simpl.
  - destruct (dec k' k); congruence.
  - destruct (dec k k0) as [E | N0]; simpl.
    + subst k0. destruct (dec k' k); congruence.
    + destruct (dec k' k0); auto.
Qed.

Lemma dict_get_in_keys k v d : dict_get dec k d = Some v -> In k (dict_keys d).
Proof.
  unfold dict_keys. induction d as [| [k' v'] d IH]; simpl; [discriminate |].
  destruct (dec k k'); auto.
Qed.

Lemma dict_get_in k v d : dict_get dec k d = Some v -> In (k, v) d.
Proof.
  unfold dict_keys. induction d as [| [k' v'] d IH]; simpl; [discriminate |].
  destruct (dec k k'); intros H; [left; congruence | auto].
Qed.

Lemma dict_keys_get k d : In k (dict_keys d) -> exists v, dict_get dec k d = Some v.
Proof.
  unfold dict_keys. induction d as [| [k' v'] d IH]; simpl; [tauto |].
  intros H. destruct (dec k k'); [eauto |].
  destruct H; [congruence | auto].
Qed.

Lemma dict_get_none k d : ~ In k (dict_keys d) -> dict_get dec k d = None.
Proof.
  intros N. destruct (dict_get dec k d) eqn:E; auto.
  apply dict_get_in_keys in E. tauto.
Qed.

Lemma dict_keys_set_old k v d :
  In k (dict_keys d) -> dict_keys (dict_set dec k v d) = dict_keys d.
Proof.
  unfold dict_keys. induction d as [| [k' v'] d IH]; simpl; [tauto |].
  intros H. destruct (dec k k'); simpl; [congruence |].
  f_equal. apply IH. destruct H; congruence.
Qed.

Lemma dict_keys_set_new k v d :
  ~ In k (dict_keys d) -> dict_keys (dict_set dec k v d) = dict_keys d ++ [k].
Proof.
  unfold dict_keys. induction d as [| [k' v'] d IH]; simpl; auto.
  intros H. destruct (dec k k'); simpl; [subst; tauto |].
  f_equal. apply IH. tauto.
Qed.
End DictFacts.

(** ** Counting *)

Lemma count_color_app c a b :
  count_color c (a ++ b) = count_color c a + count_color c b.
Proof.
  unfold count_color. rewrite filter_app, length_app. lia.
Qed.

Lemma count_obstacles_app a b :
  count_obstacles (a ++ b) = count_obstacles a + count_obstacles b.
Proof. unfold count_obstacles. rewrite length_app. lia. Qed.

Lemma forbids_app fi z a b :
  forbids fi z (a ++ b) = forbids fi z a || forbids fi z b.
Proof. apply existsb_app. Qed.

Lemma conflicts_with_parking_app a b :
  conflicts_with_parking (a ++ b)
  = conflicts_with_parking a || conflicts_with_parking b.
Proof. apply existsb_app. Qed.

Lemma Intersection_in_true p l : Intersection_in p l = true <-> In p l.
Proof.
  unfold Intersection_in. destruct (in_dec Intersection_eq_dec p l);
    split; auto; discriminate.
Qed.

Lemma is_green_true o : is_green o = true <-> color o = GREEN.
Proof.
  unfold is_green. destruct (Color_eq_dec (color o) GREEN);
    split; auto; discriminate.
Qed.

Lemma is_red_true o : is_red o = true <-> color o = RED.
Proof.
  unfold is_red. destruct (Color_eq_dec (color o) RED);
    split; auto; discriminate.
Qed.

(** An obstacle is counted in exactly one tally. *)
Lemma count_color_one o :
  defined_color o ->
  count_color GREEN [o] + count_color RED [o] = 1 /\
  (count_color GREEN [o] = 1 <-> color o = GREEN) /\
  (count_color RED [o] = 1 <-> color o = RED).
Proof.
  destruct o as [p c]. unfold defined_color; simpl color.
  destruct c; intros [H | H]; try discriminate H; cbv;
    (split; [reflexivity | split; split; intros E; congruence]).
Qed.

Lemma count_color_total os :
  Forall defined_color os ->
  count_color GREEN os + count_color RED os = count_obstacles os.
Proof.
  induction 1 as [| o os Ho _ IH].
  - reflexivity.
  - change (o :: os) with ([o] ++ os).
    rewrite !count_color_app, count_obstacles_app.
    destruct (count_color_one o Ho) as [E _].
    change (count_obstacles [o]) with 1. lia.
Qed.

(** ** The tally loop *)

Lemma Step_nil fi idx t zs :
  dict_get Z.eq_dec idx (forbidden_start_zones t) = Some zs ->
  Step fi idx [] t t.
Proof.
  intros G. constructor; auto.
  - unfold count_color; simpl. lia.
  - unfold count_color; simpl. lia.
  - exists zs, zs. repeat split; auto.
    intros [H | [_ H]]; [exact H | discriminate H].
  - intros i. split; auto. intros [H | [_ H]]; [exact H | discriminate H].
Qed.

Lemma Step_app fi idx a b t0 t1 t2 :
  Step fi idx a t0 t1 -> Step fi idx b t1 t2 -> Step fi idx (a ++ b) t0 t2.
Proof.
  intros [A1 G1 R1 D1 K1 O1 (zs & zs1 & Z1a & Z1b & Z1n & Z1) C1]
         [A2 G2 R2 D2 K2 O2 (zs1' & zs2 & Z2a & Z2b & Z2n & Z2) C2].
  assert (zs1' = zs1) by congruence. subst zs1'.
  constructor.
  - congruence.
  - rewrite count_color_app. lia.
  - rewrite count_color_app. lia.
  - apply Forall_app; auto.
  - congruence.
  - intros i N. rewrite O2, O1; auto.
  - exists zs, zs2. repeat split; auto.
    + rewrite Z2, Z1, forbids_app, orb_true_iff. tauto.
    + rewrite Z2, Z1, forbids_app, orb_true_iff. tauto.
  - intros i. rewrite C2, C1, conflicts_with_parking_app, orb_true_iff. tauto.
Qed.

Lemma wp_tally_color t o w Phi :
  (~ defined_color o -> Phi (Raise ValueError) w) ->
  (color o = GREEN -> Phi (Ret (with_green t (green_amount t + 1))) w) ->
  (color o = RED -> Phi (Ret (with_red t (red_amount t + 1))) w) ->
  wp (tally_color t o) w Phi.
Proof.
  intros Hu Hg Hr. unfold tally_color.
  destruct (is_green o) eqn:G.
  - apply wp_ret, Hg, is_green_true, G.
  - destruct (is_red o) eqn:R.
    + apply wp_ret, Hr, is_red_true, R.
    + apply wp_raise, Hu. intros [E | E].
      * apply is_green_true in E. congruence.
      * apply is_red_true in E. congruence.
Qed.

(** The loop over the zones of the table, for one obstacle at [p]. *)
Lemma wp_zone_loop fi idx p t w Phi zs0 :
  dict_get Z.eq_dec idx (forbidden_start_zones t) = Some zs0 ->
  (forall d zs',
     dict_keys d = dict_keys (forbidden_start_zones t) ->
     (forall i, i <> idx ->
        dict_get Z.eq_dec i d = dict_get Z.eq_dec i (forbidden_start_zones t)) ->
     dict_get Z.eq_dec idx d = Some zs' ->
     (NoDup zs0 -> NoDup zs') ->
     (forall z, In z zs' <->
                In z zs0 \/ (In z (dict_keys fi) /\ ahead_of fi z p = true)) ->
     Phi (Ret (with_zones t d)) w) ->
  wp (for_each (dict_keys fi)
        (fun t zone =>
           ahead <- dict_getitem StartZone_eq_dec zone fi ;;
           if Intersection_in p ahead then
             zones <- dict_getitem Z.eq_dec idx (forbidden_start_zones t) ;;
             ret (with_zones t
                    (dict_set Z.eq_dec idx
                       (set_add StartZone_eq_dec zone zones)
                       (forbidden_start_zones t)))
           else ret t)
        t) w Phi.
Proof.
  intros G0 Hend.
  apply wp_for_each with
    (I := fun ks t1 w1 =>
            w1 = w /\
            t1 = with_zones t (forbidden_start_zones t1) /\
            dict_keys (forbidden_start_zones t1)
            = dict_keys (forbidden_start_zones t) /\
            (forall i, i <> idx ->
               dict_get Z.eq_dec i (forbidden_start_zones t1)
               = dict_get Z.eq_dec i (forbidden_start_zones t)) /\
            exists zs',
              dict_get Z.eq_dec idx (forbidden_start_zones t1) = Some zs' /\
              (NoDup zs0 -> NoDup zs') /\
              forall z, In z zs' <->
                        In z zs0 \/ (In z ks /\ ahead_of fi z p = true)).
  - repeat split; auto.
    + destruct t; reflexivity.
    + exists zs0. repeat split; auto. simpl; tauto.
  - intros pre x post t1 w1 El (-> & Et & Ek & Eo & zs' & Gz & Nz & Hz).
    apply wp_bind, wp_dict_getitem.
    + intros ahead Ga. unfold after.
      assert (Ea : ahead_of fi x p = Intersection_in p ahead)
        by (unfold ahead_of; rewrite Ga; reflexivity).
      destruct (Intersection_in p ahead) eqn:Ein.
      * apply wp_bind, wp_dict_getitem; [| congruence].
        intros zones Gz'. assert (zones = zs') by congruence. subst zones.
        apply wp_ret. unfold step_post. simpl.
        repeat split; auto.
        -- rewrite Et at 1. destruct t; reflexivity.
        -- rewrite dict_keys_set_old; auto.
           eapply dict_get_in_keys; eauto.
        -- intros i N. rewrite dict_get_set_other; auto.
        -- exists (set_add StartZone_eq_dec x zs').
           rewrite dict_get_set_same. repeat split; auto.
           ++ intros H. apply set_add_nodup; auto.
           ++ intros H. apply set_add_iff in H. rewrite Hz in H.
              rewrite in_app_iff; simpl.
              destruct H as [-> | [H | [H1 H2]]]; auto.
           ++ intros H. apply set_add_iff. rewrite Hz.
              rewrite in_app_iff in H; simpl in H.
              destruct H as [H | [[H | [-> | []]] H2]]; auto.
      * apply wp_ret. unfold step_post.
        repeat split; auto.
        exists zs'. repeat split; auto.
        -- intros H. apply Hz in H. rewrite in_app_iff.
           destruct H as [H | [H1 H2]]; auto.
        -- intros H. apply Hz. rewrite in_app_iff in H; simpl in H.
           destruct H as [H | [[H | [-> | []]] H2]]; auto. congruence.
    + intros Gn. exfalso.
      assert (Hin : In x (dict_keys fi)) by (rewrite El; apply in_elt).
      apply (dict_keys_get StartZone_eq_dec) in Hin. destruct Hin. congruence.
  - intros t1 w1 (-> & Et & Ek & Eo & zs' & Gz & Nz & Hz).
    rewrite Et. apply (Hend _ zs'); auto.
Qed.

(** The loop over the intersections that must stay free in the parking
    section, for one obstacle at [p]. *)
Lemma wp_parking_loop idx p t w Phi :
  (forall s,
     (forall i, In i s <->
        In i (obstacles_set_conflicting_with_parking_section t) \/
        (i = idx /\ In p forbidden_intersections_in_parking_section)) ->
     Phi (Ret (with_conflicting t s)) w) ->
  wp (for_each forbidden_intersections_in_parking_section
        (fun t intersection =>
           if Intersection_eq_dec p intersection then
             ret (with_conflicting t
                    (set_add Z.eq_dec idx
                       (obstacles_set_conflicting_with_parking_section t)))
           else ret t)
        t) w Phi.
Proof.
  intros Hend.
  apply wp_for_each with
    (I := fun ks t1 w1 =>
            w1 = w /\
            t1 = with_conflicting t
                   (obstacles_set_conflicting_with_parking_section t1) /\
            forall i, In i (obstacles_set_conflicting_with_parking_section t1) <->
              In i (obstacles_set_conflicting_with_parking_section t) \/
              (i = idx /\ In p ks)).
  - repeat split; auto.
    + destruct t; reflexivity.
    + simpl. tauto.
  - intros pre x post t1 w1 _ (-> & Et & Hc).
    destruct (Intersection_eq_dec p x) as [E | N]; apply wp_ret;
      unfold step_post; simpl; repeat split; auto.
    + rewrite Et at 1. destruct t; reflexivity.
    + intros H. apply set_add_iff in H. rewrite Hc in H.
      rewrite in_app_iff; simpl. subst x. tauto.
    + intros H. apply set_add_iff. rewrite Hc.
      rewrite in_app_iff in H; simpl in H. tauto.
    + intros H. apply Hc in H. rewrite in_app_iff. tauto.
    + intros H. apply Hc. rewrite in_app_iff in H; simpl in H.
      destruct H as [H | [H1 [H2 | [H2 | []]]]]; auto. congruence.
  - intros t1 w1 (-> & Et & Hc). rewrite Et. apply Hend, Hc.
Qed.

(** The body of the loop over the obstacles of one catalog entry. *)
Lemma wp_tally_obstacle fi idx t o w Phi zs0 :
  dict_get Z.eq_dec idx (forbidden_start_zones t) = Some zs0 ->
  (~ defined_color o -> Phi (Raise ValueError) w) ->
  (forall t', defined_color o -> Step fi idx [o] t t' -> Phi (Ret t') w) ->
  wp (tally_obstacle fi idx t o) w Phi.
Proof.
  intros G0 Hu Hok. unfold tally_obstacle.
  assert (Hgo :
    forall t1, defined_color o ->
      obstacles_amount t1 = obstacles_amount t ->
      green_amount t1 = green_amount t + count_color GREEN [o] ->
      red_amount t1 = red_amount t + count_color RED [o] ->
      forbidden_start_zones t1 = forbidden_start_zones t ->
      obstacles_set_conflicting_with_parking_section t1
      = obstacles_set_conflicting_with_parking_section t ->
      after
        (fun t2 =>
           t3 <- for_each (dict_keys fi)
                   (fun t zone =>
                      ahead <- dict_getitem StartZone_eq_dec zone fi ;;
                      if Intersection_in (position o) ahead then
                        zones <- dict_getitem Z.eq_dec idx
                                   (forbidden_start_zones t) ;;
                        ret (with_zones t
                               (dict_set Z.eq_dec idx
                                  (set_add StartZone_eq_dec zone zones)
                                  (forbidden_start_zones t)))
                      else ret t)
                   t2 ;;
           for_each forbidden_intersections_in_parking_section
             (fun t intersection =>
                if Intersection_eq_dec (position o) intersection then
                  ret (with_conflicting t
                         (set_add Z.eq_dec idx
                            (obstacles_set_conflicting_with_parking_section t)))
                else ret t)
             t3)
        Phi (Ret t1) w).
  { intros t1 Hd Ea Eg Er Ez Ec. unfold after.
    apply wp_bind.
    apply wp_zone_loop with (zs0 := zs0); [congruence |].
    intros d zs' Kd Od Gd Nd Hd'. unfold after.
    apply wp_parking_loop. intros s Hs.
    apply Hok; auto.
    constructor; simpl; auto.
    - congruence.
    - intros i N. rewrite Od; auto. congruence.
    - exists zs0, zs'. repeat split; auto.
      + intros H. apply Hd' in H. unfold forbids; simpl.
        rewrite orb_false_r. exact H.
      + intros H. apply Hd'. unfold forbids in H; simpl in H.
        rewrite orb_false_r in H. exact H.
    - intros i. rewrite Hs. simpl. rewrite Ec.
      unfold conflicts_with_parking; simpl existsb.
      rewrite orb_false_r, Intersection_in_true. simpl. tauto. }
  apply wp_bind, wp_tally_color.
  - exact Hu.
  - intros E. assert (D : defined_color o) by (left; exact E).
    destruct (count_color_one o D) as (E1 & E2 & E3).
    apply Hgo; auto; destruct t; simpl.
    + apply E2 in E. lia.
    + assert (count_color GREEN [o] = 1) by (apply E2; exact E). lia.
  - intros E. assert (D : defined_color o) by (right; exact E).
    destruct (count_color_one o D) as (E1 & E2 & E3).
    apply Hgo; auto; destruct t; simpl.
    + assert (count_color RED [o] = 1) by (apply E3; exact E). lia.
    + apply E3 in E. lia.
Qed.

Lemma Tallied_empty catalog fi : Tallied catalog fi [] empty_tally.
Proof.
  constructor; simpl.
  - reflexivity.
  - discriminate.
  - tauto.
  - exists []. repeat split; constructor.
Qed.

(** The body of the loop over the chosen indices. *)
Lemma wp_tally_set fi pre t idx w Phi :
  Tallied (g_obstacles_sets (globals w)) fi pre t ->
  ~ In idx pre ->
  (list_index (g_obstacles_sets (globals w)) idx = None ->
   Phi (Raise IndexError) w) ->
  (forall os o, list_index (g_obstacles_sets (globals w)) idx = Some os ->
     In o os -> ~ defined_color o -> Phi (Raise ValueError) w) ->
  (forall t', Tallied (g_obstacles_sets (globals w)) fi (pre ++ [idx]) t' ->
     Phi (Ret t') w) ->
  wp (tally_set fi t idx) w Phi.
Proof.
  intros [Tk Tz Tc (sets & Ts & Ta & Tg & Tr & Td)] Nin Hidx Hval Hok.
  unfold tally_set. apply wp_bind, wp_read. unfold after.
  apply wp_bind, wp_list_getitem; [| exact Hidx].
  intros os Gos. unfold after.
  set (t0 := with_zones
               (with_amount t (obstacles_amount t + Z.of_nat (length os)))
               (dict_set Z.eq_dec idx []
                  (forbidden_start_zones
                     (with_amount t (obstacles_amount t + Z.of_nat (length os)))))).
  assert (G0 : dict_get Z.eq_dec idx (forbidden_start_zones t0) = Some [])
    by (unfold t0; simpl; apply dict_get_set_same).
  apply wp_for_each with (I := fun po t1 w1 => w1 = w /\ Step fi idx po t0 t1).
  - split; [reflexivity | eapply Step_nil; eauto].
  - intros po x post t1 w1 El [-> St].
    destruct (step_zones _ _ _ _ _ St) as (zs & zs1 & _ & Gz1 & _).
    apply wp_tally_obstacle with (zs0 := zs1); auto.
    + intros Hu. apply (Hval os x); auto. rewrite El. apply in_elt.
    + intros t' _ St'. split; [reflexivity |]. eapply Step_app; eauto.
  - intros t1 w1 [-> [A G R D K O (zs & zs1 & Z0 & Z1 & Zn & Zs) C]].
    assert (zs = []) by congruence. subst zs.
    apply Hok. constructor.
    + rewrite K. unfold t0; simpl.
      rewrite dict_keys_set_new; [congruence | rewrite Tk; exact Nin].
    + intros i zones Gi. destruct (Z.eq_dec i idx) as [-> | N].
      * exists os. split; [exact Gos |].
        assert (zones = zs1) by congruence. subst zones.
        split; [apply Zn; constructor |].
        intros z. rewrite Zs. simpl. tauto.
      * rewrite O in Gi by exact N. unfold t0 in Gi; simpl in Gi.
        rewrite dict_get_set_other in Gi by exact N. eauto.
    + intros i. rewrite C. unfold t0; simpl. rewrite Tc, in_app_iff. simpl.
      split.
      * intros [[H1 H2] | [-> H]]; [tauto | eauto 6].
      * intros [[H | [<- | []]] (os' & Gi & Hc)]; eauto.
        right. split; [reflexivity | congruence].
    + exists (sets ++ [os]). rewrite concat_app; simpl; rewrite app_nil_r.
      repeat split.
      * apply Forall2_app; auto.
      * rewrite A, count_obstacles_app. unfold t0; simpl. rewrite Ta.
        reflexivity.
      * rewrite G, count_color_app. unfold t0; simpl. rewrite Tg. reflexivity.
      * rewrite R, count_color_app. unfold t0; simpl. rewrite Tr. reflexivity.
      * apply Forall_app; auto.
Qed.

(** The tally loop on pairwise distinct indices. *)
Lemma wp_tally fi chosen w Phi :
  NoDup chosen ->
  ((exists i, In i chosen /\
      list_index (g_obstacles_sets (globals w)) i = None) ->
   Phi (Raise IndexError) w) ->
  ((exists i os o, In i chosen /\
      list_index (g_obstacles_sets (globals w)) i = Some os /\
      In o os /\ ~ defined_color o) ->
   Phi (Raise ValueError) w) ->
  (forall t, Tallied (g_obstacles_sets (globals w)) fi chosen t ->
     Phi (Ret t) w) ->
  wp (for_each chosen (tally_set fi) empty_tally) w Phi.
Proof.
  intros Nd Hidx Hval Hok.
  apply wp_for_each with
    (I := fun pre t w1 =>
            w1 = w /\ Tallied (g_obstacles_sets (globals w)) fi pre t).
  - split; [reflexivity | apply Tallied_empty].
  - intros pre x post t w1 El [-> Ht].
    assert (Hin : In x chosen) by (rewrite El; apply in_elt).
    apply wp_tally_set with (pre := pre); auto.
    + rewrite El in Nd. apply NoDup_remove_2 in Nd.
      rewrite in_app_iff in Nd. tauto.
    + intros Gn. apply Hidx. eauto.
    + intros os o Gos Ho Hu. apply Hval. exists x, os, o. auto.
    + intros t' Ht'. split; auto.
  - intros t w1 [-> Ht]. auto.
Qed.

(** The pruning loop returns its dict untouched or raises. *)
Lemma wp_drop_blocked_sets d w Phi :
  ((exists k zs, dict_get Z.eq_dec k d = Some zs /\ length zs = 2%nat) ->
   Phi (Raise RuntimeError) w) ->
  ((forall k zs, dict_get Z.eq_dec k d = Some zs -> length zs <> 2%nat) ->
   Phi (Ret d) w) ->
  wp (drop_blocked_sets d) w Phi.
Proof.
  intros Hraise Hok. unfold drop_blocked_sets.
  apply wp_for_each with
    (I := fun pre d1 w1 =>
            w1 = w /\ d1 = d /\
            forall k zs, In k pre -> dict_get Z.eq_dec k d = Some zs ->
                         length zs <> 2%nat).
  - repeat split; auto.
  - intros pre x post d1 w1 El (-> & -> & Hpre).
    apply wp_bind, wp_dict_getitem.
    + intros zs Gz. unfold after.
      destruct (length zs =? 2)%nat eqn:E.
      * apply Nat.eqb_eq in E. apply wp_raise. unfold step_post. eauto.
      * apply Nat.eqb_neq in E. apply wp_ret. unfold step_post.
        repeat split; auto.
        intros k zs' Hin Gk. apply in_app_iff in Hin.
        destruct Hin as [Hin | [<- | []]]; eauto. congruence.
    + intros Gn. exfalso.
      assert (Hin : In x (dict_keys d)) by (rewrite El; apply in_elt).
      apply (dict_keys_get Z.eq_dec) in Hin. destruct Hin. congruence.
  - intros d1 w1 (-> & -> & Hall). apply Hok.
    intros k zs Gk. apply (Hall k zs); auto.
    eapply dict_get_in_keys; eauto.
Qed.

(** ** The random source *)

Lemma wp_randint a b w Phi :
  a <= b ->
  Phi Starved w ->
  (forall x w', a <= x <= b -> globals w' = globals w -> Phi (Ret x) w') ->
  wp (randint a b) w Phi.
Proof.
  intros Hab Hs Hok. unfold randint.
  destruct (b <? a) eqn:E; [apply Z.ltb_lt in E; lia |].
  apply wp_bind, wp_next_random; unfold after.
  - intros _. exact Hs.
  - intros n rest _. apply wp_ret, Hok; [| reflexivity].
    pose proof (Z.mod_pos_bound (Z.of_nat n) (b - a + 1)). lia.
Qed.

Lemma wp_choice {A} (seq : list A) w Phi :
  (seq = [] -> Phi (Raise IndexError) w) ->
  Phi Starved w ->
  (forall x w', In x seq -> globals w' = globals w -> Phi (Ret x) w') ->
  wp (choice seq) w Phi.
Proof.
  intros He Hs Hok. unfold choice.
  destruct seq as [| y seq]; [apply wp_raise; auto |].
  apply wp_bind, wp_next_random; unfold after.
  - intros _. exact Hs.
  - intros n rest _.
    destruct (nth_error (y :: seq) (n mod length (y :: seq))) as [x |] eqn:E.
    + apply wp_ret, Hok; [| reflexivity]. eapply nth_error_In; eauto.
    + exfalso. apply nth_error_None in E.
      assert (n mod length (y :: seq) < length (y :: seq))%nat
        by (apply Nat.mod_upper_bound; discriminate).
      lia.
Qed.

Lemma firstn_last_split {A} (l : list A) b y :
  nth_error (b :: l) (length l) = Some y ->
  b :: l = firstn (length l) (b :: l) ++ [y].
Proof.
  revert b. induction l as [| c l IH]; intros b H.
  - simpl in *. congruence.
  - change (b :: c :: l = b :: (firstn (length l) (c :: l) ++ [y])).
    f_equal. apply IH. exact H.
Qed.

Lemma pool_take_cons_perm {A} (rest : list A) a j x y :
  nth_error (a :: rest) j = Some x ->
  nth_error (a :: rest) (length rest) = Some y ->
  Permutation (x :: firstn (length rest) (list_assign j y (a :: rest)))
              (a :: rest).
Proof.
  revert a j. induction rest as [| b rest IH]; intros a j Hx Hy.
  - destruct j as [| j]; [| destruct j; discriminate Hx].
    simpl in *. injection Hx as ->. apply Permutation_refl.
  - destruct j as [| j].
    + simpl in Hx. injection Hx as ->.
      change (Permutation
                (x :: y :: firstn (length rest) (b :: rest)) (x :: b :: rest)).
      constructor.
      rewrite (firstn_last_split rest b y Hy) at 2.
      apply Permutation_cons_append.
    + change (Permutation
                (x :: a :: firstn (length rest) (list_assign j y (b :: rest)))
                (a :: b :: rest)).
      rewrite perm_swap. constructor. apply IH; assumption.
Qed.

Lemma pool_take_perm {A} (pool : list A) j x pool' :
  pool_take j pool = Some (x, pool') -> Permutation (x :: pool') pool.
Proof.
  unfold pool_take. destruct pool as [| a rest].
  - destruct j; discriminate.
  - replace (length (a :: rest) - 1)%nat with (length rest)
      by (simpl; lia).
    destruct (nth_error (a :: rest) j) as [x' |] eqn:Ex; [| discriminate].
    destruct (nth_error (a :: rest) (length rest)) as [y |] eqn:Ey;
      [| discriminate].
    intros H. injection H as -> <-.
    apply pool_take_cons_perm; assumption.
Qed.

Lemma pool_take_some {A} (pool : list A) j :
  (j < length pool)%nat -> exists x pool', pool_take j pool = Some (x, pool').
Proof.
  intros H. unfold pool_take.
  destruct (nth_error pool j) as [x |] eqn:Ex.
  - destruct (nth_error pool (length pool - 1)) as [y |] eqn:Ey; eauto.
    apply nth_error_None in Ey. lia.
  - apply nth_error_None in Ex. lia.
Qed.

Lemma wp_sample_pool {A} (k : nat) : forall (pool : list A) w Phi,
  (k <= length pool)%nat ->
  (forall w', globals w' = globals w -> Phi Starved w') ->
  (forall l w', length l = k -> (exists rest, Permutation (l ++ rest) pool) ->
     globals w' = globals w -> Phi (Ret l) w') ->
  wp (sample_pool pool k) w Phi.
Proof.
  induction k as [| k IH]; intros pool w Phi Hk Hs Hok; simpl.
  - apply wp_ret, Hok; auto. exists pool. apply Permutation_refl.
  - destruct pool as [| a pool]; [simpl in Hk; lia |].
    apply wp_bind, wp_next_random; unfold after.
    + intros _. apply Hs. reflexivity.
    + intros n rest _.
      destruct (pool_take_some (a :: pool) (n mod length (a :: pool)))
        as (x & pool' & E).
      { apply Nat.mod_upper_bound. discriminate. }
      rewrite E. pose proof (pool_take_perm _ _ _ _ E) as P.
      assert (L : length pool' = length pool).
      { apply Permutation_length in P. simpl in P. lia. }
      apply wp_bind, IH.
      * simpl in Hk. lia.
      * intros w' Hw. unfold after. apply Hs. exact Hw.
      * intros l w' Hl [rest' Hp] Hw. unfold after.
        apply wp_ret, Hok; [simpl; lia | | exact Hw].
        exists rest'. simpl.
        eapply Permutation_trans; [| exact P]. constructor. exact Hp.
Qed.

Lemma wp_sample {A} (population : list A) k w Phi :
  0 <= k <= Z.of_nat (length population) ->
  (forall w', globals w' = globals w -> Phi Starved w') ->
  (forall l w', Z.of_nat (length l) = k ->
     (exists rest, Permutation (l ++ rest) population) ->
     globals w' = globals w -> Phi (Ret l) w') ->
  wp (sample population k) w Phi.
Proof.
  intros Hk Hs Hok. unfold sample.
  destruct ((k <? 0) || (Z.of_nat (length population) <? k)) eqn:E.
  - apply orb_true_iff in E. destruct E as [E | E];
      [apply Z.ltb_lt in E | apply Z.ltb_lt in E]; lia.
  - apply wp_sample_pool; auto; [lia |].
    intros l w' Hl Hp Hw. apply Hok; auto. lia.
Qed.

(** ** Facts about the catalog *)

Lemma list_index_In {A} (l : list A) i x : list_index l i = Some x -> In x l.
Proof.
  unfold list_index.
  destruct ((_ <? 0) || (_ <=? _)); [discriminate |].
  apply nth_error_In.
Qed.

Lemma list_index_some {A} (l : list A) i :
  0 <= i < Z.of_nat (length l) -> exists x, list_index l i = Some x.
Proof.
  intros H. unfold list_index.
  destruct (i <? 0) eqn:E; [apply Z.ltb_lt in E; lia |].
  destruct ((i <? 0) || (Z.of_nat (length l) <=? i)) eqn:E2.
  - apply orb_true_iff in E2.
    destruct E2 as [E2 | E2]; [apply Z.ltb_lt in E2 | apply Z.leb_le in E2]; lia.
  - destruct (nth_error l (Z.to_nat i)) eqn:E3; eauto.
    apply nth_error_None in E3. lia.
Qed.

Lemma catalog_index i :
  0 <= i <= 31 -> exists os, list_index obstacles_sets i = Some os.
Proof.
  intros H. apply list_index_some.
  change (Z.of_nat (length obstacles_sets)) with 32. lia.
Qed.

Lemma catalog_colors_defined :
  forall os o, In os obstacles_sets -> In o os -> defined_color o.
Proof.
  assert (H : Forall (Forall defined_color) obstacles_sets).
  { unfold obstacles_sets, defined_color.
    repeat (constructor; [repeat (constructor; simpl; auto) |]).
    constructor. }
  intros os o Hos Ho.
  rewrite Forall_forall in H. specialize (H os Hos).
  rewrite Forall_forall in H. auto.
Qed.

Lemma forbidden_intersections_keys direction :
  dict_keys (forbidden_intersections direction) = [Z3; Z4].
Proof. destruct direction; reflexivity. Qed.

(** No catalog entry forbids both start zones of a direction. *)
Lemma catalog_never_blocks direction os :
  In os obstacles_sets ->
  forbids (forbidden_intersections direction) Z3 os
  && forbids (forbidden_intersections direction) Z4 os = false.
Proof.
  assert (H : forallb
                (fun os =>
                   negb (forbids (forbidden_intersections direction) Z3 os
                         && forbids (forbidden_intersections direction) Z4 os))
                obstacles_sets = true)
    by (destruct direction; vm_compute; reflexivity).
  rewrite forallb_forall in H. intros Hos.
  apply H in Hos. apply negb_true_iff in Hos. exact Hos.
Qed.

Lemma zones_of_two fi os zs :
  dict_keys fi = [Z3; Z4] -> zones_of fi os zs -> length zs = 2%nat ->
  forbids fi Z3 os = true /\ forbids fi Z4 os = true.
Proof.
  intros K [Nd Hz] L. rewrite K in Hz.
  destruct zs as [| a [| b [| c zs]]]; try discriminate L.
  assert (Ha : In a [Z3; Z4] /\ forbids fi a os = true)
    by (apply Hz; simpl; auto).
  assert (Hb : In b [Z3; Z4] /\ forbids fi b os = true)
    by (apply Hz; simpl; auto).
  assert (a <> b).
  { inversion Nd as [| ? ? Hn _]; subst. intros E. apply Hn. left.
    symmetry. exact E. }
  destruct Ha as [[<- | [<- | []]] Fa], Hb as [[<- | [<- | []]] Fb];
    auto; congruence.
Qed.

Lemma zones_of_catalog_length direction os zs :
  In os obstacles_sets ->
  zones_of (forbidden_intersections direction) os zs -> length zs <> 2%nat.
Proof.
  intros Hos Hz L.
  destruct (zones_of_two _ _ _ (forbidden_intersections_keys direction) Hz L)
    as [F3 F4].
  pose proof (catalog_never_blocks direction os Hos) as H.
  rewrite F3, F4 in H. discriminate H.
Qed.

Lemma py_set_In {A} (dec : forall a b : A, {a = b} + {a <> b}) l x :
  In x (py_set dec l) <-> In x l.
Proof.
  unfold py_set.
  assert (G : forall l s, In x (fold_left (fun s y => set_add dec y s) l s)
                          <-> In x s \/ In x l).
  { clear l. induction l as [| y l IH]; intros s; simpl.
    - tauto.
    - rewrite IH, set_add_iff. intuition congruence. }
  rewrite G. simpl. tauto.
Qed.

Lemma with_zones_same t : with_zones t (forbidden_start_zones t) = t.
Proof. destruct t; reflexivity. Qed.

(** ** One round of the rejection loop *)

(** The re-draw loops of [os1] and [os2]: on exit the index is a catalog
    index for which the loop condition is false. *)
Lemma wp_redraw (cond : Z -> bool) start w Phi :
  globals w = module_globals ->
  0 <= start <= 31 ->
  (forall w', globals w' = module_globals -> Phi Starved w') ->
  (forall os w', 0 <= os <= 31 -> cond os = false ->
     globals w' = module_globals -> Phi (Ret os) w') ->
  wp (while_ cond
        (fun _ =>
           catalog <- read g_obstacles_sets ;;
           randint 0 (Z.of_nat (length catalog) - 1))
        start) w Phi.
Proof.
  intros Hw H0 Hs Hok.
  apply wp_while with
    (I := fun os w' => 0 <= os <= 31 /\ globals w' = module_globals).
  - auto.
  - intros os w1 [_ Hw1] _. apply wp_bind, wp_read. unfold after.
    rewrite Hw1.
    change (Z.of_nat (length (g_obstacles_sets module_globals)) - 1) with 31.
    apply wp_randint; [lia | unfold step_post; auto |].
    intros x w' Hx Hw'. unfold step_post. split; [lia | congruence].
  - intros os w1 [Hos Hw1] Hc. auto.
  - intros os w1 [_ Hw1]. auto.
Qed.

Lemma wp_attempt direction w Phi :
  globals w = module_globals ->
  (forall w', globals w' = module_globals -> Phi Starved w') ->
  (forall a w', Round (forbidden_intersections direction) a ->
     globals w' = module_globals -> Phi (Ret a) w') ->
  wp (attempt (forbidden_intersections direction)) w Phi.
Proof.
  intros Hw Hs Hok. unfold attempt.
  apply wp_bind, wp_choice; unfold after; [discriminate | auto |].
  intros mandatory_set_color w1 Hcolor Hw1. rewrite Hw in Hw1.
  apply wp_bind, wp_read. unfold after. rewrite Hw1.
  assert (Hm : exists m, In m [8; 9] /\
                 dict_get Color_eq_dec mandatory_set_color
                   (g_mandatory_obstacles_sets module_globals) = Some m).
  { destruct Hcolor as [<- | [<- | []]]; [exists 8 | exists 9];
      simpl; auto. }
  destruct Hm as (m & Hm & Gm).
  apply wp_bind, wp_dict_getitem; [| congruence].
  intros m' Gm'. assert (m' = m) by congruence. subst m'. unfold after.
  apply wp_bind, wp_read. unfold after. rewrite Hw1.
  apply wp_bind, wp_choice; unfold after; [discriminate | auto |].
  intros r w2 Hr Hw2. rewrite Hw1 in Hw2.
  change (g_required_obstacles_sets module_globals)
    with required_obstacles_sets in Hr.
  assert (Hm31 : 0 <= m <= 31) by (simpl in Hm; lia).
  apply wp_bind, wp_redraw; auto. unfold after.
  intros os1 w3 H1 C1 Hw3.
  apply wp_bind, wp_redraw; auto. unfold after.
  intros os2 w4 H2 C2 Hw4.
  apply orb_false_iff in C1. destruct C1 as [C1r C1m].
  apply orb_false_iff in C2. destruct C2 as [C2 C2o].
  apply orb_false_iff in C2. destruct C2 as [C2r C2m].
  apply Z.eqb_neq in C1r, C1m, C2r, C2m, C2o.
  assert (Nd : NoDup [m; r; os1; os2]).
  { assert (m <> r) by (simpl in Hm, Hr; lia).
    repeat constructor; simpl; intuition congruence. }
  assert (Hin : forall i, In i [m; r; os1; os2] -> 0 <= i <= 31).
  { simpl in Hm, Hr. simpl. intros i Hi. lia. }
  apply wp_bind, wp_tally; auto; unfold after; rewrite Hw4;
    change (g_obstacles_sets module_globals) with obstacles_sets.
  - intros (i & Hi & Gi). exfalso.
    destruct (catalog_index i (Hin i Hi)) as [os Gos]. congruence.
  - intros (i & os & o & Hi & Gi & Ho & Hu). exfalso. apply Hu.
    apply (catalog_colors_defined os o); auto.
    eapply list_index_In; eauto.
  - intros t Ht.
    apply wp_bind, wp_drop_blocked_sets; unfold after.
    + intros (k & zs & Gk & L). exfalso.
      destruct (tallied_zones _ _ _ _ Ht k zs Gk) as (os & Gos & Hz).
      apply (zones_of_catalog_length direction os zs); auto.
      eapply list_index_In; eauto.
    + intros _. rewrite with_zones_same.
      apply wp_ret, Hok; auto.
      constructor; simpl; auto.
      * exists m, r, os1, os2. auto 10.
      * intros i. rewrite set_diff_iff, py_set_In. reflexivity.
Qed.

(** ** The rejection loop and the assignment of sections *)

Lemma wp_rejection_loop direction w Phi :
  globals w = module_globals ->
  (forall w', globals w' = module_globals -> Phi Starved w') ->
  (forall a w', Round (forbidden_intersections direction) a ->
     satisfied a = true -> globals w' = module_globals ->
     Phi (Ret (Some a)) w') ->
  wp (rejection_loop (forbidden_intersections direction)) w Phi.
Proof.
  intros Hw Hs Hok. unfold rejection_loop.
  apply wp_while with
    (I := fun s w' =>
            globals w' = module_globals /\
            match s with
            | Some a => Round (forbidden_intersections direction) a
            | None => True
            end).
  - auto.
  - intros s w1 [Hw1 _] _. unfold rejection_round.
    apply wp_bind, wp_attempt; unfold after; auto.
    intros a w' Ha Hw'. apply wp_ret. simpl. auto.
  - intros [a |] w1 [Hw1 Ha] Hc; simpl in Hc; [| discriminate].
    apply negb_false_iff in Hc. auto.
  - intros s w1 [Hw1 _]. auto.
Qed.

Lemma dict_set_new {K V} (dec : forall a b : K, {a = b} + {a <> b})
    k (v : V) d :
  ~ In k (dict_keys d) -> dict_set dec k v d = d ++ [(k, v)].
Proof.
  unfold dict_keys. induction d as [| [k' v'] d IH]; simpl; auto.
  intros H. destruct (dec k k'); [subst; tauto |].
  f_equal. apply IH. tauto.
Qed.

Lemma list_pop_inv {A} (l : list A) x r :
  rev l = x :: r -> l = rev r ++ [x].
Proof.
  intros H. rewrite <- (rev_involutive l), H. reflexivity.
Qed.

(** Handing out the shuffled sections, last one first. *)
Lemma wp_pop_loop (keys : list Z) (shuffled : list Section) w Phi :
  NoDup keys -> length shuffled = length keys ->
  (forall d, dict_keys d = keys -> map snd d = rev shuffled ->
     Phi (Ret (d, [])) w) ->
  wp (for_each keys
        (fun st obstacles_set_index =>
           popped <- list_pop (snd st) ;;
           ret (dict_set Z.eq_dec obstacles_set_index (fst popped) (fst st),
                snd popped))
        ([], shuffled)) w Phi.
Proof.
  intros Nd L Hok.
  apply wp_for_each with
    (I := fun pre st w1 =>
            w1 = w /\ dict_keys (fst st) = pre /\
            shuffled = snd st ++ rev (map snd (fst st))).
  - simpl. rewrite app_nil_r. auto.
  - intros pre x post [d sh] w1 El (-> & Kd & Esh). simpl in *.
    apply wp_bind. unfold list_pop.
    destruct (rev sh) as [| y r] eqn:Er.
    + exfalso. apply (f_equal (@rev _)) in Er. rewrite rev_involutive in Er.
      simpl in Er. subst sh. simpl in Esh.
      assert (length shuffled = length pre).
      { rewrite Esh, length_rev, length_map, <- Kd.
        unfold dict_keys. rewrite length_map. reflexivity. }
      rewrite El, length_app in L. simpl in L. lia.
    + apply list_pop_inv in Er. apply wp_ret. unfold after.
      apply wp_ret. unfold step_post. simpl.
      assert (Nx : ~ In x (dict_keys d)).
      { rewrite Kd. rewrite El in Nd. apply NoDup_remove_2 in Nd.
        rewrite in_app_iff in Nd. tauto. }
      rewrite (dict_set_new Z.eq_dec) by exact Nx.
      repeat split.
      * unfold dict_keys in *. rewrite map_app, Kd. reflexivity.
      * rewrite map_app, rev_app_distr. simpl.
        rewrite Esh, Er, <- app_assoc. reflexivity.
  - intros [d sh] w1 (-> & Kd & Esh). simpl in *.
    assert (sh = []).
    { apply (f_equal (@length _)) in Esh.
      rewrite length_app, length_rev, length_map in Esh.
      assert (length d = length keys)
        by (rewrite <- Kd; unfold dict_keys; rewrite length_map; reflexivity).
      destruct sh; [reflexivity | simpl in Esh; lia]. }
    subst sh. apply Hok; auto.
    rewrite Esh. simpl. rewrite rev_involutive. reflexivity.
Qed.

Lemma valid_draw_NoDup chosen : valid_draw chosen -> NoDup chosen.
Proof. intros (m & r & o1 & o2 & _ & _ & _ & _ & _ & H). exact H. Qed.

Lemma valid_draw_length chosen : valid_draw chosen -> length chosen = 4%nat.
Proof. intros (m & r & o1 & o2 & -> & _). reflexivity. Qed.

Lemma valid_draw_range chosen i : valid_draw chosen -> In i chosen -> 0 <= i <= 31.
Proof.
  intros (m & r & o1 & o2 & -> & Hm & Hr & H1 & H2 & _) Hi.
  simpl in Hm, Hr, Hi. lia.
Qed.

(** Every set of a round has a start zone left. *)
Lemma Round_zone_left direction a i zones :
  Round (forbidden_intersections direction) a ->
  dict_get Z.eq_dec i (forbidden_start_zones (tally a)) = Some zones ->
  set_diff StartZone_eq_dec (py_set StartZone_eq_dec [Z3; Z4]) zones <> [].
Proof.
  intros Ha Gi E.
  destruct (tallied_zones _ _ _ _ (round_tally _ _ Ha) i zones Gi)
    as (os & Gos & Hz).
  assert (Hin : forall z, In z [Z3; Z4] -> In z zones).
  { intros z Hzin.
    destruct (in_dec StartZone_eq_dec z zones) as [Y | N]; [exact Y |].
    exfalso.
    assert (H : In z (set_diff StartZone_eq_dec
                        (py_set StartZone_eq_dec [Z3; Z4]) zones)).
    { apply set_diff_iff. split; [apply py_set_In; exact Hzin | exact N]. }
    rewrite E in H. exact H. }
  destruct Hz as [_ Hz].
  assert (F3 : forbids (forbidden_intersections direction) Z3 os = true)
    by (apply Hz, Hin; simpl; auto).
  assert (F4 : forbids (forbidden_intersections direction) Z4 os = true)
    by (apply Hz, Hin; simpl; auto).
  pose proof (catalog_never_blocks direction os (list_index_In _ _ _ Gos)) as H.
  rewrite F3, F4 in H. discriminate H.
Qed.

Lemma wp_assign_sections direction a w Phi :
  Round (forbidden_intersections direction) a ->
  satisfied a = true ->
  globals w = module_globals ->
  (forall w', globals w' = module_globals -> Phi Starved w') ->
  (forall s w', Layout (forbidden_intersections direction) s ->
     accepted s = a -> globals w' = module_globals -> Phi (Ret s) w') ->
  wp (assign_sections a) w Phi.
Proof.
  intros Ha Hsat Hw Hs Hok. unfold assign_sections.
  pose proof (round_draw _ _ Ha) as Hd.
  pose proof (round_tally _ _ Ha) as Ht.
  pose proof (tallied_keys _ _ _ _ Ht) as Hk.
  apply wp_bind, wp_sample; unfold after.
  { simpl. lia. }
  { intros w' Hw'. apply Hs. congruence. }
  intros shuffled w1 L [rest P] Hw1. rewrite Hw in Hw1.
  assert (rest = []).
  { apply Permutation_length in P. rewrite length_app in P. simpl in P.
    destruct rest; [reflexivity | simpl in P; lia]. }
  subst rest. rewrite app_nil_r in P.
  apply wp_bind, wp_pop_loop; unfold after.
  { apply valid_draw_NoDup, Hd. }
  { rewrite (valid_draw_length _ Hd). lia. }
  intros d Kd Vd. simpl fst.
  apply wp_bind, wp_choice; unfold after.
  { intros E. rewrite Hk in E. apply valid_draw_length in Hd.
    rewrite E in Hd. discriminate Hd. }
  { auto. }
  intros start w2 Hstart Hw2. rewrite Hw1 in Hw2.
  apply wp_bind, wp_dict_getitem; unfold after.
  2: { intros Gn. exfalso. rewrite Hk, <- Kd in Hstart.
       apply (dict_keys_get Z.eq_dec) in Hstart. destruct Hstart. congruence. }
  intros start_sec Gstart.
  apply wp_bind, wp_choice; unfold after.
  { intros E. exfalso. rewrite (round_satisfied _ _ Ha) in Hsat.
    unfold acceptance_test in Hsat. rewrite E in Hsat. simpl in Hsat.
    rewrite andb_false_r in Hsat. discriminate Hsat. }
  { auto. }
  intros park w3 Hpark Hw3. rewrite Hw2 in Hw3.
  apply wp_bind, wp_dict_getitem; unfold after.
  2: { intros Gn. exfalso. apply (round_suitable _ _ Ha) in Hpark.
       destruct Hpark as [Hpark _]. rewrite <- Kd in Hpark.
       apply (dict_keys_get Z.eq_dec) in Hpark. destruct Hpark. congruence. }
  intros park_sec Gpark.
  apply wp_bind, wp_dict_getitem; unfold after.
  2: { intros Gn. exfalso.
       apply (dict_keys_get Z.eq_dec) in Hstart. destruct Hstart. congruence. }
  intros zones Gz.
  apply wp_bind, wp_choice; unfold after.
  { intros E. exfalso. eapply Round_zone_left; eauto. }
  { auto. }
  intros zone w4 Hzone Hw4. rewrite Hw3 in Hw4.
  apply set_diff_iff in Hzone. destruct Hzone as [Hz1 Hz2].
  apply py_set_In in Hz1.
  apply wp_ret, Hok; auto.
  constructor; simpl; auto.
  - rewrite Vd. rewrite <- Permutation_rev. exact P.
  - exists zones. auto.
Qed.

Lemma wp_obstacle_round direction w Phi :
  globals w = module_globals ->
  (forall w', globals w' = module_globals -> Phi Starved w') ->
  (forall s w', Layout (forbidden_intersections direction) s ->
     globals w' = module_globals -> Phi (Ret s) w') ->
  wp (randomize_and_draw_layout_for_obstacle direction) w Phi.
Proof.
  intros Hw Hs Hok. unfold randomize_and_draw_layout_for_obstacle.
  apply wp_bind, wp_dict_getitem; unfold after.
  2: { destruct direction; discriminate. }
  intros fi Gfi.
  assert (fi = forbidden_intersections direction)
    by (unfold forbidden_intersections; rewrite Gfi; reflexivity).
  subst fi.
  apply wp_bind, wp_rejection_loop; unfold after; auto.
  intros a w1 Ha Hsat Hw1.
  apply wp_assign_sections with (direction := direction); auto.
Qed.

(** ** Runs of the obstacle-round generator on the module as loaded *)

Lemma obstacle_round_layout direction rnd s w' :
  run (randomize_and_draw_layout_for_obstacle direction) rnd = (Ret s, w') ->
  Layout (forbidden_intersections direction) s.
Proof.
  intros E.
  apply (wp_elim _ _
           (fun o _ => match o with
                       | Ret s => Layout (forbidden_intersections direction) s
                       | _ => True
                       end) _ _
           (wp_obstacle_round direction (mkWorld module_globals rnd) _
              eq_refl (fun _ _ => I) (fun _ _ H _ => H)) E).
Qed.

Lemma obstacle_round_outcome direction w :
  globals w = module_globals ->
  raised (fst (randomize_and_draw_layout_for_obstacle direction w)) = None /\
  globals (snd (randomize_and_draw_layout_for_obstacle direction w))
  = module_globals.
Proof.
  intros Hw.
  apply (wp_obstacle_round direction w
           (fun o w' => raised o = None /\ globals w' = module_globals));
    simpl; auto.
Qed.

Lemma attempt_round direction w a w' :
  globals w = module_globals ->
  attempt (forbidden_intersections direction) w = (Ret a, w') ->
  Round (forbidden_intersections direction) a.
Proof.
  intros Hw E.
  apply (wp_elim _ _
           (fun o _ => match o with
                       | Ret a => Round (forbidden_intersections direction) a
                       | _ => True
                       end) _ _
           (wp_attempt direction w _ Hw (fun _ _ => I) (fun _ _ H _ => H)) E).
Qed.

Lemma catalog_entry_index i os :
  list_index obstacles_sets i = Some os -> catalog_entry i = os.
Proof. unfold catalog_entry. intros ->. reflexivity. Qed.

Lemma sets_at_chosen_obstacles chosen sets :
  sets_at obstacles_sets chosen sets -> concat sets = chosen_obstacles chosen.
Proof.
  unfold chosen_obstacles.
  induction 1 as [| i os chosen sets Hi _ IH]; simpl.
  - reflexivity.
  - rewrite (catalog_entry_index i os Hi), IH. reflexivity.
Qed.

Lemma valid_draw_entry chosen i :
  valid_draw chosen -> In i chosen ->
  list_index obstacles_sets i = Some (catalog_entry i) /\
  In (catalog_entry i) obstacles_sets.
Proof.
  intros Hd Hi.
  destruct (catalog_index i (valid_draw_range chosen i Hd Hi)) as [os Gos].
  rewrite (catalog_entry_index i os Gos).
  split; [exact Gos | eapply list_index_In; eauto].
Qed.

Lemma usable_start_zone_catalog direction os :
  In os obstacles_sets ->
  has_usable_start_zone (forbidden_intersections direction) os = true.
Proof.
  intros Hos. pose proof (catalog_never_blocks direction os Hos) as H.
  unfold has_usable_start_zone.
  destruct (forbids _ Z3 os), (forbids _ Z4 os); auto.
Qed.

(** The accumulators of a round are the counts of the rules. *)
Lemma Round_counts fi a :
  Round fi a ->
  obstacles_amount (tally a)
  = count_obstacles (chosen_obstacles (chosen_obstacles_sets_indices a)) /\
  green_amount (tally a)
  = count_color GREEN (chosen_obstacles (chosen_obstacles_sets_indices a)) /\
  red_amount (tally a)
  = count_color RED (chosen_obstacles (chosen_obstacles_sets_indices a)) /\
  Forall defined_color (chosen_obstacles (chosen_obstacles_sets_indices a)).
Proof.
  intros Ha.
  destruct (tallied_counts _ _ _ _ (round_tally _ _ Ha))
    as (sets & Hs & A & G & R & D).
  rewrite <- (sets_at_chosen_obstacles _ _ Hs). auto.
Qed.

Lemma Round_suitable_iff fi a i :
  Round fi a ->
  In i (obstacles_set_suitable_for_parking_section a) <->
  In i (chosen_obstacles_sets_indices a) /\
  conflicts_with_parking (catalog_entry i) = false.
Proof.
  intros Ha. rewrite (round_suitable _ _ Ha).
  rewrite (tallied_conflicting _ _ _ _ (round_tally _ _ Ha)).
  split.
  - intros [Hi N]. split; [exact Hi |].
    destruct (valid_draw_entry _ i (round_draw _ _ Ha) Hi) as [G _].
    destruct (conflicts_with_parking (catalog_entry i)) eqn:E; [| reflexivity].
    exfalso. apply N. eauto.
  - intros [Hi E]. split; [exact Hi |].
    intros [_ (os & G & C)].
    rewrite (catalog_entry_index i os G) in E. congruence.
Qed.

(** The acceptance test of the source decides the four rules. *)
Lemma Round_acceptance direction a :
  Round (forbidden_intersections direction) a ->
  satisfied a = true <->
  acceptable direction (chosen_obstacles_sets_indices a).
Proof.
  intros Ha. rewrite (round_satisfied _ _ Ha). unfold acceptance_test.
  destruct (Round_counts _ _ Ha) as (A & G & R & _).
  pose proof (round_draw _ _ Ha) as Hd.
  assert (Hstart : some_start_zone direction (chosen_obstacles_sets_indices a)).
  { destruct Hd as (m & r & o1 & o2 & E & Hrest).
    exists m. assert (Hm : In m (chosen_obstacles_sets_indices a))
      by (rewrite E; simpl; auto).
    split; [exact Hm |].
    apply usable_start_zone_catalog.
    apply (valid_draw_entry (chosen_obstacles_sets_indices a) m); auto.
    exists m, r, o1, o2. auto. }
  assert (Hlen : (Z.of_nat (length (forbidden_start_zones (tally a))) >? 0) = true).
  { replace (length (forbidden_start_zones (tally a))) with 4%nat; [reflexivity |].
    rewrite <- (valid_draw_length _ Hd).
    rewrite <- (tallied_keys _ _ _ _ (round_tally _ _ Ha)).
    unfold dict_keys. rewrite length_map. reflexivity. }
  rewrite Hlen, andb_true_r, !andb_true_iff, A, G, R.
  unfold acceptable, color_balanced, enough_obstacles, some_parking.
  rewrite Z.leb_le, Z.gtb_gt.
  split.
  - intros [[H1 H2] H3]. repeat split; auto; try lia.
    destruct (obstacles_set_suitable_for_parking_section a) as [| i l] eqn:E;
      [discriminate H3 |].
    exists i. apply (Round_suitable_iff _ a i Ha). rewrite E. simpl; auto.
  - intros (H1 & H2 & _ & i & Hi & Hc). repeat split; auto; try lia.
    assert (In i (obstacles_set_suitable_for_parking_section a))
      by (apply (Round_suitable_iff _ a i Ha); auto).
    destruct (obstacles_set_suitable_for_parking_section a);
      [contradiction | reflexivity].
Qed.

(** ** Association lists with distinct keys or distinct values *)

Lemma NoDup_map_inj_on {A B} (f : A -> B) (l : list A) x y :
  NoDup (map f l) -> In x l -> In y l -> f x = f y -> x = y.
Proof.
  induction l as [| a l IH]; simpl; [tauto |].
  intros Nd Hx Hy E. inversion Nd as [| ? ? Hn Nd']; subst.
  destruct Hx as [-> | Hx], Hy as [-> | Hy]; auto.
  - exfalso. apply Hn. rewrite E. apply in_map. exact Hy.
  - exfalso. apply Hn. rewrite <- E. apply in_map. exact Hx.
Qed.

Lemma dict_in_get (d : list (Z * Section)) k v :
  NoDup (dict_keys d) -> In (k, v) d -> dict_get Z.eq_dec k d = Some v.
Proof.
  intros Nd Hin.
  destruct (dict_keys_get Z.eq_dec k d) as [v' G].
  { unfold dict_keys. change k with (fst (k, v)). apply in_map. exact Hin. }
  rewrite G. f_equal.
  apply dict_get_in in G.
  assert (E : (k, v') = (k, v))
    by (apply (NoDup_map_inj_on fst d); auto).
  congruence.
Qed.

Lemma conflicts_with_parking_false os :
  conflicts_with_parking os = false ->
  forall o, In o os ->
    ~ In (position o) forbidden_intersections_in_parking_section.
Proof.
  unfold conflicts_with_parking. intros H o Ho Hp.
  assert (E : existsb
                (fun o => Intersection_in (position o)
                            forbidden_intersections_in_parking_section) os
              = true).
  { apply existsb_exists. exists o. split; [exact Ho |].
    apply Intersection_in_true. exact Hp. }
  congruence.
Qed.

Lemma forbids_false fi z os :
  forbids fi z os = false ->
  forall o, In o os -> ahead_of fi z (position o) = false.
Proof.
  unfold forbids. intros H o Ho.
  destruct (ahead_of fi z (position o)) eqn:E; [| reflexivity].
  assert (X : existsb (fun o => ahead_of fi z (position o)) os = true)
    by (apply existsb_exists; eauto).
  congruence.
Qed.

(** The sections handed out form a one-to-one assignment. *)
Lemma Layout_assignment fi s :
  Layout fi s ->
  NoDup (dict_keys (obstacles (scheme s))) /\
  NoDup (map snd (obstacles (scheme s))).
Proof.
  intros L. rewrite (layout_obstacles _ _ L). split.
  - rewrite (layout_keys _ _ L).
    apply valid_draw_NoDup, (round_draw _ _ (layout_round _ _ L)).
  - eapply Permutation_NoDup.
    + apply Permutation_sym, (layout_sections _ _ L).
    + unfold sections. repeat constructor; simpl; intuition discriminate.
Qed.

Lemma Layout_section_owner fi s i j sec :
  Layout fi s ->
  In (i, sec) (obstacles (scheme s)) -> In (j, sec) (obstacles (scheme s)) ->
  i = j.
Proof.
  intros L Hi Hj. destruct (Layout_assignment fi s L) as [_ Nd].
  assert (E : (i, sec) = (j, sec))
    by (apply (NoDup_map_inj_on snd (obstacles (scheme s))); auto).
  congruence.
Qed.

(** ** Exceptions of the obstacle round *)

Lemma attempt_never_raises direction w :
  globals w = module_globals ->
  raised (fst (attempt (forbidden_intersections direction) w)) = None.
Proof.
  intros Hw.
  apply (wp_attempt direction w (fun o _ => raised o = None)); simpl; auto.
Qed.

Lemma drop_blocked_sets_outcome d w :
  (raised (fst (drop_blocked_sets d w)) = Some RuntimeError /\
   exists k zs, dict_get Z.eq_dec k d = Some zs /\ length zs = 2%nat) \/
  (drop_blocked_sets d w = (Ret d, w) /\
   forall k zs, dict_get Z.eq_dec k d = Some zs -> length zs <> 2%nat).
Proof.
  assert (H : wp (drop_blocked_sets d) w
           (fun o w' =>
              (raised o = Some RuntimeError /\
               exists k zs, dict_get Z.eq_dec k d = Some zs /\ length zs = 2%nat) \/
              ((o, w') = (Ret d, w) /\
               forall k zs, dict_get Z.eq_dec k d = Some zs ->
                            length zs <> 2%nat))).
  { apply wp_drop_blocked_sets; simpl; auto. }
  unfold wp in H. destruct (drop_blocked_sets d w) as [o w']. exact H.
Qed.

Lemma sets_at_In catalog chosen sets i os :
  sets_at catalog chosen sets -> In i chosen ->
  list_index catalog i = Some os -> In os sets.
Proof.
  induction 1 as [| j s chosen sets Hj _ IH]; simpl; [tauto |].
  intros [-> | Hi] G; [left; congruence | right; auto].
Qed.

(** The tally loop raises [ValueError] or returns with every obstacle
    counted. *)
Lemma tally_outcome fi chosen w :
  NoDup chosen ->
  (forall i, In i chosen ->
     list_index (g_obstacles_sets (globals w)) i <> None) ->
  match fst (for_each chosen (tally_set fi) empty_tally w) with
  | Ret t => Tallied (g_obstacles_sets (globals w)) fi chosen t
  | Raise e =>
      e = ValueError /\
      exists i os o, In i chosen /\
        list_index (g_obstacles_sets (globals w)) i = Some os /\
        In o os /\ ~ defined_color o
  | Starved => False
  end /\
  snd (for_each chosen (tally_set fi) empty_tally w) = w.
Proof.
  intros Nd Hidx.
  apply (wp_tally fi chosen w
           (fun o w' =>
              match o with
              | Ret t => Tallied (g_obstacles_sets (globals w)) fi chosen t
              | Raise e =>
                  e = ValueError /\
                  exists i os o, In i chosen /\
                    list_index (g_obstacles_sets (globals w)) i = Some os /\
                    In o os /\ ~ defined_color o
              | Starved => False
              end /\ w' = w)); auto.
  intros (i & Hi & G). exfalso. apply (Hidx i Hi G).
Qed.

(** ** Random draws on a tape that is long enough *)

Lemma wp_next_random_fed w Phi :
  (1 <= length (tape w))%nat ->
  (forall n w', globals w' = globals w ->
     S (length (tape w')) = length (tape w) -> Phi (Ret n) w') ->
  wp next_random w Phi.
Proof.
  intros L Hok. apply wp_next_random.
  - intros E. rewrite E in L. simpl in L. lia.
  - intros n rest E. apply Hok; [reflexivity |]. rewrite E. reflexivity.
Qed.

Lemma wp_randint_fed a b w Phi :
  a <= b -> (1 <= length (tape w))%nat ->
  (forall x w', a <= x <= b -> globals w' = globals w ->
     S (length (tape w')) = length (tape w) -> Phi (Ret x) w') ->
  wp (randint a b) w Phi.
Proof.
  intros Hab L Hok. unfold randint.
  destruct (b <? a) eqn:E; [apply Z.ltb_lt in E; lia |].
  apply wp_bind, wp_next_random_fed; [exact L |]. unfold after.
  intros n w' Hg Hl. apply wp_ret, Hok; auto.
  pose proof (Z.mod_pos_bound (Z.of_nat n) (b - a + 1)). lia.
Qed.

Lemma wp_choice_fed {A} (seq : list A) w Phi :
  seq <> [] -> (1 <= length (tape w))%nat ->
  (forall x w', In x seq -> globals w' = globals w ->
     S (length (tape w')) = length (tape w) -> Phi (Ret x) w') ->
  wp (choice seq) w Phi.
Proof.
  intros Hne L Hok. unfold choice.
  destruct seq as [| y seq]; [congruence |].
  apply wp_bind, wp_next_random_fed; [exact L |]. unfold after.
  intros n w' Hg Hl.
  destruct (nth_error (y :: seq) (n mod length (y :: seq))) as [x |] eqn:E.
  - apply wp_ret, Hok; auto. eapply nth_error_In; eauto.
  - exfalso. apply nth_error_None in E.
    assert (n mod length (y :: seq) < length (y :: seq))%nat
      by (apply Nat.mod_upper_bound; discriminate).
    lia.
Qed.

Lemma wp_sample_pool_fed {A} (k : nat) : forall (pool : list A) w Phi,
  (k <= length pool)%nat -> (k <= length (tape w))%nat ->
  (forall l w', length l = k -> (exists rest, Permutation (l ++ rest) pool) ->
     globals w' = globals w ->
     (length (tape w') + k = length (tape w))%nat -> Phi (Ret l) w') ->
  wp (sample_pool pool k) w Phi.
Proof.
  induction k as [| k IH]; intros pool w Phi Hk L Hok; simpl.
  - apply wp_ret, Hok; auto. exists pool. apply Permutation_refl.
  - destruct pool as [| a pool]; [simpl in Hk; lia |].
    apply wp_bind, wp_next_random_fed; [lia |]. unfold after.
    intros n w1 Hg1 Hl1.
    destruct (pool_take_some (a :: pool) (n mod length (a :: pool)))
      as (x & pool' & E).
    { apply Nat.mod_upper_bound. discriminate. }
    rewrite E. pose proof (pool_take_perm _ _ _ _ E) as P.
    assert (Lp : length pool' = length pool).
    { apply Permutation_length in P. simpl in P. lia. }
    apply wp_bind, IH; [simpl in Hk; lia | lia |].
    intros l w' Hl [rest' Hp] Hw Ht. unfold after.
    apply wp_ret, Hok; [simpl; lia | | congruence | lia].
    exists rest'. simpl.
    eapply Permutation_trans; [| exact P]. constructor. exact Hp.
Qed.

Lemma wp_sample_fed {A} (population : list A) k w Phi :
  0 <= k <= Z.of_nat (length population) ->
  (Z.to_nat k <= length (tape w))%nat ->
  (forall l w', Z.of_nat (length l) = k ->
     (exists rest, Permutation (l ++ rest) population) ->
     globals w' = globals w ->
     (length (tape w') + length l = length (tape w))%nat -> Phi (Ret l) w') ->
  wp (sample population k) w Phi.
Proof.
  intros Hk L Hok. unfold sample.
  destruct ((k <? 0) || (Z.of_nat (length population) <? k)) eqn:E.
  - apply orb_true_iff in E. destruct E as [E | E];
      [apply Z.ltb_lt in E | apply Z.ltb_lt in E]; lia.
  - apply wp_sample_pool_fed; auto; [lia |].
    intros l w' Hl Hp Hw Ht. apply Hok; auto; lia.
Qed.

(** ** The assignment on a tape that is long enough *)

Lemma attempt_world direction w a w' :
  globals w = module_globals ->
  attempt (forbidden_intersections direction) w = (Ret a, w') ->
  globals w' = module_globals.
Proof.
  intros Hw E.
  apply (wp_elim _ _
           (fun o w' => match o with
                        | Ret _ => globals w' = module_globals
                        | _ => True
                        end) _ _
           (wp_attempt direction w _ Hw (fun _ _ => I) (fun _ _ _ H => H)) E).
Qed.

Lemma wp_assign_sections_fed direction a w Phi :
  Round (forbidden_intersections direction) a ->
  satisfied a = true ->
  globals w = module_globals ->
  (7 <= length (tape w))%nat ->
  (forall s w', accepted s = a ->
     (length (tape w') + 7 = length (tape w))%nat -> Phi (Ret s) w') ->
  wp (assign_sections a) w Phi.
Proof.
  intros Ha Hsat Hw Ht Hok. unfold assign_sections.
  pose proof (round_draw _ _ Ha) as Hd.
  pose proof (round_tally _ _ Ha) as Htl.
  pose proof (tallied_keys _ _ _ _ Htl) as Hk.
  apply wp_bind, wp_sample_fed; unfold after; [simpl; lia | simpl; lia |].
  intros shuffled w1 L [rest P] Hw1 L1.
  assert (rest = []).
  { apply Permutation_length in P. rewrite length_app in P. simpl in P.
    destruct rest; [reflexivity | simpl in P; lia]. }
  subst rest. rewrite app_nil_r in P.
  assert (Ls : length shuffled = 4%nat) by lia.
  apply wp_bind, wp_pop_loop; unfold after.
  { apply valid_draw_NoDup, Hd. }
  { rewrite (valid_draw_length _ Hd). exact Ls. }
  intros d Kd Vd. simpl fst.
  apply wp_bind, wp_choice_fed; unfold after.
  { intros E. rewrite Hk in E. apply valid_draw_length in Hd.
    rewrite E in Hd. discriminate Hd. }
  { lia. }
  intros start w2 Hstart Hw2 L2.
  apply wp_bind, wp_dict_getitem; unfold after.
  2: { intros Gn. exfalso. rewrite Hk, <- Kd in Hstart.
       apply (dict_keys_get Z.eq_dec) in Hstart. destruct Hstart. congruence. }
  intros start_sec Gstart.
  apply wp_bind, wp_choice_fed; unfold after.
  { intros E. rewrite (round_satisfied _ _ Ha) in Hsat.
    unfold acceptance_test in Hsat. rewrite E in Hsat. simpl in Hsat.
    rewrite andb_false_r in Hsat. discriminate Hsat. }
  { lia. }
  intros park w3 Hpark Hw3 L3.
  apply wp_bind, wp_dict_getitem; unfold after.
  2: { intros Gn. exfalso. apply (round_suitable _ _ Ha) in Hpark.
       destruct Hpark as [Hpark _]. rewrite <- Kd in Hpark.
       apply (dict_keys_get Z.eq_dec) in Hpark. destruct Hpark. congruence. }
  intros park_sec Gpark.
  apply wp_bind, wp_dict_getitem; unfold after.
  2: { intros Gn. exfalso.
       apply (dict_keys_get Z.eq_dec) in Hstart. destruct Hstart. congruence. }
  intros zones Gz.
  apply wp_bind, wp_choice_fed; unfold after.
  { intros E. eapply Round_zone_left; eauto. }
  { lia. }
  intros zone w4 Hzone Hw4 L4.
  apply wp_ret, Hok; [reflexivity | lia].
Qed.

(** ** The tape along a round *)

Lemma keeps_ret {A} (a : A) : keeps_tape (ret a).
Proof. intros w. simpl. lia. Qed.

Lemma keeps_raise {A} (e : exn) : keeps_tape (@raise A e).
Proof. intros w. simpl. lia. Qed.

Lemma keeps_read {A} (f : Globals -> A) : keeps_tape (read f).
Proof. intros w. simpl. lia. Qed.

Lemma keeps_bind {A B} (m : M A) (f : A -> M B) :
  keeps_tape m -> (forall a, keeps_tape (f a)) -> keeps_tape (bind m f).
Proof.
  intros Hm Hf w. unfold bind. specialize (Hm w).
  destruct (m w) as [[a | e |] w1]; simpl in *; [| exact Hm | exact Hm].
  specialize (Hf a w1). lia.
Qed.

Lemma keeps_next_random : keeps_tape next_random.
Proof.
  intros [g t]. unfold next_random. simpl. destruct t; simpl; lia.
Qed.

Lemma keeps_randint a b : keeps_tape (randint a b).
Proof.
  unfold randint. destruct (b <? a); [apply keeps_raise |].
  apply keeps_bind; [apply keeps_next_random | intro; apply keeps_ret].
Qed.

Lemma keeps_choice {A} (seq : list A) : keeps_tape (choice seq).
Proof.
  unfold choice. destruct seq as [| x seq]; [apply keeps_raise |].
  apply keeps_bind; [apply keeps_next_random |]. intro n.
  destruct (nth_error _ _); [apply keeps_ret | apply keeps_raise].
Qed.

Lemma keeps_list_getitem {A} (l : list A) i : keeps_tape (list_getitem l i).
Proof.
  unfold list_getitem.
  destruct (list_index l i); [apply keeps_ret | apply keeps_raise].
Qed.

Lemma keeps_dict_getitem {K V} (K_eq_dec : forall a b : K, {a = b} + {a <> b})
    k (d : list (K * V)) :
  keeps_tape (dict_getitem K_eq_dec k d).
Proof.
  unfold dict_getitem.
  destruct (dict_get K_eq_dec k d); [apply keeps_ret | apply keeps_raise].
Qed.

Lemma keeps_for_each {A S} (l : list A) (body : S -> A -> M S) :
  (forall s x, keeps_tape (body s x)) ->
  forall s, keeps_tape (for_each l body s).
Proof.
  intros Hb. induction l as [| x l IH]; intros s; simpl.
  - apply keeps_ret.
  - apply keeps_bind; auto.
Qed.

Lemma keeps_while_fuel {S} (cond : S -> bool) (body : S -> M S) :
  (forall s, keeps_tape (body s)) ->
  forall fuel s, keeps_tape (while_fuel fuel cond body s).
Proof.
  intros Hb. induction fuel as [| fuel IH]; intros s; simpl;
    destruct (cond s); try apply keeps_ret.
  - intros w. simpl. lia.
  - apply keeps_bind; auto.
Qed.

Lemma keeps_while {S} (cond : S -> bool) (body : S -> M S) s :
  (forall s, keeps_tape (body s)) -> keeps_tape (while_ cond body s).
Proof.
  intros Hb w. unfold while_.
  apply (keeps_while_fuel cond body Hb (length (tape w)) s w).
Qed.

Ltac keeps_step :=
  match goal with
  | |- keeps_tape (bind _ _) => apply keeps_bind; [| intro]
  | |- keeps_tape (ret _) => apply keeps_ret
  | |- keeps_tape (raise _) => apply keeps_raise
  | |- keeps_tape (read _) => apply keeps_read
  | |- keeps_tape (for_each _ _ _) => apply keeps_for_each; intros
  | |- keeps_tape (while_ _ _ _) => apply keeps_while; intros
  | |- keeps_tape (choice _) => apply keeps_choice
  | |- keeps_tape (randint _ _) => apply keeps_randint
  | |- keeps_tape (dict_getitem _ _ _) => apply keeps_dict_getitem
  | |- keeps_tape (list_getitem _ _) => apply keeps_list_getitem
  | |- keeps_tape (if ?b then _ else _) => destruct b
  | |- _ => progress cbv beta zeta
  end.

Lemma choice_consumes {A} (seq : list A) w a w' :
  choice seq w = (Ret a, w') -> (length (tape w') < length (tape w))%nat.
Proof.
  unfold choice. destruct seq as [| x seq]; [discriminate |].
  unfold bind, next_random. destruct w as [g t]. simpl.
  destruct t as [| n t]; [discriminate |].
  destruct (nth_error _ _); unfold ret, raise; intros E; inversion E.
  simpl. lia.
Qed.

Lemma bind_consumes {A B} (m : M A) (f : A -> M B) :
  (forall w a w', m w = (Ret a, w') ->
     (length (tape w') < length (tape w))%nat) ->
  (forall a, keeps_tape (f a)) ->
  forall w b w', bind m f w = (Ret b, w') ->
    (length (tape w') < length (tape w))%nat.
Proof.
  intros Hm Hf w b w' E. unfold bind in E.
  destruct (m w) as [[a | e |] w1] eqn:Em; try discriminate.
  pose proof (Hm _ _ _ Em) as L. pose proof (Hf a w1) as K.
  rewrite E in K. simpl in K. lia.
Qed.

(** A round that returns has drawn from the tape. *)
Lemma attempt_consumes fi : forall w a w1,
  attempt fi w = (Ret a, w1) -> (length (tape w1) < length (tape w))%nat.
Proof.
  unfold attempt. apply bind_consumes.
  - intros w c w'. apply choice_consumes.
  - intro c.
    unfold drop_blocked_sets, tally_set, tally_obstacle, tally_color.
    repeat keeps_step.
Qed.

(** A round on an empty tape stops at its first draw. *)
Lemma attempt_starved fi w : tape w = [] -> attempt fi w = (Starved, w).
Proof.
  intros E. unfold attempt. unfold bind at 1. unfold choice at 1.
  unfold bind at 1. unfold next_random. rewrite E. reflexivity.
Qed.

(** Rounds beyond the length of the tape are never run: a loop whose body
    draws at least once per round behaves the same on any larger bound. *)
Lemma while_fuel_enough {S} (cond : S -> bool) (body : S -> M S) :
  (forall s w, tape w = [] -> body s w = (Starved, w)) ->
  (forall s w s' w', body s w = (Ret s', w') ->
     (length (tape w') < length (tape w))%nat) ->
  forall n m s w,
    (length (tape w) <= n)%nat -> (length (tape w) <= m)%nat ->
    while_fuel n cond body s w = while_fuel m cond body s w.
Proof.
  intros H0 Hlt. induction n as [| n IH]; intros m s w Ln Lm.
  - assert (E : tape w = []) by (destruct (tape w); [reflexivity | simpl in Ln; lia]).
    destruct m as [| m]; simpl; [reflexivity |].
    destruct (cond s); [| reflexivity].
    unfold bind. rewrite (H0 s w E). reflexivity.
  - destruct m as [| m]; simpl.
    + assert (E : tape w = []) by (destruct (tape w); [reflexivity | simpl in Lm; lia]).
      destruct (cond s); [| reflexivity].
      unfold bind. rewrite (H0 s w E). reflexivity.
    + destruct (cond s); [| reflexivity].
      unfold bind. destruct (body s w) as [[s' | e |] w'] eqn:Eb; try reflexivity.
      pose proof (Hlt _ _ _ _ Eb). apply IH; lia.
Qed.

(** The loop after its first round: it leaves with the draw of the round if
    the round set [satisfied], and otherwise goes on as a loop started in
    the state the round left. *)
Lemma rejection_loop_step fi w a w1 :
  attempt fi w = (Ret a, w1) ->
  rejection_loop fi w
  = if satisfied a then (Ret (Some a), w1) else rejection_loop fi w1.
Proof.
  intros E. pose proof (attempt_consumes fi w a w1 E) as L.
  unfold rejection_loop, while_.
  destruct (length (tape w)) as [| f] eqn:Ef; [lia |].
  cbn [while_fuel not_satisfied].
  unfold bind at 1. unfold rejection_round at 1. unfold bind at 1.
  rewrite E. unfold ret at 1.
  destruct (satisfied a) eqn:Hs.
  - destruct f; simpl; rewrite Hs; reflexivity.
  - transitivity (while_fuel f not_satisfied (rejection_round fi) None w1).
    { destruct f; simpl; rewrite Hs; reflexivity. }
    apply while_fuel_enough; [| | lia | lia].
    + intros s w0 E0. unfold rejection_round, bind.
      rewrite (attempt_starved fi w0 E0). reflexivity.
    + intros s w0 s' w' Er. unfold rejection_round, bind in Er.
      destruct (attempt fi w0) as [[a' | e |] w2] eqn:Ea; try discriminate.
      unfold ret in Er. inversion Er; subst.
      apply (attempt_consumes fi w0 a' w' Ea).
Qed.

(** The generator is the rejection loop followed by the assignment. *)
Lemma obstacle_round_unfold direction w :
  randomize_and_draw_layout_for_obstacle direction w
  = match rejection_loop (forbidden_intersections direction) w with
    | (Ret (Some a), w1) => assign_sections a w1
    | (Ret None, w1) => (Starved, w1)
    | (Raise e, w1) => (Raise e, w1)
    | (Starved, w1) => (Starved, w1)
    end.
Proof.
  unfold randomize_and_draw_layout_for_obstacle.
  assert (G : dict_getitem Direction_eq_dec direction
                forbidden_intersections_in_start_zone
              = ret (forbidden_intersections direction))
    by (destruct direction; reflexivity).
  rewrite G. unfold bind at 1. unfold ret at 1. unfold bind.
  destruct (rejection_loop (forbidden_intersections direction) w)
    as [[[a |] | e |] w1]; reflexivity.
Qed.

Lemma assign_sections_accepted a w s w' :
  assign_sections a w = (Ret s, w') -> accepted s = a.
Proof.
  unfold assign_sections, bind. intros E.
  repeat match type of E with
         | match ?x with _ => _ end = _ =>
             destruct x as [[? | ? |] ?]; try discriminate E
         end.
  unfold ret in E. inversion E. reflexivity.
Qed.

(** * The claims *)

(** C1.  A round of the rejection loop sets [satisfied] exactly when its
    four chosen sets pass the four rules: green and red counts differ by at
    most one, more than four obstacles in total, some chosen set keeps a
    usable start zone (Z3 or Z4 not forbidden), some chosen set has no
    obstacle on a parking-forbidden intersection.  When the draw of the
    first round passes, the rejection loop exits with that draw, the
    generator goes on to assign sections to it, and with seven more random
    numbers it returns a layout built from it.  When the draw fails, the
    loop does not exit: loop and generator behave as if started in the
    state the round left, so the draw is discarded.  Whenever the loop
    exits it holds a draw that passes the four rules, and every layout the
    generator returns is built from the draw the loop exited with. *)
Theorem rejection_loop_exits_iff_acceptable direction w a w1 :
  globals w = module_globals ->
  attempt (forbidden_intersections direction) w = (Ret a, w1) ->
  (satisfied a = true <->
   acceptable direction (chosen_obstacles_sets_indices a)) /\
  (acceptable direction (chosen_obstacles_sets_indices a) ->
   rejection_loop (forbidden_intersections direction) w = (Ret (Some a), w1) /\
   randomize_and_draw_layout_for_obstacle direction w = assign_sections a w1 /\
   ((7 <= length (tape w1))%nat ->
    exists s w',
      randomize_and_draw_layout_for_obstacle direction w = (Ret s, w') /\
      accepted s = a /\
      dict_keys (obstacles (scheme s)) = chosen_obstacles_sets_indices a)) /\
  (~ acceptable direction (chosen_obstacles_sets_indices a) ->
   not_satisfied (Some a) = true /\
   rejection_loop (forbidden_intersections direction) w
   = rejection_loop (forbidden_intersections direction) w1 /\
   randomize_and_draw_layout_for_obstacle direction w
   = randomize_and_draw_layout_for_obstacle direction w1) /\
  (forall w0 r w2,
     globals w0 = module_globals ->
     rejection_loop (forbidden_intersections direction) w0 = (Ret r, w2) ->
     exists a', r = Some a' /\ satisfied a' = true /\
       acceptable direction (chosen_obstacles_sets_indices a')) /\
  (forall rnd s w',
     run (randomize_and_draw_layout_for_obstacle direction) rnd = (Ret s, w') ->
     acceptable direction (chosen_obstacles_sets_indices (accepted s)) /\
     dict_keys (obstacles (scheme s))
     = chosen_obstacles_sets_indices (accepted s) /\
     exists w2,
       run (rejection_loop (forbidden_intersections direction)) rnd
       = (Ret (Some (accepted s)), w2) /\
       assign_sections (accepted s) w2 = (Ret s, w')).
Proof.
  intros Hw E.
  pose proof (attempt_round direction w a w1 Hw E) as Ha.
  pose proof (attempt_world direction w a w1 Hw E) as Hw1.
  pose proof (Round_acceptance direction a Ha) as Hiff.
  pose proof (rejection_loop_step _ w a w1 E) as Hstep.
  split; [exact Hiff |]. split; [| split; [| split]].
  - intros Hacc. apply Hiff in Hacc. rewrite Hacc in Hstep.
    assert (G : randomize_and_draw_layout_for_obstacle direction w
                = assign_sections a w1)
      by (rewrite obstacle_round_unfold, Hstep; reflexivity).
    split; [exact Hstep |]. split; [exact G |].
    intros L7. rewrite G.
    pose proof (wp_assign_sections_fed direction a w1
                  (fun o _ => exists s, o = Ret s /\ accepted s = a)
                  Ha Hacc Hw1 L7 (fun s _ Es _ => ex_intro _ s (conj eq_refl Es)))
      as F.
    unfold wp in F. destruct F as (s & Eo & Es).
    destruct (assign_sections a w1) as [o w'] eqn:E2. simpl in Eo. subst o.
    exists s, w'. split; [reflexivity |]. split; [exact Es |].
    assert (L : Layout (forbidden_intersections direction) s).
    { apply (wp_elim _ _
               (fun o _ => match o with
                           | Ret s => Layout (forbidden_intersections direction) s
                           | _ => True
                           end) _ _
               (wp_assign_sections direction a w1 _ Ha Hacc Hw1
                  (fun _ _ => I) (fun _ _ H _ _ => H)) E2). }
    rewrite (layout_obstacles _ _ L), (layout_keys _ _ L), Es. reflexivity.
  - intros Hrej.
    assert (Hs : satisfied a = false).
    { destruct (satisfied a); [| reflexivity].
      exfalso. apply Hrej, Hiff. reflexivity. }
    rewrite Hs in Hstep. split; [simpl; rewrite Hs; reflexivity |].
    split; [exact Hstep |].
    rewrite !obstacle_round_unfold, Hstep. reflexivity.
  - intros w0 r w2 Hw0 Er.
    pose proof (wp_elim _ _
                  (fun o _ => match o with
                              | Ret r => exists a', r = Some a' /\
                                  Round (forbidden_intersections direction) a' /\
                                  satisfied a' = true
                              | _ => True
                              end) _ _
                  (wp_rejection_loop direction w0 _ Hw0 (fun _ _ => I)
                     (fun a' _ Ra Sa _ =>
                        ex_intro _ a' (conj eq_refl (conj Ra Sa)))) Er)
      as (a' & -> & Ra & Sa).
    exists a'. split; [reflexivity |]. split; [exact Sa |].
    apply (Round_acceptance direction a' Ra), Sa.
  - intros rnd s w' Es.
    pose proof (obstacle_round_layout direction rnd s w' Es) as L.
    split; [| split].
    + apply (Round_acceptance direction (accepted s) (layout_round _ _ L)).
      apply (layout_satisfied _ _ L).
    + rewrite (layout_obstacles _ _ L). apply (layout_keys _ _ L).
    + unfold run in *. rewrite obstacle_round_unfold in Es.
      destruct (rejection_loop (forbidden_intersections direction)
                  (mkWorld module_globals rnd)) as [[[a' |] | e |] w2];
        try discriminate Es.
      exists w2. rewrite (assign_sections_accepted _ _ _ _ Es).
      split; [reflexivity | exact Es].
Qed.

Lemma rejection_loop_exits_iff_acceptable_witness :
  acceptable CW [8; 21; 0; 1] /\ ~ acceptable CW [8; 21; 12; 16].
Proof.
  split.
  - refine (proj1 (proj1 (rejection_loop_exits_iff_acceptable CW
                            (mkWorld module_globals sample_draw_tape)
                            (mkAttempt [8; 21; 0; 1] _ _ true)
                            (mkWorld module_globals [])
                            eq_refl _)) eq_refl).
    vm_compute. reflexivity.
  - intros H.
    assert (P : false = true).
    { refine (proj2 (proj1 (rejection_loop_exits_iff_acceptable CW
                              (mkWorld module_globals [0; 0; 12; 16]%nat)
                              (mkAttempt [8; 21; 12; 16] _ _ false)
                              (mkWorld module_globals [])
                              eq_refl _)) H).
      vm_compute. reflexivity. }
    discriminate P.
Defined.

(** C2.  In every layout of the obstacle round the four chosen catalog
    indices (mandatory, required, os1, os2) are pairwise distinct, and the
    placement maps them one-to-one onto the four sections: every chosen
    index has exactly one section, no section hosts two indices, and every
    section hosts one. *)
Theorem chosen_sets_on_distinct_sections direction rnd s w' :
  run (randomize_and_draw_layout_for_obstacle direction) rnd = (Ret s, w') ->
  valid_draw (chosen_obstacles_sets_indices (accepted s)) /\
  NoDup (chosen_obstacles_sets_indices (accepted s)) /\
  length (chosen_obstacles_sets_indices (accepted s)) = 4%nat /\
  dict_keys (obstacles (scheme s)) = chosen_obstacles_sets_indices (accepted s) /\
  Permutation (map snd (obstacles (scheme s))) [NORTH; WEST; SOUTH; EAST] /\
  (forall i, In i (chosen_obstacles_sets_indices (accepted s)) ->
     exists sec, dict_get Z.eq_dec i (obstacles (scheme s)) = Some sec /\
       forall sec', In (i, sec') (obstacles (scheme s)) -> sec' = sec) /\
  (forall i j sec,
     In (i, sec) (obstacles (scheme s)) -> In (j, sec) (obstacles (scheme s)) ->
     i = j) /\
  (forall sec, exists i,
     In i (chosen_obstacles_sets_indices (accepted s)) /\
     In (i, sec) (obstacles (scheme s))).
Proof.
  intros E. pose proof (obstacle_round_layout direction rnd s w' E) as L.
  pose proof (round_draw _ _ (layout_round _ _ L)) as Hd.
  destruct (Layout_assignment _ s L) as [Nk Nv].
  assert (K : dict_keys (obstacles (scheme s))
              = chosen_obstacles_sets_indices (accepted s))
    by (rewrite (layout_obstacles _ _ L); apply (layout_keys _ _ L)).
  assert (P : Permutation (map snd (obstacles (scheme s))) sections)
    by (rewrite (layout_obstacles _ _ L); apply (layout_sections _ _ L)).
  repeat split; auto.
  - apply valid_draw_NoDup, Hd.
  - apply valid_draw_length, Hd.
  - intros i Hi. rewrite <- K in Hi.
    destruct (dict_keys_get Z.eq_dec i _ Hi) as [sec G].
    exists sec. split; [exact G |].
    intros sec' Hin. apply (dict_in_get _ _ _ Nk) in Hin. congruence.
  - intros i j sec. apply (Layout_section_owner _ s i j sec L).
  - intros sec.
    assert (Hs : In sec (map snd (obstacles (scheme s)))).
    { eapply Permutation_in; [apply Permutation_sym, P |].
      destruct sec; simpl; auto. }
    apply in_map_iff in Hs. destruct Hs as ([i sec'] & Es & Hin).
    simpl in Es. subst sec'. exists i. split; [| exact Hin].
    rewrite <- K. unfold dict_keys. change i with (fst (i, sec)).
    apply in_map. exact Hin.
Qed.

Lemma chosen_sets_on_distinct_sections_witness :
  Permutation [NORTH; EAST; SOUTH; WEST] [NORTH; WEST; SOUTH; EAST].
Proof.
  refine (proj1 (proj2 (proj2 (proj2 (proj2
            (chosen_sets_on_distinct_sections CW sample_tape
               (mkSolved (mkAttempt [8; 21; 0; 1] _ _ _) _ _ _
                  (mkScheme _ _ [(8, NORTH); (21, EAST); (0, SOUTH); (1, WEST)] _))
               (mkWorld module_globals []) _)))))).
  vm_compute. reflexivity.
Defined.

(** C5.  The parking section is the section of a chosen set taken from the
    parking-eligible sets, which are exactly the chosen sets without an
    obstacle on T3, T4 or X2; the set placed on the parking section
    therefore has no obstacle on T3, T4 or X2. *)
Theorem parking_section_set_is_eligible direction rnd s w' :
  run (randomize_and_draw_layout_for_obstacle direction) rnd = (Ret s, w') ->
  (forall i, In i (obstacles_set_suitable_for_parking_section (accepted s)) <->
     In i (chosen_obstacles_sets_indices (accepted s)) /\
     conflicts_with_parking (catalog_entry i) = false) /\
  In (obstacles_set_in_parking_section s)
     (obstacles_set_suitable_for_parking_section (accepted s)) /\
  dict_get Z.eq_dec (obstacles_set_in_parking_section s) (obstacles (scheme s))
  = Some (parking_section (scheme s)) /\
  (forall i, In (i, parking_section (scheme s)) (obstacles (scheme s)) ->
     i = obstacles_set_in_parking_section s /\
     forall o, In o (catalog_entry i) -> ~ In (position o) [T3; T4; X2]).
Proof.
  intros E. pose proof (obstacle_round_layout direction rnd s w' E) as L.
  pose proof (layout_round _ _ L) as Ha.
  pose proof (layout_parking_set _ _ L) as Hp.
  assert (G : dict_get Z.eq_dec (obstacles_set_in_parking_section s)
                (obstacles (scheme s)) = Some (parking_section (scheme s)))
    by (rewrite (layout_obstacles _ _ L); apply (layout_parking_section _ _ L)).
  split; [intros i; apply (Round_suitable_iff _ _ i Ha) |].
  split; [exact Hp |]. split; [exact G |].
  intros i Hi.
  assert (i = obstacles_set_in_parking_section s).
  { apply (Layout_section_owner _ s _ _ (parking_section (scheme s)) L Hi).
    apply dict_get_in in G. exact G. }
  subst i. split; [reflexivity |].
  apply (Round_suitable_iff _ _ _ Ha) in Hp. destruct Hp as [_ Hc].
  apply conflicts_with_parking_false. exact Hc.
Qed.

Lemma parking_section_set_is_eligible_witness :
  dict_get Z.eq_dec 1 [(8, NORTH); (21, EAST); (0, SOUTH); (1, WEST)]
  = Some WEST.
Proof.
  refine (proj1 (proj2 (proj2
            (parking_section_set_is_eligible CW sample_tape
               (mkSolved (mkAttempt [8; 21; 0; 1] _ _ _) _ _ 1
                  (mkScheme _ _ [(8, NORTH); (21, EAST); (0, SOUTH); (1, WEST)]
                     WEST))
               (mkWorld module_globals []) _)))).
  vm_compute. reflexivity.
Defined.

(** C6.  The start section is the section of a chosen set that has a zone
    of Z3, Z4 left unforbidden, and the start zone is taken from Z3, Z4
    minus the zones forbidden for that set: it is Z3 or Z4 and no obstacle
    of the set on the start section lies ahead of it in the given
    direction. *)
Theorem start_zone_is_usable direction rnd s w' :
  run (randomize_and_draw_layout_for_obstacle direction) rnd = (Ret s, w') ->
  In (obstacles_set_in_start_section s)
     (chosen_obstacles_sets_indices (accepted s)) /\
  dict_get Z.eq_dec (obstacles_set_in_start_section s) (obstacles (scheme s))
  = Some (start_section (scheme s)) /\
  (forall i, In (i, start_section (scheme s)) (obstacles (scheme s)) ->
     i = obstacles_set_in_start_section s) /\
  has_usable_start_zone (forbidden_intersections direction)
    (catalog_entry (obstacles_set_in_start_section s)) = true /\
  (exists zones,
     dict_get Z.eq_dec (obstacles_set_in_start_section s)
       (forbidden_start_zones (tally (accepted s))) = Some zones /\
     (forall z, In z zones <->
        In z [Z3; Z4] /\
        forbids (forbidden_intersections direction) z
          (catalog_entry (obstacles_set_in_start_section s)) = true) /\
     In (start_zone (scheme s)) (set_diff StartZone_eq_dec [Z3; Z4] zones)) /\
  In (start_zone (scheme s)) [Z3; Z4] /\
  forbids (forbidden_intersections direction) (start_zone (scheme s))
    (catalog_entry (obstacles_set_in_start_section s)) = false /\
  (forall o, In o (catalog_entry (obstacles_set_in_start_section s)) ->
     ahead_of (forbidden_intersections direction) (start_zone (scheme s))
       (position o) = false).
Proof.
  intros E. pose proof (obstacle_round_layout direction rnd s w' E) as L.
  pose proof (layout_round _ _ L) as Ha.
  pose proof (round_tally _ _ Ha) as Ht.
  pose proof (layout_start_set _ _ L) as Hs.
  rewrite (tallied_keys _ _ _ _ Ht) in Hs.
  assert (G : dict_get Z.eq_dec (obstacles_set_in_start_section s)
                (obstacles (scheme s)) = Some (start_section (scheme s)))
    by (rewrite (layout_obstacles _ _ L); apply (layout_start_section _ _ L)).
  destruct (layout_start_zone _ _ L) as (zones & Gz & Hz1 & Hz2).
  destruct (tallied_zones _ _ _ _ Ht _ _ Gz) as (os & Gos & _ & Hzs).
  rewrite (catalog_entry_index _ _ Gos).
  rewrite forbidden_intersections_keys in Hzs.
  assert (F : forbids (forbidden_intersections direction)
                (start_zone (scheme s)) os = false).
  { destruct (forbids (forbidden_intersections direction)
                (start_zone (scheme s)) os) eqn:F; [| reflexivity].
    exfalso. apply Hz2, Hzs. auto. }
  split; [exact Hs |]. split; [exact G |]. split; [| split; [| split]].
  - intros i Hi.
    apply (Layout_section_owner _ s _ _ (start_section (scheme s)) L Hi).
    apply dict_get_in in G. exact G.
  - apply usable_start_zone_catalog. eapply list_index_In; eauto.
  - exists zones. split; [exact Gz |]. split; [exact Hzs |].
    apply set_diff_iff. auto.
  - split; [exact Hz1 |]. split; [exact F |].
    apply forbids_false. exact F.
Qed.

Lemma start_zone_is_usable_witness :
  forbids (forbidden_intersections CW) Z4 (catalog_entry 21) = false.
Proof.
  refine (proj1 (proj2 (proj2 (proj2 (proj2 (proj2 (proj2
            (start_zone_is_usable CW sample_tape
               (mkSolved (mkAttempt [8; 21; 0; 1] _ _ _) _ 21 _
                  (mkScheme _ Z4 _ _))
               (mkWorld module_globals []) _)))))))).
  vm_compute. reflexivity.
Defined.

(** C7.  No entry of the catalog forbids both Z3 and Z4, in either
    direction.  The pruning loop raises [RuntimeError] exactly when it
    meets a set with both zones forbidden; on the tally of any draw of the
    catalog it meets none and returns the dict as it is, so neither a round
    of the rejection loop nor the generator raises. *)
Theorem blocked_set_branch_unreachable direction chosen w t w1 :
  globals w = module_globals ->
  valid_draw chosen ->
  for_each chosen (tally_set (forbidden_intersections direction)) empty_tally w
  = (Ret t, w1) ->
  Forall (fun os =>
            forbids (forbidden_intersections direction) Z3 os
            && forbids (forbidden_intersections direction) Z4 os = false)
         obstacles_sets /\
  (forall d w0,
     raised (fst (drop_blocked_sets d w0)) = Some RuntimeError <->
     exists k zs, dict_get Z.eq_dec k d = Some zs /\ length zs = 2%nat) /\
  (forall k zs, dict_get Z.eq_dec k (forbidden_start_zones t) = Some zs ->
     length zs <> 2%nat) /\
  drop_blocked_sets (forbidden_start_zones t) w1
  = (Ret (forbidden_start_zones t), w1) /\
  (forall w0, globals w0 = module_globals ->
     raised (fst (attempt (forbidden_intersections direction) w0)) = None) /\
  (forall rnd,
     raised (fst (run (randomize_and_draw_layout_for_obstacle direction) rnd))
     = None).
Proof.
  intros Hw Hd E.
  assert (Hlen : forall k zs,
            dict_get Z.eq_dec k (forbidden_start_zones t) = Some zs ->
            length zs <> 2%nat).
  { destruct (tally_outcome (forbidden_intersections direction) chosen w)
      as [Ht _].
    - apply valid_draw_NoDup, Hd.
    - intros i Hi. rewrite Hw.
      destruct (catalog_index i (valid_draw_range _ _ Hd Hi)) as [os G].
      change (g_obstacles_sets module_globals) with obstacles_sets.
      congruence.
    - rewrite E in Ht. simpl in Ht. rewrite Hw in Ht.
      intros k zs G.
      destruct (tallied_zones _ _ _ _ Ht k zs G) as (os & Gos & Hz).
      apply (zones_of_catalog_length direction os zs); auto.
      eapply list_index_In; eauto. }
  split; [| split; [| split; [| split; [| split]]]].
  - apply Forall_forall. intros os Hos.
    apply catalog_never_blocks. exact Hos.
  - intros d w0.
    destruct (drop_blocked_sets_outcome d w0) as [[R Hex] | [R Hall]].
    + tauto.
    + rewrite R. simpl. split; [discriminate |].
      intros (k & zs & G & L). exfalso. apply (Hall k zs G L).
  - exact Hlen.
  - destruct (drop_blocked_sets_outcome (forbidden_start_zones t) w1)
      as [[_ (k & zs & G & L)] | [R _]]; [| exact R].
    exfalso. apply (Hlen k zs G L).
  - intros w0 Hw0. apply attempt_never_raises. exact Hw0.
  - intros rnd.
    apply (obstacle_round_outcome direction (mkWorld module_globals rnd)).
    reflexivity.
Qed.

Lemma blocked_set_branch_unreachable_witness :
  drop_blocked_sets [(8, [Z4]); (21, [Z3]); (0, [Z3]); (1, [Z3])]
    (mkWorld module_globals [])
  = (Ret [(8, [Z4]); (21, [Z3]); (0, [Z3]); (1, [Z3])],
     mkWorld module_globals []).
Proof.
  refine (proj1 (proj2 (proj2 (proj2
            (blocked_set_branch_unreachable CW [8; 21; 0; 1]
               (mkWorld module_globals [])
               (mkTally [(8, [Z4]); (21, [Z3]); (0, [Z3]); (1, [Z3])] _ _ _ _)
               (mkWorld module_globals []) eq_refl _ _))))).
  - exists 8, 21, 0, 1. simpl.
    repeat split; auto; try lia.
    repeat constructor; simpl; intuition discriminate.
  - vm_compute. reflexivity.
Defined.

(** C8.  The colour test of the tally raises [ValueError] exactly for an
    obstacle that is neither green nor red, and otherwise adds one to
    exactly one of the two colour counters; the tally loop over valid,
    distinct indices raises [ValueError] exactly when one of the visited
    entries holds such an obstacle.  On the catalog of the module the
    generator never raises, and in every layout each obstacle of the chosen
    sets is green or red, not both, and the two colour tallies add up to
    the number of obstacles. *)
Theorem value_error_iff_undefined_color fi chosen w :
  NoDup chosen ->
  (forall i, In i chosen ->
     list_index (g_obstacles_sets (globals w)) i <> None) ->
  (forall t o w0,
     (raised (fst (tally_color t o w0)) = Some ValueError <->
      ~ defined_color o) /\
     (color o = GREEN ->
      tally_color t o w0 = (Ret (with_green t (green_amount t + 1)), w0)) /\
     (color o = RED ->
      tally_color t o w0 = (Ret (with_red t (red_amount t + 1)), w0))) /\
  (raised (fst (for_each chosen (tally_set fi) empty_tally w)) = Some ValueError
   <->
   exists i os o, In i chosen /\
     list_index (g_obstacles_sets (globals w)) i = Some os /\
     In o os /\ ~ defined_color o) /\
  (forall direction rnd,
     raised (fst (run (randomize_and_draw_layout_for_obstacle direction) rnd))
     = None) /\
  (forall direction rnd s w',
     run (randomize_and_draw_layout_for_obstacle direction) rnd = (Ret s, w') ->
     Forall defined_color
       (chosen_obstacles (chosen_obstacles_sets_indices (accepted s))) /\
     (forall o,
        In o (chosen_obstacles (chosen_obstacles_sets_indices (accepted s))) ->
        xorb (is_green o) (is_red o) = true) /\
     green_amount (tally (accepted s))
     = count_color GREEN
         (chosen_obstacles (chosen_obstacles_sets_indices (accepted s))) /\
     red_amount (tally (accepted s))
     = count_color RED
         (chosen_obstacles (chosen_obstacles_sets_indices (accepted s))) /\
     green_amount (tally (accepted s)) + red_amount (tally (accepted s))
     = obstacles_amount (tally (accepted s))).
Proof.
  intros Nd Hidx. split; [| split; [| split]].
  - intros t [p c] w0. unfold defined_color, tally_color, is_green, is_red.
    simpl color.
    destruct c; simpl; repeat split;
      try discriminate; try reflexivity; try tauto.
    + intros _ [H | H]; discriminate H.
  - destruct (tally_outcome fi chosen w Nd Hidx) as [H _].
    destruct (fst (for_each chosen (tally_set fi) empty_tally w))
      as [t | e |]; simpl.
    + split; [discriminate |].
      intros (i & os & o & Hi & G & Ho & Hu). exfalso. apply Hu.
      destruct (tallied_counts _ _ _ _ H) as (sets & Hs & _ & _ & _ & D).
      rewrite Forall_forall in D. apply D.
      apply in_concat. exists os. split; [| exact Ho].
      eapply sets_at_In; eauto.
    + destruct H as [-> Hex]. tauto.
    + contradiction.
  - intros direction rnd.
    apply (obstacle_round_outcome direction (mkWorld module_globals rnd)).
    reflexivity.
  - intros direction rnd s w' E.
    pose proof (obstacle_round_layout direction rnd s w' E) as L.
    destruct (Round_counts _ _ (layout_round _ _ L)) as (A & G & R & D).
    split; [exact D |]. split; [| split; [exact G | split; [exact R |]]].
    + intros o Ho. rewrite Forall_forall in D. specialize (D o Ho).
      unfold defined_color in D. unfold is_green, is_red.
      destruct D as [-> | ->]; reflexivity.
    + rewrite A, G, R. apply count_color_total. exact D.
Qed.

Lemma value_error_iff_undefined_color_witness :
  raised (fst (for_each [8; 21; 0; 1]
                 (tally_set (forbidden_intersections CW)) empty_tally
                 recolored_world))
  = Some ValueError.
Proof.
  refine (proj2 (proj1 (proj2
            (value_error_iff_undefined_color (forbidden_intersections CW)
               [8; 21; 0; 1] recolored_world _ _))) _).
  - repeat constructor; simpl; intuition discriminate.
  - intros i [<- | [<- | [<- | [<- | []]]]]; vm_compute; discriminate.
  - exists 8, [mkObstacle X2 UNDEFINED], (mkObstacle X2 UNDEFINED).
    repeat split; simpl; auto.
    intros [H | H]; discriminate H.
Defined.

(** C10.  The obstacle-round generator only reads the catalog: after any
    series of calls, whatever the random source and however a call ends,
    [obstacles_sets], [mandatory_obstacles_sets] and
    [required_obstacles_sets] are what they were when the module was
    loaded. *)
Theorem generation_keeps_catalog directions rnd :
  globals (snd (run (generation_calls directions) rnd)) = module_globals /\
  g_obstacles_sets (globals (snd (run (generation_calls directions) rnd)))
  = obstacles_sets /\
  g_mandatory_obstacles_sets
    (globals (snd (run (generation_calls directions) rnd)))
  = mandatory_obstacles_sets /\
  g_required_obstacles_sets
    (globals (snd (run (generation_calls directions) rnd)))
  = required_obstacles_sets.
Proof.
  assert (H : forall w, globals w = module_globals ->
                globals (snd (generation_calls directions w)) = module_globals).
  { induction directions as [| direction rest IH]; intros w Hw; simpl.
    - exact Hw.
    - destruct (obstacle_round_outcome direction w Hw) as [_ Hg].
      unfold bind.
      destruct (randomize_and_draw_layout_for_obstacle direction w)
        as [[s | e |] w1]; simpl in *; auto. }
  unfold run. rewrite (H (mkWorld module_globals rnd) eq_refl).
  repeat split.
Qed.

(** By contrast [set_color] on a catalog entry does change the catalog. *)
Lemma catalog_set_color_writes :
  g_obstacles_sets (globals recolored_world) <> obstacles_sets.
Proof. vm_compute. discriminate. Qed.

(** ** Open round *)

Lemma on_side_new_InnerWall sides side :
  on_side (new_InnerWall sides) side = Section_in side sides.
Proof. destruct side; reflexivity. Qed.

Lemma draw_layout_locals direction fixed w lay w' :
  draw_layout direction fixed w = (Ret lay, w') ->
  allowed_zones lay
  = (if on_side (new_InnerWall (inner_walls_config lay)) (starting_section lay)
     then [Z6; Z5; Z4; Z3] else list_StartZone) /\
  In (starting_zone lay) (allowed_zones lay) /\
  inner_walls lay
  = (if fixed then new_InnerWall [] else new_InnerWall (inner_walls_config lay)).
Proof.
  intros E.
  apply (wp_elim _ _
           (fun o _ =>
              match o with
              | Ret lay =>
                  allowed_zones lay
                  = (if on_side (new_InnerWall (inner_walls_config lay))
                          (starting_section lay)
                     then [Z6; Z5; Z4; Z3] else list_StartZone) /\
                  In (starting_zone lay) (allowed_zones lay) /\
                  inner_walls lay
                  = (if fixed then new_InnerWall []
                     else new_InnerWall (inner_walls_config lay))
              | _ => True
              end) _ _) in E; [exact E |].
  unfold draw_layout.
  apply wp_bind, wp_randint; unfold after; [lia | exact I |].
  intros k w1 Hk _.
  apply wp_bind, wp_sample; unfold after; [simpl; lia | intros; exact I |].
  intros config w2 _ _ _.
  apply wp_bind, wp_choice; unfold after; [discriminate | exact I |].
  intros sec w3 _ _.
  apply wp_bind, wp_choice; unfold after.
  - intros H. exfalso.
    destruct (on_side (new_InnerWall config) sec); discriminate H.
  - exact I.
  - intros zone w4 Hz _. apply wp_ret. simpl. auto.
Qed.

Lemma choice_on_tape {A} (seq : list A) g n rest :
  seq <> [] ->
  choice seq (mkWorld g (n :: rest))
  = match nth_error seq (n mod length seq)%nat with
    | Some x => (Ret x, mkWorld g rest)
    | None => (Raise IndexError, mkWorld g rest)
    end.
Proof.
  intros H. destruct seq as [| y seq]; [congruence |].
  cbv [choice bind next_random tape globals].
  destruct (nth_error _ _); reflexivity.
Qed.

(** C4.  In the open round with a random centre the walls drawn are the
    random draw.  When the start section has its wall pulled inward the
    start zone is chosen from exactly Z6, Z5, Z4, Z3, so never Z1 or Z2, and
    each of the four occurs; otherwise it is chosen from all six zones, and
    each of the six occurs. *)
Theorem open_round_start_zone direction rnd lay w' :
  run (randomize_and_draw_layout_for_open direction) rnd = (Ret lay, w') ->
  inner_walls lay = new_InnerWall (inner_walls_config lay) /\
  In (starting_zone lay) (allowed_zones lay) /\
  (on_side (inner_walls lay) (starting_section lay) = true ->
   allowed_zones lay = [Z6; Z5; Z4; Z3] /\
   In (starting_zone lay) [Z6; Z5; Z4; Z3] /\
   starting_zone lay <> Z1 /\ starting_zone lay <> Z2) /\
  (on_side (inner_walls lay) (starting_section lay) = false ->
   allowed_zones lay = [Z1; Z2; Z3; Z4; Z5; Z6]) /\
  (forall z, In z [Z6; Z5; Z4; Z3] ->
     exists rnd0 lay0 w0,
       run (randomize_and_draw_layout_for_open direction) rnd0 = (Ret lay0, w0) /\
       on_side (inner_walls lay0) (starting_section lay0) = true /\
       starting_zone lay0 = z) /\
  (forall z,
     exists rnd0 lay0 w0,
       run (randomize_and_draw_layout_for_open direction) rnd0 = (Ret lay0, w0) /\
       on_side (inner_walls lay0) (starting_section lay0) = false /\
       starting_zone lay0 = z).
Proof.
  intros E.
  destruct (draw_layout_locals direction false _ lay w' E) as (Ha & Hz & Hw).
  rewrite Hw. split; [reflexivity |]. split; [exact Hz |].
  split; [| split; [| split]].
  - intros Hs. rewrite Hs in Ha. rewrite Ha in Hz.
    split; [exact Ha |]. split; [exact Hz |].
    simpl in Hz. split; intros Ez; rewrite Ez in Hz;
      intuition discriminate.
  - intros Hs. rewrite Hs in Ha. exact Ha.
  - intros z Hin.
    assert (Hk : exists k, z = nth k [Z6; Z5; Z4; Z3] Z6 /\ (k < 4)%nat).
    { simpl in Hin.
      destruct Hin as [<- | [<- | [<- | [<- | []]]]];
        [exists 0%nat | exists 1%nat | exists 2%nat | exists 3%nat];
        simpl; auto with arith. }
    destruct Hk as (k & -> & Hk).
    exists [4; 0; 0; 0; 0; 0; k]%nat.
    destruct k as [| [| [| [| k]]]]; try lia;
      (eexists; eexists; split; [vm_compute; reflexivity | split; reflexivity]).
  - intros z.
    assert (Hk : exists k, z = nth k list_StartZone Z1 /\ (k < 6)%nat).
    { destruct z;
        [exists 0%nat | exists 1%nat | exists 2%nat | exists 3%nat
         | exists 4%nat | exists 5%nat]; simpl; auto with arith. }
    destruct Hk as (k & -> & Hk).
    exists [0; 0; k]%nat.
    destruct k as [| [| [| [| [| [| k]]]]]]; try lia;
      (eexists; eexists; split; [vm_compute; reflexivity | split; reflexivity]).
Qed.

Lemma open_round_start_zone_witness :
  allowed_zones
    (mkOpenLayout [EAST; WEST] EAST [Z6; Z5; Z4; Z3] Z6
       (new_InnerWall [EAST; WEST]))
  = [Z6; Z5; Z4; Z3].
Proof.
  refine (proj1 (proj1 (proj2 (proj2
            (open_round_start_zone CW [2; 3; 1; 3; 4]%nat
               (mkOpenLayout [EAST; WEST] EAST [Z6; Z5; Z4; Z3] Z6
                  (new_InnerWall [EAST; WEST]))
               (mkWorld module_globals []) _))) _)).
  - vm_compute. reflexivity.
  - reflexivity.
Defined.

(** C3 (behaviour of the source).  In the fixed-centre variant the walls
    drawn are always the default ones, but the start zone is still chosen
    after the discarded random wall draw: on a draw that pulls all four
    walls inward and the start section North, whatever the draw [n] for the
    zone, the zone is chosen from Z6, Z5, Z4, Z3 and is never Z1 or Z2. *)
Theorem fixed_center_start_zone_restricted (n : nat) :
  exists lay w',
    run (randomize_and_draw_layout_fixed CW) [4; 0; 0; 0; 0; 0; n]%nat
    = (Ret lay, w') /\
    inner_walls lay = new_InnerWall [] /\
    inner_walls_config lay = [NORTH; EAST; SOUTH; WEST] /\
    starting_section lay = NORTH /\
    on_side (inner_walls lay) (starting_section lay) = false /\
    allowed_zones lay = [Z6; Z5; Z4; Z3] /\
    starting_zone lay <> Z1 /\ starting_zone lay <> Z2.
Proof.
  change (run (randomize_and_draw_layout_fixed CW) [4; 0; 0; 0; 0; 0; n]%nat)
    with (bind (choice [Z6; Z5; Z4; Z3])
            (fun z => ret (mkOpenLayout [NORTH; EAST; SOUTH; WEST] NORTH
                             [Z6; Z5; Z4; Z3] z (new_InnerWall [])))
            (mkWorld module_globals [n])).
  unfold bind. rewrite choice_on_tape by discriminate.
  pose proof (Nat.mod_upper_bound n (length [Z6; Z5; Z4; Z3])) as Hn.
  destruct (n mod length [Z6; Z5; Z4; Z3])%nat as [| [| [| [| k]]]];
    simpl in *; try (exfalso; lia);
    (eexists; eexists; split; [reflexivity |]; simpl;
     repeat split; discriminate).
Qed.

(** ** Geometry *)

Lemma slice_bound_inside n a : 0 <= a <= n -> slice_bound n a = a.
Proof.
  intros H. unfold slice_bound.
  destruct (a <? 0) eqn:E; [apply Z.ltb_lt in E; lia |].
  apply Z.min_l. lia.
Qed.

(** A slice assignment with bounds inside the image fills the rectangle of
    its bounds. *)
Lemma slice_assign_fill img a b c d col i j :
  0 <= a <= image_rows -> 0 <= b <= image_rows ->
  0 <= c <= image_cols -> 0 <= d <= image_cols ->
  slice_assign img a b c d col i j = fill (mkRect a b c d) col img i j.
Proof.
  intros Ha Hb Hc Hd. unfold slice_assign, fill, inside, in_slice. simpl.
  rewrite !slice_bound_inside by assumption.
  rewrite !andb_assoc. reflexivity.
Qed.

(** C9.  The four painters compute rectangles whose sides measure
    |h2 - h1| and |w2 - w1| (rows and columns exchanged on West and East);
    the North rectangle is the canonical one shifted by [border], the South
    rectangle is the North one mirrored in both axes, and mirroring it back
    and removing the shift returns the canonical rectangle.  For corners on
    the field each painter repaints exactly the pixels of its rectangle. *)
Theorem section_transforms_preserve_rectangles h1 w1 h2 w2 c img :
  (rect_rows (translate border (canonical h1 w1 h2 w2)) = Z.abs (h2 - h1) /\
   rect_cols (translate border (canonical h1 w1 h2 w2)) = Z.abs (w2 - w1) /\
   rect_rows (mirror (translate border (canonical h1 w1 h2 w2)))
   = Z.abs (h2 - h1) /\
   rect_cols (mirror (translate border (canonical h1 w1 h2 w2)))
   = Z.abs (w2 - w1) /\
   rect_rows (west_rect h1 w1 h2 w2) = Z.abs (w2 - w1) /\
   rect_cols (west_rect h1 w1 h2 w2) = Z.abs (h2 - h1) /\
   rect_rows (east_rect h1 w1 h2 w2) = Z.abs (w2 - w1) /\
   rect_cols (east_rect h1 w1 h2 w2) = Z.abs (h2 - h1) /\
   mirror (mirror (translate border (canonical h1 w1 h2 w2)))
   = translate border (canonical h1 w1 h2 w2) /\
   translate (- border)
     (mirror (mirror (translate border (canonical h1 w1 h2 w2))))
   = canonical h1 w1 h2 w2) /\
  (on_field h1 w1 h2 w2 ->
   forall i j,
     on_north img h1 w1 h2 w2 c i j
     = fill (translate border (canonical h1 w1 h2 w2)) c img i j /\
     on_south img h1 w1 h2 w2 c i j
     = fill (mirror (translate border (canonical h1 w1 h2 w2))) c img i j /\
     on_west img h1 w1 h2 w2 c i j = fill (west_rect h1 w1 h2 w2) c img i j /\
     on_east img h1 w1 h2 w2 c i j = fill (east_rect h1 w1 h2 w2) c img i j).
Proof.
  split.
  - unfold rect_rows, rect_cols, mirror, translate, canonical, west_rect,
      east_rect; cbn [row_lo row_hi col_lo col_hi].
    unfold image_rows, image_cols, height, width, border.
    repeat split; try lia; f_equal; lia.
  - intros [[Hh1 Hh2] [Hw1 Hw2]] i j.
    unfold on_north, on_south, on_west, on_east.
    rewrite !slice_assign_fill;
      try (unfold image_rows, image_cols, height, width, border in *; lia).
    unfold mirror, translate, canonical, west_rect, east_rect;
      cbn [row_lo row_hi col_lo col_hi].
    repeat split;
      (f_equal; f_equal;
       unfold image_rows, image_cols, height, width, border; lia).
Qed.

Lemma section_transforms_preserve_rectangles_witness :
  on_west (fun _ _ => (255, 255, 255)) 350 950 450 1050 (44, 214, 68) 2000 400
  = fill (mkRect 1960 2060 360 460) (44, 214, 68)
      (fun _ _ => (255, 255, 255)) 2000 400.
Proof.
  refine (proj1 (proj2 (proj2
            (proj2 (section_transforms_preserve_rectangles
                      350 950 450 1050 (44, 214, 68)
                      (fun _ _ => (255, 255, 255))) _ 2000 400)))).
  unfold on_field, height, width. lia.
Defined.

(** ** Sample runs *)

(** A run that accepts its first draw, with the scheme it builds. *)
Example obstacle_round_sample_run :
  exists s w',
    run (randomize_and_draw_layout_for_obstacle CW) sample_tape = (Ret s, w') /\
    chosen_obstacles_sets_indices (accepted s) = [8; 21; 0; 1] /\
    scheme s
    = mkScheme EAST Z4 [(8, NORTH); (21, EAST); (0, SOUTH); (1, WEST)] WEST.
Proof. eexists. eexists. split; [vm_compute; reflexivity | split; reflexivity]. Qed.

(** A run whose first draw is rejected and whose second is accepted. *)
Example obstacle_round_retry_run :
  exists a w1 s w',
    attempt (forbidden_intersections CW)
      (mkWorld module_globals sample_retry_tape) = (Ret a, w1) /\
    chosen_obstacles_sets_indices a = [8; 21; 12; 16] /\
    satisfied a = false /\
    run (randomize_and_draw_layout_for_obstacle CW) sample_retry_tape
    = (Ret s, w') /\
    chosen_obstacles_sets_indices (accepted s) = [8; 21; 0; 1].
Proof.
  do 4 eexists.
  split; [vm_compute; reflexivity |].
  split; [reflexivity |]. split; [reflexivity |].
  split; [vm_compute; reflexivity | reflexivity].
Qed.

(** The tape runs out in the middle of a draw. *)
Example obstacle_round_starved_run :
  fst (run (randomize_and_draw_layout_for_obstacle CW) [0; 0; 8]%nat) = Starved.
Proof. vm_compute. reflexivity. Qed.

(** * Further properties of the code *)

(** ** The section painters *)

Ltac field_constants :=
  change (obstacle_size / 2) with 50 in *;
  change (border / 2) with 5 in *;
  change middle_position with 1500 in *;
  unfold image_rows, image_cols, left_position, middle_position,
    right_position, inner_border, second_line, first_line, obstacle_size,
    parking_barrier_length, parking_barrier_thickness,
    distance_between_parking_barriers, height, width, border in *.

Lemma inside_true R i j :
  inside R i j = true <->
  row_lo R <= i < row_hi R /\ col_lo R <= j < col_hi R.
Proof.
  unfold inside. rewrite !andb_true_iff, !Z.leb_le, !Z.ltb_lt. tauto.
Qed.

Lemma inside_eq R Q i j i' j' :
  (row_lo R <= i < row_hi R /\ col_lo R <= j < col_hi R <->
   row_lo Q <= i' < row_hi Q /\ col_lo Q <= j' < col_hi Q) ->
  inside R i j = inside Q i' j'.
Proof.
  intros H. rewrite <- !inside_true in H.
  destruct (inside R i j), (inside Q i' j'); try reflexivity.
  - symmetry. apply H. reflexivity.
  - apply H. reflexivity.
Qed.

(** On the field a section painter fills the rectangle it computes. *)
Lemma Section_call_fill s img h1 w1 h2 w2 c i j :
  on_field h1 w1 h2 w2 ->
  Section_call s img h1 w1 h2 w2 c i j
  = fill (section_rect s h1 w1 h2 w2) c img i j.
Proof.
  intros [[Hh1 Hh2] [Hw1 Hw2]].
  destruct s; unfold Section_call, section_rect, on_north, on_south, on_west,
    on_east; rewrite slice_assign_fill;
    try (field_constants; lia);
    unfold mirror, translate, canonical, west_rect, east_rect;
    cbn [row_lo row_hi col_lo col_hi];
    unfold fill; try reflexivity;
    (erewrite inside_eq; [reflexivity |]);
    cbn [row_lo row_hi col_lo col_hi]; field_constants; lia.
Qed.

Lemma in_section_on_field h1 w1 h2 w2 :
  in_section h1 w1 h2 w2 -> on_field h1 w1 h2 w2.
Proof. unfold in_section, on_field. field_constants. lia. Qed.

(** A section painter is the canonical rectangle under an invertible change
    of coordinates. *)
Lemma inside_section_rect s h1 w1 h2 w2 i j :
  inside (section_rect s h1 w1 h2 w2) i j
  = inside (canonical h1 w1 h2 w2)
      (fst (canonical_point s i j)) (snd (canonical_point s i j)).
Proof.
  apply inside_eq.
  destruct s; unfold section_rect, canonical_point, mirror, translate,
    canonical, west_rect, east_rect;
    cbn [row_lo row_hi col_lo col_hi fst snd]; field_constants; lia.
Qed.

Lemma disjoint_section_rects s h1 w1 h2 w2 k1 v1 k2 v2 :
  (forall h w, inside (canonical h1 w1 h2 w2) h w
               && inside (canonical k1 v1 k2 v2) h w = false) ->
  disjoint (section_rect s h1 w1 h2 w2) (section_rect s k1 v1 k2 v2).
Proof.
  intros H i j. rewrite !inside_section_rect. apply H.
Qed.

(** X1.  On the field the West, South and East painters are the North
    painter seen after one, two and three quarter turns of the image: the
    colour a painter leaves at a pixel is the colour the North painter
    leaves, on the turned image, at the turned pixel. *)
Theorem painters_are_rotations h1 w1 h2 w2 c img i j :
  on_field h1 w1 h2 w2 ->
  on_west img h1 w1 h2 w2 c i j
  = on_north (rot img) h1 w1 h2 w2 c j (image_rows - 1 - i) /\
  on_south img h1 w1 h2 w2 c i j
  = on_north (rot (rot img)) h1 w1 h2 w2 c
      (image_rows - 1 - i) (image_cols - 1 - j) /\
  on_east img h1 w1 h2 w2 c i j
  = on_north (rot (rot (rot img))) h1 w1 h2 w2 c (image_cols - 1 - j) i.
Proof.
  intros F.
  change (on_west img h1 w1 h2 w2 c i j)
    with (Section_call WEST img h1 w1 h2 w2 c i j).
  change (on_south img h1 w1 h2 w2 c i j)
    with (Section_call SOUTH img h1 w1 h2 w2 c i j).
  change (on_east img h1 w1 h2 w2 c i j)
    with (Section_call EAST img h1 w1 h2 w2 c i j).
  change on_north with (Section_call NORTH).
  rewrite !Section_call_fill by exact F.
  unfold fill. rewrite !inside_section_rect.
  unfold canonical_point; cbn [fst snd].
  repeat split.
  - replace (image_rows - 1 - i - border) with (height + border - 1 - i)
      by (field_constants; lia).
    destruct (inside _ _ _); [reflexivity |].
    unfold rot. f_equal; field_constants; lia.
  - replace (image_rows - 1 - i - border) with (height + border - 1 - i)
      by (field_constants; lia).
    replace (image_cols - 1 - j - border) with (width + border - 1 - j)
      by (field_constants; lia).
    destruct (inside _ _ _); [reflexivity |].
    unfold rot. f_equal; field_constants; lia.
  - replace (image_cols - 1 - j - border) with (width + border - 1 - j)
      by (field_constants; lia).
    destruct (inside _ _ _); [reflexivity |].
    unfold rot. f_equal; field_constants; lia.
Qed.

Lemma painters_are_rotations_witness :
  on_west (fun a b => (a, b, 0)) 350 950 450 1050 (44, 214, 68) 2000 400
  = on_north (rot (fun a b => (a, b, 0))) 350 950 450 1050 (44, 214, 68)
      400 (image_rows - 1 - 2000).
Proof.
  refine (proj1 (painters_are_rotations 350 950 450 1050 (44, 214, 68)
                   (fun a b => (a, b, 0)) 2000 400 _)).
  unfold on_field, height, width. lia.
Defined.

(** X2.  What is painted on a section for a rectangle of the canonical
    section stays inside that section's part of the image, and the parts of
    two different sections do not meet; so painting on two different
    sections gives the same image in either order. *)
Theorem sections_do_not_overlap s s' h1 w1 h2 w2 k1 v1 k2 v2 c c' img i j :
  s <> s' ->
  in_section h1 w1 h2 w2 ->
  in_section k1 v1 k2 v2 ->
  subrect (section_rect s h1 w1 h2 w2) (quadrant s) /\
  disjoint (quadrant s) (quadrant s') /\
  disjoint (section_rect s h1 w1 h2 w2) (section_rect s' k1 v1 k2 v2) /\
  Section_call s (Section_call s' img k1 v1 k2 v2 c') h1 w1 h2 w2 c i j
  = Section_call s' (Section_call s img h1 w1 h2 w2 c) k1 v1 k2 v2 c' i j.
Proof.
  intros N S1 S2.
  assert (Q : forall t a b x y, in_section a b x y ->
                subrect (section_rect t a b x y) (quadrant t)).
  { intros t a b x y [[? ?] [? ?]].
    destruct t; unfold subrect, quadrant, section_rect, mirror, translate,
      canonical, west_rect, east_rect; cbn [row_lo row_hi col_lo col_hi];
      field_constants; lia. }
  assert (D : disjoint (quadrant s) (quadrant s')).
  { intros a b.
    destruct (inside (quadrant s) a b) eqn:E1,
             (inside (quadrant s') a b) eqn:E2; try reflexivity.
    exfalso. apply inside_true in E1, E2.
    destruct s, s'; try congruence;
      unfold quadrant, section_rect, mirror, translate, canonical, west_rect,
        east_rect in E1, E2; cbn [row_lo row_hi col_lo col_hi] in E1, E2;
      field_constants; lia. }
  assert (D' : disjoint (section_rect s h1 w1 h2 w2)
                 (section_rect s' k1 v1 k2 v2)).
  { intros a b.
    destruct (inside (section_rect s h1 w1 h2 w2) a b) eqn:E1,
             (inside (section_rect s' k1 v1 k2 v2) a b) eqn:E2;
      try reflexivity.
    exfalso. specialize (D a b).
    destruct (Q s _ _ _ _ S1) as (? & ? & ? & ?).
    destruct (Q s' _ _ _ _ S2) as (? & ? & ? & ?).
    apply inside_true in E1, E2.
    assert (I1 : inside (quadrant s) a b = true) by (apply inside_true; lia).
    assert (I2 : inside (quadrant s') a b = true) by (apply inside_true; lia).
    rewrite I1, I2 in D. discriminate D. }
  split; [apply Q; exact S1 |]. split; [exact D |]. split; [exact D' |].
  rewrite !Section_call_fill by (apply in_section_on_field; assumption).
  unfold fill.
  rewrite !Section_call_fill by (apply in_section_on_field; assumption).
  unfold fill. specialize (D' i j).
  destruct (inside (section_rect s h1 w1 h2 w2) i j),
           (inside (section_rect s' k1 v1 k2 v2) i j);
    try reflexivity. discriminate D'.
Qed.

Lemma sections_do_not_overlap_witness :
  Section_call NORTH
    (Section_call WEST (fun _ _ => (255, 255, 255)) 400 1000 600 1500
       (192, 192, 192))
    0 1000 200 1020 (255, 0, 255) 100 1015
  = Section_call WEST
      (Section_call NORTH (fun _ _ => (255, 255, 255)) 0 1000 200 1020
         (255, 0, 255))
      400 1000 600 1500 (192, 192, 192) 100 1015.
Proof.
  refine (proj2 (proj2 (proj2
            (sections_do_not_overlap NORTH WEST 0 1000 200 1020
               400 1000 600 1500 (255, 0, 255) (192, 192, 192)
               (fun _ _ => (255, 255, 255)) 100 1015 _ _ _)))).
  - discriminate.
  - unfold in_section. field_constants. lia.
  - unfold in_section. field_constants. lia.
Defined.

(** ** Obstacles and start zones on the image *)

Lemma in_slice_wrapped n a b i :
  a < 0 -> 0 <= b -> b - a <= n -> in_slice n a b i = false.
Proof.
  intros Ha Hb Hn. unfold in_slice, slice_bound.
  destruct (a <? 0) eqn:Ea; [| apply Z.ltb_ge in Ea; lia].
  destruct (b <? 0) eqn:Eb; [apply Z.ltb_lt in Eb; lia |].
  destruct (Z.max (a + n) 0 <=? i) eqn:E1; [| reflexivity].
  destruct (i <? Z.min b n) eqn:E2; [| reflexivity].
  apply Z.leb_le in E1. apply Z.ltb_lt in E2. lia.
Qed.

Lemma slice_assign_clip img a b c d col i j :
  0 <= a -> 0 <= b -> 0 <= c -> 0 <= d ->
  slice_assign img a b c d col i j = fill (clip (mkRect a b c d)) col img i j.
Proof.
  intros Ha Hb Hc Hd.
  assert (B : forall n x, 0 <= x -> slice_bound n x = Z.min x n).
  { intros n x Hx. unfold slice_bound.
    destruct (x <? 0) eqn:E; [apply Z.ltb_lt in E; lia | reflexivity]. }
  unfold slice_assign, fill, inside, in_slice, clip.
  cbn [row_lo row_hi col_lo col_hi].
  rewrite !B by assumption. rewrite !andb_assoc. reflexivity.
Qed.

(** X3.  An obstacle on a top-row intersection reaches 50 pixels over the
    outer edge of its section.  On the North and West sections the slice
    then starts at a negative index, which counts from the far end of the
    image, and nothing is painted; on the South and East sections the
    slice is cut at the end of the image, and a strip 60 pixels deep is
    painted up to the image edge. *)
Theorem top_row_obstacle_is_cut o img i j :
  In (position o) top_row ->
  Obstacle_draw o img NORTH i j = img i j /\
  Obstacle_draw o img WEST i j = img i j /\
  Obstacle_draw o img SOUTH i j
  = fill (clip (obstacle_rect SOUTH (position o))) (Color_value (color o))
      img i j /\
  Obstacle_draw o img EAST i j
  = fill (clip (obstacle_rect EAST (position o))) (Color_value (color o))
      img i j /\
  rect_rows (clip (obstacle_rect SOUTH (position o))) = 60 /\
  row_hi (clip (obstacle_rect SOUTH (position o))) = image_rows /\
  rect_cols (clip (obstacle_rect EAST (position o))) = 60 /\
  col_hi (clip (obstacle_rect EAST (position o))) = image_cols.
Proof.
  destruct o as [p c]. cbn [position color]. intros Hp.
  assert (Hx : fst (Intersection_value p) = 0).
  { simpl in Hp. destruct Hp as [<- | [<- | [<- | []]]]; reflexivity. }
  assert (Hy : 1000 <= snd (Intersection_value p) <= 2000).
  { simpl in Hp. destruct Hp as [<- | [<- | [<- | []]]];
      cbn [Intersection_value snd]; field_constants; lia. }
  unfold Obstacle_draw, Obstacle_x, Obstacle_y, obstacle_rect.
  cbn [position color Section_call section_rect].
  rewrite Hx. set (y := snd (Intersection_value p)) in *.
  split; [| split; [| split; [| split]]].
  - unfold on_north, slice_assign.
    rewrite in_slice_wrapped; [reflexivity | | |]; field_constants; lia.
  - unfold on_west, slice_assign.
    match goal with
    | |- context [in_slice image_cols ?a ?b j] =>
        rewrite (in_slice_wrapped image_cols a b j)
    end; [rewrite andb_false_r; reflexivity | | |]; field_constants; lia.
  - unfold on_south. rewrite slice_assign_clip by (field_constants; lia).
    unfold fill. erewrite inside_eq; [reflexivity |].
    unfold clip, mirror, translate, canonical.
    cbn [row_lo row_hi col_lo col_hi]. field_constants. lia.
  - unfold on_east. rewrite slice_assign_clip by (field_constants; lia).
    reflexivity.
  - unfold rect_rows, rect_cols, clip, mirror, translate, canonical, east_rect.
    cbn [row_lo row_hi col_lo col_hi]. field_constants.
    repeat split; lia.
Qed.

Lemma top_row_obstacle_is_cut_witness :
  Obstacle_draw (mkObstacle TopLeft GREEN) (fun _ _ => (255, 255, 255)) NORTH
    30 1010
  = (255, 255, 255).
Proof.
  refine (proj1 (top_row_obstacle_is_cut (mkObstacle TopLeft GREEN)
                   (fun _ _ => (255, 255, 255)) 30 1010 _)).
  simpl. auto.
Defined.

(** X4.  An obstacle on any other intersection is painted, on every
    section, as a full square of side [obstacle_size] in its colour, and the
    square lies on the playing field, clear of the outer walls. *)
Theorem obstacle_is_a_square o s img i j :
  ~ In (position o) top_row ->
  Obstacle_draw o img s i j
  = fill (obstacle_rect s (position o)) (Color_value (color o)) img i j /\
  rect_rows (obstacle_rect s (position o)) = obstacle_size /\
  rect_cols (obstacle_rect s (position o)) = obstacle_size /\
  subrect (obstacle_rect s (position o)) field_rect.
Proof.
  destruct o as [p c]. cbn [position color]. intros Hp.
  assert (Hx : 400 <= fst (Intersection_value p) <= 1000).
  { destruct p; cbn [Intersection_value fst]; field_constants; try lia;
      exfalso; apply Hp; simpl; auto. }
  assert (Hy : 1000 <= snd (Intersection_value p) <= 2000).
  { destruct p; cbn [Intersection_value snd]; field_constants; lia. }
  unfold Obstacle_draw, Obstacle_x, Obstacle_y, obstacle_rect.
  cbn [position color].
  set (x := fst (Intersection_value p)) in *.
  set (y := snd (Intersection_value p)) in *.
  split.
  - apply Section_call_fill. unfold on_field. field_constants. lia.
  - destruct s; unfold rect_rows, rect_cols, subrect, field_rect, section_rect,
      mirror, translate, canonical, west_rect, east_rect;
      cbn [row_lo row_hi col_lo col_hi]; field_constants; lia.
Qed.

Lemma obstacle_is_a_square_witness :
  rect_rows (obstacle_rect WEST T4) = obstacle_size.
Proof.
  refine (proj1 (proj2 (obstacle_is_a_square (mkObstacle T4 RED) WEST
                          (fun _ _ => (255, 255, 255)) 0 0 _))).
  simpl. intuition discriminate.
Defined.

Lemma VehiclePosition_draw_fill z img s i j :
  VehiclePosition_draw z img s i j
  = fill (zone_rect s z) start_section_color img i j.
Proof.
  unfold VehiclePosition_draw, zone_rect. apply Section_call_fill.
  destruct z; unfold on_field; cbn [StartZone_value Intersection_value fst snd];
    field_constants; lia.
Qed.

Lemma canonical_disjoint h1 w1 h2 w2 k1 v1 k2 v2 :
  (Z.max h1 h2 <= Z.min k1 k2 \/ Z.max k1 k2 <= Z.min h1 h2 \/
   Z.max w1 w2 <= Z.min v1 v2 \/ Z.max v1 v2 <= Z.min w1 w2) ->
  forall h w, inside (canonical h1 w1 h2 w2) h w
              && inside (canonical k1 v1 k2 v2) h w = false.
Proof.
  intros H h w.
  destruct (inside (canonical h1 w1 h2 w2) h w) eqn:E1,
           (inside (canonical k1 v1 k2 v2) h w) eqn:E2; try reflexivity.
  exfalso. apply inside_true in E1, E2.
  unfold canonical in E1, E2. cbn [row_lo row_hi col_lo col_hi] in E1, E2.
  lia.
Qed.

(** X5.  The six start zones tile a section: every pixel of a section's
    part of the image lies in the rectangle of exactly one zone, and
    drawing a vehicle position fills exactly the rectangle of its zone. *)
Theorem start_zones_tile_section s i j :
  inside (quadrant s) i j = true ->
  (exists z,
     inside (zone_rect s z) i j = true /\
     forall z', inside (zone_rect s z') i j = true -> z' = z) /\
  (forall z img,
     VehiclePosition_draw z img s i j
     = fill (zone_rect s z) start_section_color img i j).
Proof.
  intros Q. split; [| intros z img; apply VehiclePosition_draw_fill].
  unfold quadrant in Q. rewrite inside_section_rect in Q.
  assert (E : forall z, inside (zone_rect s z) i j
                        = inside (canonical
                                    (fst (Intersection_value (fst (StartZone_value z))))
                                    (snd (Intersection_value (fst (StartZone_value z))))
                                    (fst (Intersection_value (snd (StartZone_value z))))
                                    (snd (Intersection_value (snd (StartZone_value z)))))
                            (fst (canonical_point s i j))
                            (snd (canonical_point s i j)))
    by (intros z; unfold zone_rect; apply inside_section_rect).
  set (h := fst (canonical_point s i j)) in *.
  set (w := snd (canonical_point s i j)) in *.
  apply inside_true in Q. unfold canonical in Q.
  cbn [row_lo row_hi col_lo col_hi] in Q.
  exists (if h <? 400
          then (if w <? 1500 then Z6 else Z5)
          else if h <? 600
               then (if w <? 1500 then Z4 else Z3)
               else (if w <? 1500 then Z2 else Z1)).
  destruct (h <? 400) eqn:E4; destruct (h <? 600) eqn:E6;
    destruct (w <? 1500) eqn:E5;
    rewrite ?Z.ltb_lt, ?Z.ltb_ge in *;
    (split;
     [ rewrite E; apply inside_true; unfold canonical;
       cbn [row_lo row_hi col_lo col_hi StartZone_value Intersection_value
              fst snd];
       field_constants; lia
     | intros z' Hz'; rewrite E in Hz'; apply inside_true in Hz';
       unfold canonical in Hz';
       destruct z';
       cbn [row_lo row_hi col_lo col_hi StartZone_value Intersection_value
              fst snd] in Hz';
       try reflexivity; exfalso; field_constants; lia ]).
Qed.

Lemma start_zones_tile_section_witness :
  VehiclePosition_draw Z3 (fun _ _ => (255, 255, 255)) EAST 1600 2500
  = fill (zone_rect EAST Z3) start_section_color (fun _ _ => (255, 255, 255))
      1600 2500.
Proof.
  refine (proj2 (start_zones_tile_section EAST 1600 2500 _) Z3
            (fun _ _ => (255, 255, 255))).
  vm_compute. reflexivity.
Defined.

(** X6.  The two parking barriers are painted one after the other as
    rectangles inside zone Z6 of the parking section.  They meet neither
    the square of an obstacle on one of the six arc intersections nor the
    start zones Z3 and Z4 of the same section, so in the obstacle round
    nothing drawn on the parking section covers or is covered by a
    barrier. *)
Theorem parking_barriers_are_clear s img i j :
  draw_parking_lot_barriers img s i j
  = fill (second_barrier_rect s) parking_lot_color
      (fill (first_barrier_rect s) parking_lot_color img) i j /\
  subrect (first_barrier_rect s) (zone_rect s Z6) /\
  subrect (second_barrier_rect s) (zone_rect s Z6) /\
  (forall p, In p arc_intersections ->
     disjoint (first_barrier_rect s) (obstacle_rect s p) /\
     disjoint (second_barrier_rect s) (obstacle_rect s p)) /\
  (forall z, In z [Z3; Z4] ->
     disjoint (first_barrier_rect s) (zone_rect s z) /\
     disjoint (second_barrier_rect s) (zone_rect s z)).
Proof.
  split; [| split; [| split; [| split]]].
  - unfold draw_parking_lot_barriers. cbn [fst snd].
    rewrite Section_call_fill by (unfold on_field; field_constants; lia).
    unfold fill at 1.
    rewrite Section_call_fill by (unfold on_field; field_constants; lia).
    reflexivity.
  - destruct s; unfold subrect, first_barrier_rect, zone_rect, section_rect,
      mirror, translate, canonical, west_rect, east_rect;
      cbn [row_lo row_hi col_lo col_hi StartZone_value Intersection_value
             fst snd];
      field_constants; lia.
  - destruct s; unfold subrect, second_barrier_rect, zone_rect, section_rect,
      mirror, translate, canonical, west_rect, east_rect;
      cbn [row_lo row_hi col_lo col_hi StartZone_value Intersection_value
             fst snd];
      field_constants; lia.
  - intros p Hp.
    assert (Hx : 400 <= fst (Intersection_value p)).
    { simpl in Hp.
      destruct Hp as [<- | [<- | [<- | [<- | [<- | [<- | []]]]]]];
        cbn [Intersection_value fst]; field_constants; lia. }
    split; apply disjoint_section_rects, canonical_disjoint;
      field_constants; lia.
  - intros z Hz.
    split; apply disjoint_section_rects, canonical_disjoint;
      simpl in Hz; destruct Hz as [<- | [<- | []]];
      cbn [StartZone_value Intersection_value fst snd];
      field_constants; lia.
Qed.

(** ** Inner walls *)

Lemma InnerWall_draw_frame iw img i j :
  InnerWall_draw iw img i j
  = (if inside (frame_outer iw) i j && negb (inside (frame_inner iw) i j)
     then (0, 0, 0) else img i j).
Proof.
  unfold InnerWall_draw. cbv zeta.
  destruct iw as [n w s e f]. cbn [_north _west _south _east].
  repeat (rewrite slice_assign_fill
            by (destruct n, w, s, e; field_constants; lia);
          unfold fill).
  unfold frame_outer, frame_inner. cbn [_north _west _south _east].
  match goal with
  | |- (if ?be then _ else if ?bs then _ else if ?bw then _
        else if ?bn then _ else _) = (if ?bo && negb ?bi then _ else _) =>
      assert (B : be || bs || bw || bn = bo && negb bi);
      [| rewrite <- B; destruct be, bs, bw, bn; reflexivity]
  end.
  apply Bool.eq_iff_eq_true.
  rewrite !orb_true_iff, andb_true_iff, negb_true_iff,
    <- not_true_iff_false, !inside_true.
  cbn [row_lo row_hi col_lo col_hi].
  destruct n, w, s, e; field_constants; lia.
Qed.

(** X7.  [InnerWall.draw] paints black exactly the frame between the outer
    edge of the wall segments and the rectangle they enclose, a closed ring
    [border] pixels thick, and leaves every other pixel as it was; the ring
    stays within the band between the second arcs, so the outer 595 pixels
    of the field are never touched. *)
Theorem inner_walls_are_a_closed_frame iw img i j :
  InnerWall_draw iw img i j
  = (if inside (frame_outer iw) i j && negb (inside (frame_inner iw) i j)
     then (0, 0, 0) else img i j) /\
  subrect (frame_inner iw) (frame_outer iw) /\
  subrect (frame_outer iw)
    (mkRect (second_line + border / 2) (height - second_line + border + border / 2 + border)
            (second_line + border / 2) (width - second_line + border + border / 2 + border)) /\
  (inside (mkRect (second_line + border / 2)
             (height - second_line + border + border / 2 + border)
             (second_line + border / 2)
             (width - second_line + border + border / 2 + border)) i j = false ->
   InnerWall_draw iw img i j = img i j).
Proof.
  pose proof (InnerWall_draw_frame iw img i j) as F.
  assert (S : subrect (frame_outer iw)
                (mkRect (second_line + border / 2)
                   (height - second_line + border + border / 2 + border)
                   (second_line + border / 2)
                   (width - second_line + border + border / 2 + border))).
  { destruct iw as [[] [] [] [] f]; unfold subrect, frame_outer;
      cbn [_north _west _south _east row_lo row_hi col_lo col_hi];
      field_constants; lia. }
  split; [exact F |]. split; [| split; [exact S |]].
  - destruct iw as [[] [] [] [] f]; unfold subrect, frame_outer, frame_inner;
      cbn [_north _west _south _east row_lo row_hi col_lo col_hi];
      field_constants; lia.
  - intros Hout. rewrite F.
    destruct (inside (frame_outer iw) i j) eqn:E; [| reflexivity].
    exfalso. apply inside_true in E.
    apply not_true_iff_false in Hout. apply Hout. apply inside_true.
    destruct S as (? & ? & ? & ?). lia.
Qed.

(** ** Open round, continued *)

Lemma Section_in_true side sides : Section_in side sides = true <-> In side sides.
Proof.
  unfold Section_in. destruct (in_dec Section_eq_dec side sides);
    split; auto; discriminate.
Qed.

Lemma NoDup_app_left {A} (l r : list A) : NoDup (l ++ r) -> NoDup l.
Proof.
  induction l as [| a l IH]; simpl; intros H; [constructor |].
  inversion H as [| ? ? Hn Hd]; subst. constructor.
  - intros Hin. apply Hn. apply in_app_iff. auto.
  - auto.
Qed.

Lemma NoDup_sections : NoDup sections.
Proof. unfold sections. repeat constructor; simpl; intuition discriminate. Qed.

(** X8.  The random choices of [draw_layout] have no failure mode: on no
    tape do they raise, and on a tape of at least seven entries they return
    a layout, having used three entries plus one for each wall side
    drawn. *)
Theorem open_round_always_returns direction fixed rnd :
  raised (fst (run (draw_layout direction fixed) rnd)) = None /\
  ((7 <= length rnd)%nat ->
   exists lay w',
     run (draw_layout direction fixed) rnd = (Ret lay, w') /\
     (3 + length (inner_walls_config lay) + length (tape w') = length rnd)%nat /\
     (length (inner_walls_config lay) <= 4)%nat).
Proof.
  split.
  - change (wp (draw_layout direction fixed) (mkWorld module_globals rnd)
              (fun o _ => raised o = None)).
    unfold draw_layout.
    apply wp_bind, wp_randint; unfold after; [lia | reflexivity |].
    intros k w1 Hk _.
    apply wp_bind, wp_sample; unfold after;
      [simpl; lia | intros; reflexivity |].
    intros config w2 _ _ _.
    apply wp_bind, wp_choice; unfold after; [discriminate | reflexivity |].
    intros sec w3 _ _.
    apply wp_bind, wp_choice; unfold after.
    + intros H. exfalso.
      destruct (on_side (new_InnerWall config) sec); discriminate H.
    + reflexivity.
    + intros zone w4 _ _. apply wp_ret. reflexivity.
  - intros L.
    assert (H : wp (draw_layout direction fixed) (mkWorld module_globals rnd)
                  (fun o w' =>
                     match o with
                     | Ret lay =>
                         (3 + length (inner_walls_config lay)
                          + length (tape w') = length rnd)%nat /\
                         (length (inner_walls_config lay) <= 4)%nat
                     | _ => False
                     end)).
    { unfold draw_layout.
      apply wp_bind, wp_randint_fed; [lia | simpl; lia |]. unfold after.
      intros k w1 Hk _ L1. simpl in L1.
      apply wp_bind, wp_sample_fed; [simpl; lia | lia |]. unfold after.
      intros config w2 Lc _ _ L2.
      apply wp_bind, wp_choice_fed; [discriminate | lia |]. unfold after.
      intros sec w3 _ _ L3.
      apply wp_bind, wp_choice_fed; [| lia |]; unfold after.
      - destruct (on_side (new_InnerWall config) sec); discriminate.
      - intros zone w4 _ _ L4. apply wp_ret. simpl. lia. }
    unfold wp in H. unfold run.
    destruct (draw_layout direction fixed (mkWorld module_globals rnd))
      as [[lay | e |] w']; simpl in H; try contradiction.
    exists lay, w'. tauto.
Qed.

Lemma draw_layout_config direction fixed w lay w' :
  draw_layout direction fixed w = (Ret lay, w') ->
  exists rest, Permutation (inner_walls_config lay ++ rest) sections.
Proof.
  intros E.
  apply (wp_elim _ _
           (fun o _ =>
              match o with
              | Ret lay =>
                  exists rest,
                    Permutation (inner_walls_config lay ++ rest) sections
              | _ => True
              end) _ _) in E; [exact E |].
  unfold draw_layout.
  apply wp_bind, wp_randint; unfold after; [lia | exact I |].
  intros k w1 Hk _.
  apply wp_bind, wp_sample; unfold after; [simpl; lia | intros; exact I |].
  intros config w2 _ Hp _.
  apply wp_bind, wp_choice; unfold after; [discriminate | exact I |].
  intros sec w3 _ _.
  apply wp_bind, wp_choice; unfold after.
  - intros H. exfalso.
    destruct (on_side (new_InnerWall config) sec); discriminate H.
  - exact I.
  - intros zone w4 _ _. apply wp_ret. simpl. exact Hp.
Qed.

(** X9.  The wall configuration drawn by [draw_layout] lists no side
    twice and has at most four sides; the random [InnerWall] has its wall
    pulled inward on exactly the sides listed, and the start zone is
    restricted to Z6, Z5, Z4, Z3 exactly when the start section is
    listed. *)
Theorem wall_configuration_is_a_set direction fixed rnd lay w' :
  run (draw_layout direction fixed) rnd = (Ret lay, w') ->
  NoDup (inner_walls_config lay) /\
  (length (inner_walls_config lay) <= 4)%nat /\
  (forall side,
     on_side (new_InnerWall (inner_walls_config lay)) side = true <->
     In side (inner_walls_config lay)) /\
  (allowed_zones lay = [Z6; Z5; Z4; Z3] <->
   In (starting_section lay) (inner_walls_config lay)) /\
  (allowed_zones lay = list_StartZone <->
   ~ In (starting_section lay) (inner_walls_config lay)).
Proof.
  intros E.
  destruct (draw_layout_config direction fixed _ lay w' E) as [rest P].
  destruct (draw_layout_locals direction fixed _ lay w' E) as (Ha & _ & _).
  assert (Nd : NoDup (inner_walls_config lay ++ rest)).
  { eapply Permutation_NoDup; [apply Permutation_sym, P | apply NoDup_sections]. }
  assert (Hs : forall side,
             on_side (new_InnerWall (inner_walls_config lay)) side = true <->
             In side (inner_walls_config lay)).
  { intros side. rewrite on_side_new_InnerWall. apply Section_in_true. }
  split; [eapply NoDup_app_left; eauto |].
  split.
  { apply Permutation_length in P. rewrite length_app in P. simpl in P. lia. }
  split; [exact Hs |].
  rewrite <- Hs, Ha.
  destruct (on_side (new_InnerWall (inner_walls_config lay))
              (starting_section lay));
    split; split; intros H; try reflexivity; try discriminate H;
    try congruence.
Qed.

Lemma wall_configuration_is_a_set_witness :
  NoDup [EAST; WEST].
Proof.
  refine (proj1 (wall_configuration_is_a_set CW false [2; 3; 1; 3; 4]%nat
                   (mkOpenLayout [EAST; WEST] EAST [Z6; Z5; Z4; Z3] Z6
                      (new_InnerWall [EAST; WEST]))
                   (mkWorld module_globals []) _)).
  vm_compute. reflexivity.
Defined.

Lemma zone_outside_frame_inner iw s z :
  (on_side iw s = true -> In z [Z6; Z5; Z4; Z3]) ->
  disjoint (zone_rect s z) (frame_inner iw).
Proof.
  intros H a b.
  destruct (inside (zone_rect s z) a b) eqn:E1,
           (inside (frame_inner iw) a b) eqn:E2; try reflexivity.
  exfalso. apply inside_true in E1, E2.
  destruct iw as [n w so e f].
  unfold on_side in H.
  unfold zone_rect, section_rect, mirror, translate, canonical, west_rect,
    east_rect, frame_inner in E1, E2.
  destruct s, z;
    cbn [row_lo row_hi col_lo col_hi StartZone_value Intersection_value
           fst snd _north _west _south _east] in *;
    destruct n, w, so, e;
    first [ field_constants; lia
          | specialize (H eq_refl); simpl in H; intuition discriminate ].
Qed.

(** X10.  In both variants of the open round the rectangle of the start
    zone lies outside the area the drawn inner walls enclose; in the
    image as it stands before the direction arrow is drawn, every pixel of
    the start zone shows the start colour, except where a wall segment is
    painted over it.  In the fixed variant
    the drawn walls are the default ones, pulled inward on no side. *)
Theorem start_zone_outside_inner_walls direction fixed rnd lay w' :
  run (draw_layout direction fixed) rnd = (Ret lay, w') ->
  disjoint (zone_rect (starting_section lay) (starting_zone lay))
    (frame_inner (inner_walls lay)) /\
  (forall template i j,
     inside (zone_rect (starting_section lay) (starting_zone lay)) i j = true ->
     render_open_round template lay i j
     = (if inside (frame_outer (inner_walls lay)) i j
        then (0, 0, 0) else start_section_color)) /\
  (fixed = true ->
   inner_walls lay = new_InnerWall [] /\
   forall side, on_side (inner_walls lay) side = false).
Proof.
  intros E.
  destruct (draw_layout_locals direction fixed _ lay w' E) as (Ha & Hz & Hw).
  assert (D : disjoint (zone_rect (starting_section lay) (starting_zone lay))
                (frame_inner (inner_walls lay))).
  { apply zone_outside_frame_inner. rewrite Hw. intros Hs.
    destruct fixed.
    - destruct (starting_section lay); discriminate Hs.
    - rewrite Hs in Ha. rewrite Ha in Hz. exact Hz. }
  split; [exact D |]. split.
  - intros template i j Hin. unfold render_open_round.
    rewrite InnerWall_draw_frame, VehiclePosition_draw_fill.
    unfold fill. specialize (D i j). rewrite Hin in *. simpl in D.
    rewrite D. simpl. rewrite andb_true_r. reflexivity.
  - intros ->. split; [exact Hw |]. rewrite Hw.
    intros side. destruct side; reflexivity.
Qed.

Lemma start_zone_outside_inner_walls_witness :
  inside (zone_rect EAST Z6) 1600 2700
  && inside (frame_inner (new_InnerWall [EAST; WEST])) 1600 2700 = false.
Proof.
  refine (proj1 (start_zone_outside_inner_walls CW false [2; 3; 1; 3; 4]%nat
                   (mkOpenLayout [EAST; WEST] EAST [Z6; Z5; Z4; Z3] Z6
                      (new_InnerWall [EAST; WEST]))
                   (mkWorld module_globals []) _) 1600 2700).
  vm_compute. reflexivity.
Defined.

(** ** Obstacle round, continued *)

Lemma catalog_entry_lengths :
  Forall (fun os => (1 <= length os <= 2)%nat) obstacles_sets.
Proof.
  unfold obstacles_sets. repeat (constructor; [simpl; lia |]). constructor.
Qed.

Lemma valid_draw_lengths m r o1 o2 :
  valid_draw [m; r; o1; o2] ->
  length (catalog_entry m) = 1%nat /\
  length (catalog_entry r) = 2%nat /\
  (1 <= length (catalog_entry o1) <= 2)%nat /\
  (1 <= length (catalog_entry o2) <= 2)%nat.
Proof.
  intros Hd.
  assert (Hd' := Hd).
  destruct Hd' as (m' & r' & a & b & E & Hm & Hr & _).
  injection E as <- <- <- <-.
  pose proof catalog_entry_lengths as F. rewrite Forall_forall in F.
  split; [| split; [| split]].
  - simpl in Hm. destruct Hm as [<- | [<- | []]]; reflexivity.
  - simpl in Hr. destruct Hr as [<- | [<- | [<- | [<- | []]]]]; reflexivity.
  - apply F. apply (valid_draw_entry [m; r; o1; o2] o1 Hd). simpl; auto.
  - apply F. apply (valid_draw_entry [m; r; o1; o2] o2 Hd). simpl; auto.
Qed.

(** X11.  Two of the four acceptance tests can never fail on the catalog:
    a round always tallies between five and seven obstacles and always
    keeps all four sets in [forbidden_start_zones].  A draw is therefore
    accepted exactly when its colours are balanced and one of its sets is
    free of parking-forbidden intersections. *)
Theorem only_two_tests_can_reject direction w a w1 :
  globals w = module_globals ->
  attempt (forbidden_intersections direction) w = (Ret a, w1) ->
  5 <= obstacles_amount (tally a) <= 7 /\
  length (forbidden_start_zones (tally a)) = 4%nat /\
  enough_obstacles (chosen_obstacles_sets_indices a) /\
  some_start_zone direction (chosen_obstacles_sets_indices a) /\
  (satisfied a = true <->
   color_balanced (chosen_obstacles_sets_indices a) /\
   some_parking (chosen_obstacles_sets_indices a)) /\
  satisfied a
  = (Z.abs (green_amount (tally a) - red_amount (tally a)) <=? 1)
    && (Z.of_nat (length (obstacles_set_suitable_for_parking_section a)) >? 0).
Proof.
  intros Hw E.
  pose proof (attempt_round direction w a w1 Hw E) as Ha.
  pose proof (round_draw _ _ Ha) as Hd.
  destruct (Round_counts _ _ Ha) as (A & _ & _ & _).
  assert (Hd' := Hd). destruct Hd' as (m & r & o1 & o2 & Ec & _).
  rewrite Ec in Hd.
  destruct (valid_draw_lengths m r o1 o2 Hd) as (Lm & Lr & L1 & L2).
  assert (T : 5 <= obstacles_amount (tally a) <= 7).
  { rewrite A, Ec. unfold count_obstacles, chosen_obstacles.
    cbn [flat_map]. rewrite !length_app. cbn [length]. lia. }
  assert (K : length (forbidden_start_zones (tally a)) = 4%nat).
  { rewrite <- (valid_draw_length _ (round_draw _ _ Ha)).
    rewrite <- (tallied_keys _ _ _ _ (round_tally _ _ Ha)).
    unfold dict_keys. rewrite length_map. reflexivity. }
  assert (En : enough_obstacles (chosen_obstacles_sets_indices a)).
  { unfold enough_obstacles. rewrite <- A. lia. }
  assert (St : some_start_zone direction (chosen_obstacles_sets_indices a)).
  { exists m. rewrite Ec. split; [simpl; auto |].
    apply usable_start_zone_catalog.
    apply (valid_draw_entry [m; r; o1; o2] m Hd). simpl; auto. }
  split; [exact T |]. split; [exact K |]. split; [exact En |].
  split; [exact St |]. split.
  - rewrite (Round_acceptance direction a Ha). unfold acceptable. tauto.
  - rewrite (round_satisfied _ _ Ha). unfold acceptance_test. rewrite K.
    replace (obstacles_amount (tally a) >? 4) with true
      by (symmetry; apply Z.gtb_lt; lia).
    change (Z.of_nat 4 >? 0) with true.
    rewrite !andb_true_r. reflexivity.
Qed.

Lemma only_two_tests_can_reject_witness :
  5 <= 7 <= 7.
Proof.
  refine (proj1 (only_two_tests_can_reject CW
                   (mkWorld module_globals [0; 0; 12; 16]%nat)
                   (mkAttempt [8; 21; 12; 16] (mkTally _ _ 7 _ _) _ false)
                   (mkWorld module_globals [])
                   eq_refl _)).
  vm_compute. reflexivity.
Defined.

(** X12.  Every layout holds the single-obstacle set on X2 drawn first and
    a set of the required pool, and the parking section is never the
    section of a set with an obstacle on X2: in particular never the section
    of the mandatory set. *)
Theorem parking_avoids_mandatory_set direction rnd s w' :
  run (randomize_and_draw_layout_for_obstacle direction) rnd = (Ret s, w') ->
  exists m r o1 o2,
    chosen_obstacles_sets_indices (accepted s) = [m; r; o1; o2] /\
    (catalog_entry m = [mkObstacle X2 GREEN] \/
     catalog_entry m = [mkObstacle X2 RED]) /\
    In r required_obstacles_sets /\
    obstacles_set_in_parking_section s <> m /\
    (forall sec, dict_get Z.eq_dec m (obstacles (scheme s)) = Some sec ->
       sec <> parking_section (scheme s)) /\
    (forall i o, In (i, parking_section (scheme s)) (obstacles (scheme s)) ->
       In o (catalog_entry i) -> position o <> X2).
Proof.
  intros E. pose proof (obstacle_round_layout direction rnd s w' E) as L.
  pose proof (layout_round _ _ L) as Ha.
  pose proof (round_draw _ _ Ha) as Hd.
  assert (Hd' := Hd). destruct Hd' as (m & r & o1 & o2 & Ec & Hm & Hr & _).
  exists m, r, o1, o2.
  assert (Cm : conflicts_with_parking (catalog_entry m) = true)
    by (simpl in Hm; destruct Hm as [<- | [<- | []]]; reflexivity).
  pose proof (layout_parking_set _ _ L) as Hp.
  apply (Round_suitable_iff _ _ _ Ha) in Hp. destruct Hp as [Hpin Hpc].
  assert (Np : obstacles_set_in_parking_section s <> m)
    by (intros Ep; rewrite Ep in Hpc; congruence).
  assert (G : dict_get Z.eq_dec (obstacles_set_in_parking_section s)
                (obstacles (scheme s)) = Some (parking_section (scheme s)))
    by (rewrite (layout_obstacles _ _ L); apply (layout_parking_section _ _ L)).
  split; [exact Ec |]. split.
  { simpl in Hm. destruct Hm as [<- | [<- | []]]; auto. }
  split; [exact Hr |]. split; [exact Np |]. split.
  - intros sec Gm Es. subst sec. apply Np.
    apply (Layout_section_owner _ s _ _ (parking_section (scheme s)) L).
    + apply dict_get_in in G. exact G.
    + apply dict_get_in in Gm. exact Gm.
  - intros i o Hi Ho Ex.
    assert (i = obstacles_set_in_parking_section s).
    { apply (Layout_section_owner _ s _ _ (parking_section (scheme s)) L Hi).
      apply dict_get_in in G. exact G. }
    subst i.
    apply (conflicts_with_parking_false _ Hpc o Ho).
    rewrite Ex. simpl. auto.
Qed.

Lemma parking_avoids_mandatory_set_witness :
  exists m r o1 o2,
    [8; 21; 0; 1] = [m; r; o1; o2] /\
    (catalog_entry m = [mkObstacle X2 GREEN] \/
     catalog_entry m = [mkObstacle X2 RED]) /\
    In r required_obstacles_sets /\
    1 <> m /\
    (forall sec,
       dict_get Z.eq_dec m [(8, NORTH); (21, EAST); (0, SOUTH); (1, WEST)]
       = Some sec -> sec <> WEST) /\
    (forall i o,
       In (i, WEST) [(8, NORTH); (21, EAST); (0, SOUTH); (1, WEST)] ->
       In o (catalog_entry i) -> position o <> X2).
Proof.
  refine (parking_avoids_mandatory_set CW sample_tape
            (mkSolved (mkAttempt [8; 21; 0; 1] _ _ _) _ _ 1
               (mkScheme _ _ [(8, NORTH); (21, EAST); (0, SOUTH); (1, WEST)]
                  WEST))
            (mkWorld module_globals []) _).
  vm_compute. reflexivity.
Defined.

(** X13.  No round is doomed by its first two draws: whatever the colour
    of the mandatory set and whichever set of the required pool is drawn,
    in either direction, drawing the sets 0 and 1 for [os1] and [os2]
    gives an accepted draw and the generator returns a layout on it. *)
Theorem every_first_draw_can_be_accepted direction c k :
  (c < 2)%nat -> (k < 4)%nat ->
  exists s w',
    run (randomize_and_draw_layout_for_obstacle direction)
      [c; k; 0; 1; 0; 0; 0; 0; 0; 0; 0]%nat = (Ret s, w') /\
    chosen_obstacles_sets_indices (accepted s)
    = [nth c [8; 9] 0; nth k required_obstacles_sets 0; 0; 1].
Proof.
  intros Hc Hk.
  destruct c as [| [| c]]; try lia;
    destruct k as [| [| [| [| k]]]]; try lia;
    destruct direction;
    (eexists; eexists; split; [vm_compute; reflexivity | reflexivity]).
Qed.

Lemma every_first_draw_can_be_accepted_witness :
  exists s w',
    run (randomize_and_draw_layout_for_obstacle CCW)
      [1; 2; 0; 1; 0; 0; 0; 0; 0; 0; 0]%nat = (Ret s, w') /\
    chosen_obstacles_sets_indices (accepted s) = [9; 27; 0; 1].
Proof.
  refine (every_first_draw_can_be_accepted CCW 1 2 _ _); lia.
Defined.

(** X14.  The loop meant to drop the sets without a start zone never
    drops one: it either returns the dict exactly as it received it, which
    happens when no set has both zones forbidden, or it raises
    [RuntimeError], which happens as soon as one set has. *)
Theorem pruning_loop_never_prunes d w :
  (forall d' w', drop_blocked_sets d w = (Ret d', w') ->
     d' = d /\ w' = w /\
     forall k zs, dict_get Z.eq_dec k d = Some zs -> length zs <> 2%nat) /\
  ((forall k zs, dict_get Z.eq_dec k d = Some zs -> length zs <> 2%nat) ->
   drop_blocked_sets d w = (Ret d, w)) /\
  ((exists k zs, dict_get Z.eq_dec k d = Some zs /\ length zs = 2%nat) ->
   fst (drop_blocked_sets d w) = Raise RuntimeError).
Proof.
  destruct (drop_blocked_sets_outcome d w) as [[R Hex] | [R Hall]].
  - assert (Er : fst (drop_blocked_sets d w) = Raise RuntimeError).
    { destruct (fst (drop_blocked_sets d w)); simpl in R; congruence. }
    split; [| split].
    + intros d' w' E. rewrite E in Er. discriminate Er.
    + intros Hall. destruct Hex as (k & zs & G & L).
      exfalso. apply (Hall k zs G L).
    + intros _. exact Er.
  - split; [| split].
    + intros d' w' E. rewrite R in E. injection E as <- <-. auto.
    + intros _. exact R.
    + intros (k & zs & G & L). exfalso. apply (Hall k zs G L).
Qed.

(** X15.  On any catalog and any pairwise distinct indices the tally loop
    draws nothing from the random source and leaves the state as it is.
    It returns the exact counts and forbidden zones of the entries
    visited, with green and red adding up to the total, or it raises:
    [IndexError] only if some index is outside the catalog, [ValueError]
    only if some visited entry has an obstacle that is neither green nor
    red. *)
Theorem tally_on_any_catalog fi chosen w :
  NoDup chosen ->
  match fst (for_each chosen (tally_set fi) empty_tally w) with
  | Ret t =>
      Tallied (g_obstacles_sets (globals w)) fi chosen t /\
      green_amount t + red_amount t = obstacles_amount t
  | Raise e =>
      (e = IndexError /\
       exists i, In i chosen /\
         list_index (g_obstacles_sets (globals w)) i = None) \/
      (e = ValueError /\
       exists i os o, In i chosen /\
         list_index (g_obstacles_sets (globals w)) i = Some os /\
         In o os /\ ~ defined_color o)
  | Starved => False
  end /\
  snd (for_each chosen (tally_set fi) empty_tally w) = w.
Proof.
  intros Nd.
  apply (wp_tally fi chosen w
           (fun o w' =>
              match o with
              | Ret t =>
                  Tallied (g_obstacles_sets (globals w)) fi chosen t /\
                  green_amount t + red_amount t = obstacles_amount t
              | Raise e =>
                  (e = IndexError /\
                   exists i, In i chosen /\
                     list_index (g_obstacles_sets (globals w)) i = None) \/
                  (e = ValueError /\
                   exists i os o, In i chosen /\
                     list_index (g_obstacles_sets (globals w)) i = Some os /\
                     In o os /\ ~ defined_color o)
              | Starved => False
              end /\ w' = w)); auto.
  intros t Ht. split; [| reflexivity]. split; [exact Ht |].
  destruct (tallied_counts _ _ _ _ Ht) as (sets & _ & A & G & R & D).
  rewrite A, G, R. apply count_color_total. exact D.
Qed.

Lemma tally_on_any_catalog_witness :
  snd (for_each [8; 21; 0; 1] (tally_set (forbidden_intersections CW))
         empty_tally truncated_world)
  = truncated_world.
Proof.
  refine (proj2 (tally_on_any_catalog (forbidden_intersections CW)
                   [8; 21; 0; 1] truncated_world _)).
  repeat constructor; simpl; intuition discriminate.
Defined.

(** On the truncated catalog the required index 21 is out of range. *)
Example tally_on_truncated_catalog :
  fst (for_each [8; 21; 0; 1] (tally_set (forbidden_intersections CW))
         empty_tally truncated_world)
  = Raise IndexError.
Proof. vm_compute. reflexivity. Qed.

Lemma Intersection_value_inj p q :
  Intersection_value p = Intersection_value q -> p = q.
Proof.
  destruct p, q; intros H; try reflexivity; vm_compute in H; discriminate H.
Qed.

(** X16.  No two members of [Intersection], of [StartZone] or of [Color]
    have the same value, so no member of these enumerations is an alias of
    another one. *)
Theorem enumerations_have_no_alias :
  (forall p q, Intersection_value p = Intersection_value q -> p = q) /\
  (forall y z, StartZone_value y = StartZone_value z -> y = z) /\
  (forall c d, Color_value c = Color_value d -> c = d).
Proof.
  split; [| split].
  - exact Intersection_value_inj.
  - intros y z; destruct y, z; intros H; try reflexivity; discriminate H.
  - intros c d; destruct c, d; intros H; try reflexivity; discriminate H.
Qed.

(** ** Rendering the scheme *)

Lemma catalog_positions os o :
  In os obstacles_sets -> In o os -> In (position o) arc_intersections.
Proof.
  assert (H : Forall (Forall (fun o => In (position o) arc_intersections))
                obstacles_sets).
  { unfold obstacles_sets, arc_intersections.
    repeat (constructor; [repeat (constructor; simpl; auto 10) |]).
    constructor. }
  intros Hos Ho. rewrite Forall_forall in H. specialize (H os Hos).
  rewrite Forall_forall in H. auto.
Qed.

Lemma catalog_positions_distinct os o o' :
  In os obstacles_sets -> In o os -> In o' os ->
  position o = position o' -> o = o'.
Proof.
  assert (H : Forall (fun os => NoDup (map position os)) obstacles_sets).
  { unfold obstacles_sets.
    repeat (constructor;
            [repeat constructor; simpl; intuition discriminate |]).
    constructor. }
  intros Hos Ho Ho' E. rewrite Forall_forall in H.
  apply (NoDup_map_inj_on position os o o' (H os Hos) Ho Ho' E).
Qed.

Lemma arc_intersection_value p :
  In p arc_intersections ->
  (fst (Intersection_value p) = 400 \/ fst (Intersection_value p) = 600) /\
  (snd (Intersection_value p) = 1000 \/ snd (Intersection_value p) = 1500
   \/ snd (Intersection_value p) = 2000).
Proof.
  simpl. intros [<- | [<- | [<- | [<- | [<- | [<- | []]]]]]];
    vm_compute; auto.
Qed.

(** Squares of obstacles on arc intersections meet only when they are the
    same square. *)
Lemma obstacle_rects_meet s p s' p' a b :
  In p arc_intersections -> In p' arc_intersections ->
  inside (obstacle_rect s p) a b = true ->
  inside (obstacle_rect s' p') a b = true ->
  s = s' /\ p = p'.
Proof.
  intros Hp Hp' E1 E2.
  destruct (arc_intersection_value p Hp) as [Hx Hy].
  destruct (arc_intersection_value p' Hp') as [Hx' Hy'].
  apply inside_true in E1, E2.
  unfold obstacle_rect in E1, E2.
  assert (V : fst (Intersection_value p) = fst (Intersection_value p') /\
              snd (Intersection_value p) = snd (Intersection_value p') /\
              s = s').
  { set (x := fst (Intersection_value p)) in *.
    set (y := snd (Intersection_value p)) in *.
    set (x' := fst (Intersection_value p')) in *.
    set (y' := snd (Intersection_value p')) in *.
    destruct s, s';
      unfold section_rect, mirror, translate, canonical, west_rect, east_rect
        in E1, E2;
      cbn [row_lo row_hi col_lo col_hi] in E1, E2;
      field_constants;
      first [ exfalso; lia | repeat split; try reflexivity; lia ]. }
  destruct V as (Vx & Vy & Vs). split; [exact Vs |].
  apply Intersection_value_inj.
  destruct (Intersection_value p), (Intersection_value p'); simpl in *.
  congruence.
Qed.

Lemma arc_obstacle_clear_of_default_walls s p :
  In p arc_intersections ->
  disjoint (obstacle_rect s p) (frame_outer (new_InnerWall [])).
Proof.
  intros Hp a b.
  destruct (arc_intersection_value p Hp) as [Hx Hy].
  destruct (inside (obstacle_rect s p) a b) eqn:E1,
           (inside (frame_outer (new_InnerWall [])) a b) eqn:E2;
    try reflexivity.
  exfalso. apply inside_true in E1, E2.
  change (new_InnerWall []) with (mkInnerWall false false false false true)
    in E2.
  unfold obstacle_rect, frame_outer in E1, E2.
  set (x := fst (Intersection_value p)) in *.
  set (y := snd (Intersection_value p)) in *.
  destruct s;
    unfold section_rect, mirror, translate, canonical, west_rect, east_rect
      in E1;
    cbn [row_lo row_hi col_lo col_hi _north _west _south _east] in E1, E2;
    field_constants; lia.
Qed.

Lemma In_top_row_not_arc p :
  In p arc_intersections -> ~ In p top_row.
Proof.
  simpl. intros [<- | [<- | [<- | [<- | [<- | [<- | []]]]]]];
    intuition discriminate.
Qed.

Lemma find_in_app {A} (f : A -> bool) (l r : list A) :
  find f (l ++ r)
  = match find f l with
    | Some x => Some x
    | None => find f r
    end.
Proof.
  induction l as [| x l IH]; simpl; [reflexivity |].
  destruct (f x); [reflexivity | exact IH].
Qed.

(** The painter's rule: after drawing a list of obstacles, a pixel shows the
    colour of the last obstacle whose square holds it. *)
Lemma paint_all_pixel pl : forall img a b,
  (forall so, In so pl -> In (position (snd so)) arc_intersections) ->
  paint_all img pl a b
  = match find (fun so => inside (obstacle_rect (fst so) (position (snd so))) a b)
            (rev pl) with
    | Some so => Color_value (color (snd so))
    | None => img a b
    end.
Proof.
  unfold paint_all. induction pl as [| so pl IH]; intros img a b Harc.
  - reflexivity.
  - simpl fold_left. rewrite IH by (intros so' H; apply Harc; right; exact H).
    simpl rev. rewrite find_in_app.
    destruct (find _ (rev pl)); [reflexivity |].
    simpl find.
    assert (D : Obstacle_draw (snd so) img (fst so) a b
                = fill (obstacle_rect (fst so) (position (snd so)))
                    (Color_value (color (snd so))) img a b).
    { unfold Obstacle_draw, obstacle_rect, Obstacle_x, Obstacle_y.
      apply Section_call_fill.
      destruct (arc_intersection_value (position (snd so)))
        as [Hx Hy]; [apply Harc; left; reflexivity |].
      unfold on_field. field_constants. lia. }
    rewrite D. unfold fill.
    destruct (inside _ a b); reflexivity.
Qed.

Lemma draw_obstacles_set_paint_all img sec os :
  draw_obstacles_set img sec os = paint_all img (map (pair sec) os).
Proof.
  unfold draw_obstacles_set, paint_all. revert img.
  induction os as [| o os IH]; intros img; simpl; [reflexivity | apply IH].
Qed.

Lemma paint_all_app img pl pl' :
  paint_all img (pl ++ pl') = paint_all (paint_all img pl) pl'.
Proof. unfold paint_all. apply fold_left_app. Qed.

(** Drawing the chosen sets of a placement reads the catalog and paints
    the placed obstacles in order. *)
Lemma draw_chosen_sets_run d2 : forall d1 img w,
  globals w = module_globals ->
  NoDup (dict_keys (d1 ++ d2)) ->
  (forall k, In k (dict_keys d2) -> 0 <= k <= 31) ->
  for_each (dict_keys d2)
    (fun img obstacles_set_index =>
       section <- dict_getitem Z.eq_dec obstacles_set_index (d1 ++ d2) ;;
       catalog <- read g_obstacles_sets ;;
       one_obstacles_set <- list_getitem catalog obstacles_set_index ;;
       ret (draw_obstacles_set img section one_obstacles_set))
    img w
  = (Ret (paint_all img (placed d2)), w).
Proof.
  induction d2 as [| [k sec] d2 IH]; intros d1 img w Hw Nd Hr.
  - reflexivity.
  - assert (G : dict_get Z.eq_dec k (d1 ++ (k, sec) :: d2) = Some sec).
    { apply dict_in_get; [exact Nd |]. apply in_elt. }
    destruct (catalog_index k) as [os Gos].
    { apply Hr. simpl. auto. }
    pose proof (catalog_entry_index k os Gos) as Eos.
    specialize (IH (d1 ++ [(k, sec)])
                  (draw_obstacles_set img sec os) w Hw).
    rewrite <- app_assoc in IH. simpl app in IH.
    specialize (IH Nd (fun k' H => Hr k' (or_intror H))).
    unfold dict_keys. simpl map. simpl for_each.
    unfold bind at 1. unfold bind at 1. unfold dict_getitem at 1.
    rewrite G. unfold ret at 1. unfold bind at 1. unfold read at 1.
    rewrite Hw. unfold bind at 1. unfold list_getitem at 1.
    change (g_obstacles_sets module_globals) with obstacles_sets.
    rewrite Gos. unfold ret at 1. unfold ret at 1.
    unfold dict_keys in IH. rewrite IH.
    unfold placed. simpl flat_map. rewrite paint_all_app.
    simpl fst. simpl snd. rewrite Eos.
    rewrite draw_obstacles_set_paint_all. reflexivity.
Qed.

Lemma In_placed d so :
  In so (placed d) <->
  exists i, In (i, fst so) d /\ In (snd so) (catalog_entry i).
Proof.
  unfold placed. rewrite in_flat_map. split.
  - intros ([i sec] & Hd & Hm). simpl in Hm.
    apply in_map_iff in Hm. destruct Hm as (o & <- & Ho).
    exists i. simpl. auto.
  - intros (i & Hd & Ho). exists (i, fst so). split; [exact Hd |].
    simpl. apply in_map_iff. exists (snd so). split; [| exact Ho].
    destruct so; reflexivity.
Qed.

(** X17.  Rendering the scheme of a layout never fails, and in the image
    as it stands before the direction arrow is drawn every obstacle of
    every chosen set is visible in full: each pixel of its square, on the
    section its set was assigned to, shows the obstacle's colour.  Neither
    another obstacle nor the inner walls drawn afterwards cover it. *)
Theorem layout_obstacles_are_visible direction rnd s w' template :
  run (randomize_and_draw_layout_for_obstacle direction) rnd = (Ret s, w') ->
  exists img,
    render_obstacle_round template s w' = (Ret img, w') /\
    forall i sec o a b,
      In (i, sec) (obstacles (scheme s)) ->
      In o (catalog_entry i) ->
      inside (obstacle_rect sec (position o)) a b = true ->
      img a b = Color_value (color o).
Proof.
  intros E. pose proof (obstacle_round_layout direction rnd s w' E) as L.
  pose proof (round_draw _ _ (layout_round _ _ L)) as Hd.
  assert (Hw : globals w' = module_globals).
  { destruct (obstacle_round_outcome direction (mkWorld module_globals rnd)
                eq_refl) as [_ H].
    unfold run in E. rewrite E in H. exact H. }
  destruct (Layout_assignment _ s L) as [Nk Nv].
  assert (K : dict_keys (obstacles (scheme s))
              = chosen_obstacles_sets_indices (accepted s))
    by (rewrite (layout_obstacles _ _ L); apply (layout_keys _ _ L)).
  set (img0 := draw_parking_lot_barriers
                 (VehiclePosition_draw (start_zone (scheme s)) template
                    (start_section (scheme s)))
                 (parking_section (scheme s))).
  assert (R : draw_scheme_for_final template (scheme s) w'
              = (Ret (paint_all img0 (placed (obstacles (scheme s)))), w')).
  { unfold draw_scheme_for_final, draw_chosen_sets. cbv zeta.
    apply (draw_chosen_sets_run (obstacles (scheme s)) [] img0 w' Hw Nk).
    intros k Hk. rewrite K in Hk. apply (valid_draw_range _ k Hd Hk). }
  exists (InnerWall_draw (new_InnerWall [])
            (paint_all img0 (placed (obstacles (scheme s))))).
  split.
  { unfold render_obstacle_round, bind. rewrite R. reflexivity. }
  intros i sec o a b Hi Ho Hin.
  assert (Entry : forall k, In k (dict_keys (obstacles (scheme s))) ->
                    In (catalog_entry k) obstacles_sets).
  { intros k Hk. rewrite K in Hk. apply (valid_draw_entry _ k Hd Hk). }
  assert (Hki : In i (dict_keys (obstacles (scheme s)))).
  { unfold dict_keys. change i with (fst (i, sec)). apply in_map. exact Hi. }
  assert (Harc : forall so, In so (placed (obstacles (scheme s))) ->
                   In (position (snd so)) arc_intersections).
  { intros so Hso. apply In_placed in Hso. destruct Hso as (k & Hk & Hko).
    apply (catalog_positions (catalog_entry k)); [| exact Hko].
    apply Entry. unfold dict_keys. change k with (fst (k, fst so)).
    apply in_map. exact Hk. }
  assert (Hpo : In (position o) arc_intersections)
    by (apply (catalog_positions (catalog_entry i)); auto).
  rewrite InnerWall_draw_frame.
  pose proof (arc_obstacle_clear_of_default_walls sec (position o) Hpo a b)
    as Hclear.
  rewrite Hin in Hclear. simpl in Hclear. rewrite Hclear. simpl.
  rewrite (paint_all_pixel _ img0 a b Harc).
  destruct (find _ (rev (placed (obstacles (scheme s))))) as [so' |] eqn:F.
  - apply find_some in F. destruct F as [Hso' Hin'].
    apply in_rev in Hso'.
    destruct (obstacle_rects_meet sec (position o) (fst so')
                (position (snd so')) a b Hpo (Harc so' Hso') Hin Hin')
      as [Es Ep].
    apply In_placed in Hso'. destruct Hso' as (k & Hk & Hko).
    rewrite <- Es in Hk.
    assert (k = i) by (apply (Layout_section_owner _ s k i sec L Hk Hi)).
    subst k.
    rewrite (catalog_positions_distinct (catalog_entry i) o (snd so')
               (Entry i Hki) Ho Hko Ep).
    reflexivity.
  - exfalso.
    assert (Hso : In (sec, o) (rev (placed (obstacles (scheme s))))).
    { apply in_rev. rewrite rev_involutive. apply In_placed.
      exists i. simpl. auto. }
    pose proof (find_none _ _ F (sec, o) Hso) as Hn. simpl in Hn.
    congruence.
Qed.

Lemma layout_obstacles_are_visible_witness :
  exists img,
    render_obstacle_round (fun _ _ => (255, 255, 255))
      (mkSolved
         (mkAttempt [8; 21; 0; 1]
            (mkTally [(8, [Z4]); (21, [Z3]); (0, [Z3]); (1, [Z3])] [8] 5 3 2)
            [1; 0; 21] true)
         [(8, NORTH); (21, EAST); (0, SOUTH); (1, WEST)] 21 1
         (mkScheme EAST Z4 [(8, NORTH); (21, EAST); (0, SOUTH); (1, WEST)]
            WEST))
      (mkWorld module_globals [])
    = (Ret img, mkWorld module_globals []) /\
    forall i sec o a b,
      In (i, sec) [(8, NORTH); (21, EAST); (0, SOUTH); (1, WEST)] ->
      In o (catalog_entry i) ->
      inside (obstacle_rect sec (position o)) a b = true ->
      img a b = Color_value (color o).
Proof.
  refine (layout_obstacles_are_visible CW sample_tape _ _
            (fun _ _ => (255, 255, 255)) _).
  vm_compute. reflexivity.
Defined.

(** ** After acceptance *)

(** X18.  Once a round has accepted its draw the generator cannot fail or
    loop any more: with seven entries left on the tape, for the shuffle of
    the four sections and the three final choices, the assignment returns
    a scheme for that draw and uses exactly those seven. *)
Theorem assignment_uses_seven_draws direction w a w1 :
  globals w = module_globals ->
  attempt (forbidden_intersections direction) w = (Ret a, w1) ->
  satisfied a = true ->
  (7 <= length (tape w1))%nat ->
  exists s w',
    assign_sections a w1 = (Ret s, w') /\
    accepted s = a /\
    (length (tape w') + 7 = length (tape w1))%nat.
Proof.
  intros Hw E Hsat Ht.
  pose proof (attempt_round direction w a w1 Hw E) as Ha.
  pose proof (attempt_world direction w a w1 Hw E) as Hw1.
  assert (H : wp (assign_sections a) w1
                (fun o w' =>
                   match o with
                   | Ret s =>
                       accepted s = a /\
                       (length (tape w') + 7 = length (tape w1))%nat
                   | _ => False
                   end)).
  { apply (wp_assign_sections_fed direction a w1); auto. }
  unfold wp in H.
  destruct (assign_sections a w1) as [[s | e |] w']; simpl in H;
    try contradiction.
  exists s, w'. tauto.
Qed.

Lemma assignment_uses_seven_draws_witness :
  exists s w',
    assign_sections
      (mkAttempt [8; 21; 0; 1]
         (mkTally [(8, [Z4]); (21, [Z3]); (0, [Z3]); (1, [Z3])] [8] 5 3 2)
         [1; 0; 21] true)
      (mkWorld module_globals [1; 2; 3; 4; 5; 6; 7]%nat) = (Ret s, w') /\
    accepted s
    = mkAttempt [8; 21; 0; 1]
        (mkTally [(8, [Z4]); (21, [Z3]); (0, [Z3]); (1, [Z3])] [8] 5 3 2)
        [1; 0; 21] true /\
    (length (tape w') + 7 = 7)%nat.
Proof.
  refine (assignment_uses_seven_draws CW
            (mkWorld module_globals sample_tape) _ _ eq_refl _ _ _).
  - vm_compute. reflexivity.
  - reflexivity.
  - simpl. lia.
Defined.
